(** * Radar ambiguity calculator: the search-and-filter core, embedded and verified

    The development follows [source/functions.py], function by function,
    and the stage code of the driving script [source/radarconf.py]; every
    definition says which lines it renders.

    - numpy arrays of numbers are lists over a scalar type [F] with the
      operations the code applies to them (class [Arith], and [Trig] for the
      transcendental ones).  Two instances are given: binary64 ([float], the
      arrays' dtype, executable, with IEEE NaN and infinities) and the real
      numbers ([R], the exact arithmetic the specification's formulas are
      written in).
    - a 3xN array is the list of its N columns ([vec3] records); an Nx2 array
      of coordinates is the list of its rows.
    - a Python call either returns or raises: type [outcome]. *)

From Stdlib Require Import ZArith List Sorted Reals Lra Lia Psatz.
From Stdlib Require PrimFloat FloatOps SpecFloat FloatAxioms.
From stdpp Require Import base tactics option list strings gmap.

Local Open Scope Z_scope.

(** ** Python outcomes *)

(** The exceptions the modelled code can raise ([ValueError], [IndexError],
    [ZeroDivisionError], [OverflowError], [LinAlgError]: Python's and numpy's
    own), and the two error kinds of the specification's taxonomy, which
    nothing in the code raises. *)
Inductive exn : Set :=
  | ValueError
  | IndexError
  | ZeroDivisionError
  | OverflowError
  | LinAlgError
  | InvalidGeometryError
  | DomainError.

Inductive outcome (A : Type) : Type :=
  | Returns (a : A)
  | Raises (e : exn).
Arguments Returns {A} a.
Arguments Raises {A} e.

#[global] Instance outcome_ret : MRet outcome := @Returns.
#[global] Instance outcome_bind : MBind outcome := λ A B k m,
  match m with
  | Returns a => k a
  | Raises e => Raises e
  end.
#[global] Instance outcome_fmap : FMap outcome := λ A B g m,
  match m with
  | Returns a => Returns (g a)
  | Raises e => Raises e
  end.

(** [a[i]] for an index known not to be negative (one that [enumerate] or
    [np.where] produced, or a literal): [IndexError] out of range. *)
Definition getitem {A} (l : list A) (i : nat) : outcome A :=
  match l !! i with
  | Some a => Returns a
  | None => Raises IndexError
  end.

(** [a[idx]] with an integer index array (fancy indexing). *)
Definition take_indices {A} (l : list A) (idx : list nat) : outcome (list A) :=
  mapM (getitem l) idx.

(** An [int] used as an index into [len] slots: numpy counts a negative one
    from the end. *)
Definition norm_index (len : nat) (i : Z) : outcome nat :=
  if decide (0 ≤ i < Z.of_nat len) then Returns (Z.to_nat i)
  else if decide (- Z.of_nat len ≤ i < 0) then Returns (Z.to_nat (Z.of_nat len + i))
  else Raises IndexError.

(** [a[i]] for any [int]. *)
Definition getitemZ {A} (l : list A) (i : Z) : outcome A :=
  n ← norm_index (length l) i; getitem l n.

(** [a[i] = v]. *)
Definition setitemZ {A} (l : list A) (i : Z) (v : A) : outcome (list A) :=
  n ← norm_index (length l) i; Returns (<[n:=v]> l).

(** [range(a, b)]. *)
Definition py_range (a b : Z) : list Z := seqZ a (b - a).

(** [np.where(m)[0]] of a boolean vector: the positions that hold [True], in
    increasing order. *)
Fixpoint np_where_from (i : nat) (m : list bool) : list nat :=
  match m with
  | [] => []
  | b :: m' => if b then i :: np_where_from (S i) m' else np_where_from (S i) m'
  end.
Definition np_where (m : list bool) : list nat := np_where_from 0 m.

(** An elementwise binary operation on two vectors: equal lengths pair up,
    a vector of one element is stretched, anything else cannot be broadcast. *)
Definition broadcast2 {A B C} (f : A → B → C) (l : list A) (k : list B)
    : outcome (list C) :=
  if decide (length l = length k) then Returns (zip_with f l k)
  else match l, k with
       | [a], _ => Returns (f a <$> k)
       | _, [b] => Returns ((λ a, f a b) <$> l)
       | _, _ => Raises ValueError
       end.

(** ** Scalars *)

Class Arith (F : Type) : Type := {
  of_int : Z → F;            (* an int operand converted to the array's dtype *)
  tenth : F;                 (* the literal 0.1 *)
  fadd : F → F → F;
  fsub : F → F → F;
  fmul : F → F → F;
  fdiv : F → F → F;
  fopp : F → F;
  fsqrt : F → F;             (* np.sqrt *)
  fltb : F → F → bool;       (* <  *)
  fleb : F → F → bool;       (* <= *)
  feqb : F → F → bool;       (* == *)
  to_int : F → outcome Z     (* int(x) *)
}.

Class Trig (F : Type) : Type := {
  fpi : F;                   (* scipy.constants.pi *)
  fsin : F → F;
  fcos : F → F
}.

Declare Scope arith_scope.
Delimit Scope arith_scope with ar.
Infix "+" := fadd : arith_scope.
Infix "-" := fsub : arith_scope.
Infix "*" := fmul : arith_scope.
Infix "/" := fdiv : arith_scope.
Notation "- x" := (fopp x) : arith_scope.
Infix "<?" := fltb : arith_scope.
Infix "<=?" := fleb : arith_scope.
Infix "=?" := feqb : arith_scope.

(** *** binary64 *)

Module Float64.
Import PrimFloat FloatOps SpecFloat.

(** int -> float64, rounding to nearest even. *)
Definition float_of_int (z : Z) : float :=
  SF2Prim (binary_normalize prec emax z 0 false).

(** [int(x)]: truncation toward zero; NaN and the infinities raise. *)
Definition int_of_float (x : float) : outcome Z :=
  match Prim2SF x with
  | S754_nan => Raises ValueError
  | S754_infinity _ => Raises OverflowError
  | S754_zero _ => Returns 0
  | S754_finite s m e =>
      let a := if 0 <=? e then Z.pos m * 2 ^ e else Z.pos m / 2 ^ (- e) in
      Returns (if s then - a else a)
  end.

#[global] Instance arith : Arith float := {|
  of_int := float_of_int;
  tenth := 0x1.999999999999ap-4%float;
  fadd := PrimFloat.add;
  fsub := PrimFloat.sub;
  fmul := PrimFloat.mul;
  fdiv := PrimFloat.div;
  fopp := PrimFloat.opp;
  fsqrt := PrimFloat.sqrt;
  fltb := PrimFloat.ltb;
  fleb := PrimFloat.leb;
  feqb := PrimFloat.eqb;
  to_int := int_of_float
|}.
End Float64.

(** *** Real numbers *)

(** Exact arithmetic has no NaN and no infinity: the root of a negative
    number and the quotient by zero are plain reals there (0, by the
    conventions of the library), where binary64 yields NaN or an infinity.
    What is proved over [R] below takes roots of sums of squares only. *)
Module Real.
#[global] Instance Rlt_decision (x y : R) : Decision (x < y)%R := Rlt_dec x y.
#[global] Instance Rle_decision (x y : R) : Decision (x <= y)%R := Rle_dec x y.
#[global] Instance Req_decision : EqDecision R := Req_dec_T.

(** Truncation toward zero. *)
Definition trunc (x : R) : Z :=
  if decide (0 <= x)%R then Int_part x else - Int_part (- x).

#[global] Instance arith : Arith R := {|
  of_int := IZR;
  tenth := (1 / 10)%R;
  fadd := Rplus;
  fsub := Rminus;
  fmul := Rmult;
  fdiv := Rdiv;
  fopp := Ropp;
  fsqrt := R_sqrt.sqrt;
  fltb := λ x y, bool_decide (x < y)%R;
  fleb := λ x y, bool_decide (x <= y)%R;
  feqb := λ x y, bool_decide (x = y);
  to_int := λ x, Returns (trunc x)
|}.

#[global] Instance trig : Trig R := {|
  fpi := PI;
  fsin := sin;
  fcos := cos
|}.
End Real.

(** ** Arrays *)

(** A column of a 3xN array. *)
Record vec3 (F : Type) : Type := Vec3 { vx : F; vy : F; vz : F }.
Arguments Vec3 {F} vx vy vz.
Arguments vx {F} v.
Arguments vy {F} v.
Arguments vz {F} v.

Section Arrays.
Context {F : Type} `{!Arith F}.
Local Open Scope arith_scope.

(** [x ** 2]: numpy squares by one multiplication. *)
Definition sq (x : F) : F := x * x.

(** [np.sum(v ** 2)] down a column of three. *)
Definition sumsq3 (v : vec3 F) : F := sq (vx v) + sq (vy v) + sq (vz v).

(** [np.linalg.norm] of a column. *)
Definition norm3 (v : vec3 F) : F := fsqrt (sumsq3 v).

(** [np.dot] of two vectors of three. *)
Definition dot3 (u v : vec3 F) : F := vx u * vx v + vy u * vy v + vz u * vz v.

Definition scale3 (c : F) (v : vec3 F) : vec3 F :=
  Vec3 (c * vx v) (c * vy v) (c * vz v).

(** [np.sum] of a vector, left to right from its first element (the order
    numpy or BLAS really takes is immaterial in exact arithmetic). *)
Definition np_sum (l : list F) : F :=
  match l with
  | [] => of_int 0
  | x :: l' => foldl fadd x l'
  end.

(** [np.linalg.norm] of a vector. *)
Definition norm_list (l : list F) : F := fsqrt (np_sum (sq <$> l)).

(** Assigning an array of shape [(m,)] to a row of [n] slots: numpy
    broadcasts a single element, and refuses any other length but [n]. *)
Definition assign_row (n : nat) (src : list F) : outcome (list F) :=
  if decide (length src = n) then Returns src
  else match src with
       | [x] => Returns (replicate n x)
       | _ => Raises ValueError
       end.

(** The columns of the array whose three rows are given. *)
Fixpoint columns (r0 r1 r2 : list F) : list (vec3 F) :=
  match r0, r1, r2 with
  | x :: r0', y :: r1', z :: r2' => Vec3 x y z :: columns r0' r1' r2'
  | _, _, _ => []
  end.
End Arrays.

(** ** Geometry ([functions.py], lines 20-71) *)

Section Geometry.
Context {F : Type} `{!Arith F}.
Local Open Scope arith_scope.

(** [R_cal]: the 3 x sensor_groups array of phase centres.  [np.zeros]
    refuses a negative dimension; each of the three row assignments takes
    the slice [xycoords[:sensor_groups, c]]. *)
Definition R_cal (sensor_groups : Z) (xycoords : list (F * F))
    : outcome (list (vec3 F)) :=
  if (sensor_groups <? 0)%Z then Raises ValueError
  else
    let n := Z.to_nat sensor_groups in
    let head := take n xycoords in
    r0 ← assign_row n (head.*1);
    r1 ← assign_row n (head.*2);
    r2 ← assign_row n (fmul (of_int 0) <$> head.*1);
    Returns (columns r0 r1 r2).

(** [linCoeff_cal]: [np.sum(R ** 2, axis=0) / np.linalg.norm(R, axis=0)],
    column by column.  A division of arrays raises nothing. *)
Definition linCoeff_cal (R : list (vec3 F)) : list F :=
  (λ v, sumsq3 v / norm3 v) <$> R.

(** [p0_jk]: the displacement point of plane [k] of baseline [j]. *)
Definition p0_jk (j : nat) (k : Z) (R : list (vec3 F)) (n0 K : list F)
    : outcome (vec3 F) :=
  n0j ← getitem n0 j;
  Kj ← getitem K j;
  Rj ← getitem R j;
  Returns (scale3 ((n0j + of_int 1 - of_int k) / Kj / norm3 Rj) Rj).

(** [nvec_j]: the unit normal of plane [j]. *)
Definition nvec_j (j : nat) (R : list (vec3 F)) : outcome (vec3 F) :=
  Rj ← getitem R j;
  let n := norm3 Rj in
  Returns (Vec3 (vx Rj / n) (vy Rj / n) (vz Rj / n)).

(** The Geometry Builder: [R_cal], then [linCoeff_cal] on its result, as
    the driving script chains them. *)
Definition geometry_builder (sensor_groups : Z) (xycoords : list (F * F))
    : outcome (list (vec3 F) * list F) :=
  R ← R_cal sensor_groups xycoords;
  Returns (R, linCoeff_cal R).
End Geometry.

(** ** The linear system solver ([functions.py], lines 74-159) *)

(** The two result buffers of a stage, one slot per Candidate. *)
Record buffers (F : Type) : Type := Buffers {
  intersection_line_set : list (vec3 F);   (* 3 x niter, by columns *)
  pinv_norm_set : list F
}.
Arguments Buffers {F} _ _.
Arguments intersection_line_set {F} _.
Arguments pinv_norm_set {F} _.

Section Solver.
Context {F : Type} `{!Arith F}.
Local Open Scope arith_scope.

(** [np.dot(W, x)] for the n x 3 array [W] of rows and a vector of three. *)
Definition mat_vec3 (W : list (vec3 F)) (x : vec3 F) : list F :=
  (λ w, dot3 w x) <$> W.

(** [np.dot(Wpinv, b)] for the 3 x n array [Wpinv] of columns and a vector
    of [n]: the shapes have to agree. *)
Definition pinv_dot (Wpinv : list (vec3 F)) (b : list F) : outcome (vec3 F) :=
  if decide (length Wpinv = length b) then
    Returns (Vec3 (np_sum (zip_with (λ p bj, vx p * bj) Wpinv b))
                  (np_sum (zip_with (λ p bj, vy p * bj) Wpinv b))
                  (np_sum (zip_with (λ p bj, vz p * bj) Wpinv b)))
  else Raises ValueError.

(** [np.dot(W, Wpinv)]: n x n', by rows. *)
Definition mat_mat (W Wpinv : list (vec3 F)) : list (list F) :=
  (λ w, dot3 w <$> Wpinv) <$> W.

(** [np.dot(M, b)] for an array [M] of rows with [cols] columns. *)
Definition mat_vec (cols : nat) (M : list (list F)) (b : list F)
    : outcome (list F) :=
  if decide (cols = length b) then
    Returns ((λ row, np_sum (zip_with fmul row b)) <$> M)
  else Raises ValueError.

(** [np.linalg.multi_dot([W, Wpinv, b])]: of the two ways to bracket three
    factors numpy takes the cheaper, judged by the shapes of the first and
    the last (shapes [(a0, 3)] and [(b1c0, 1)]). *)
Definition multi_dot (W Wpinv : list (vec3 F)) (b : list F) : outcome (list F) :=
  let a0 := length W in
  let b1c0 := length b in
  let cost1 := (a0 * b1c0 * (3 + 1))%nat in
  let cost2 := (3 * 1 * (a0 + b1c0))%nat in
  if decide (cost1 < cost2)%nat then mat_vec (length Wpinv) (mat_mat W Wpinv) b
  else x ← pinv_dot Wpinv b; Returns (mat_vec3 W x).

(** [np.linalg.multi_dot([W, Wpinv, b]) - b]. *)
Definition solution_check (W Wpinv : list (vec3 F)) (b : list F)
    : outcome (list F) :=
  m ← multi_dot W Wpinv b; broadcast2 fsub m b.

(** One round of the loop of [mooore_penrose_solution_ptr]. *)
Definition ptr_body (W Wpinv : list (vec3 F)) (b_set : list (list F))
    (ind : Z) (s : buffers F) : outcome (buffers F) :=
  b ← getitemZ b_set ind;
  check ← solution_check W Wpinv b;
  norms ← setitemZ (pinv_norm_set s) ind (norm_list check);
  x ← pinv_dot Wpinv b;
  lines ← setitemZ (intersection_line_set s) ind x;
  Returns (Buffers lines norms).

(** [mooore_penrose_solution_ptr]: the rounds in the order of [ind_range];
    the first exception ends the call. *)
Fixpoint mooore_penrose_solution_ptr (W Wpinv : list (vec3 F))
    (b_set : list (list F)) (s : buffers F) (ind_range : list Z)
    : outcome (buffers F) :=
  match ind_range with
  | [] => Returns s
  | ind :: rest =>
      s' ← ptr_body W Wpinv b_set ind s;
      mooore_penrose_solution_ptr W Wpinv b_set s' rest
  end.

Section WithPinv.
(** [np.linalg.pinv], numpy's routine (it raises [LinAlgError] when its
    decomposition does not converge). *)
Variable pinv : list (vec3 F) → outcome (list (vec3 F)).

(** [mooore_penrose_solution]: the Solution and the residual. *)
Definition mooore_penrose_solution (W : list (vec3 F)) (b : list F)
    : outcome (vec3 F * F) :=
  Wpinv ← pinv W;
  check ← solution_check W Wpinv b;
  Wpinv' ← pinv W;
  intersection_line ← pinv_dot Wpinv' b;
  Returns (intersection_line, norm_list check).
End WithPinv.
End Solver.

(** ** Parallel evaluation ([mooore_penrose_solution_par], lines 96-141) *)

(** The binary64 nearest to a natural number [q] (ties to even): what
    [float(q)] holds when it is finite. *)
Definition round53 (q : Z) : Z :=
  let d := Z.log2 q - 52 in
  if d <=? 0 then q
  else
    let m := q / 2 ^ d in
    let r := q mod 2 ^ d in
    let h := 2 ^ (d - 1) in
    (if (h <? r) || ((r =? h) && Z.odd m) then m + 1 else m) * 2 ^ d.

(** [int(niter / pnum)] where [pnum] divides [niter]: Python's true division
    of ints is correctly rounded, so it yields the binary64 nearest to the
    quotient, and [OverflowError] beyond the largest one. *)
Definition int_true_div (niter pnum : Z) : outcome Z :=
  let q := niter / pnum in
  let f := round53 (Z.abs q) in
  if 2 ^ 1024 <=? f then Raises OverflowError else Returns (Z.sgn q * f).

(** The chunk length [subset]. *)
Definition par_subset (niter pnum : Z) : outcome Z :=
  if pnum =? 0 then Raises ZeroDivisionError
  else if niter mod pnum =? 0 then int_true_div niter pnum
  else Returns (niter / pnum + 1).

(** The index range handed to the thread of job [job_id]. *)
Definition job_range (subset niter job_id : Z) : list Z :=
  if niter <? (job_id + 1) * subset then py_range (job_id * subset) niter
  else py_range (job_id * subset) ((job_id + 1) * subset).

(** [for i in range(pnum)]: the ranges of [n] consecutive jobs. *)
Fixpoint spawn_for (n : nat) (subset niter job_id : Z) : list (list Z) :=
  match n with
  | O => []
  | S n' => job_range subset niter job_id :: spawn_for n' subset niter (job_id + 1)
  end.

(** [while job_id*subset < niter]: the ranges of all threads, in the order
    they are started; [None] when [fuel] rounds of the loop do not end it. *)
Fixpoint spawn_while (fuel : nat) (pnum subset niter job_id : Z)
    : option (list (list Z)) :=
  if job_id * subset <? niter then
    match fuel with
    | O => None
    | S fuel' =>
        let n := Z.to_nat pnum in
        rest ← spawn_while fuel' pnum subset niter (job_id + Z.of_nat n);
        Some (spawn_for n subset niter job_id ++ rest)
    end
  else Some [].

(** The job ranges [mooore_penrose_solution_par] starts threads on. *)
Definition par_jobs (fuel : nat) (pnum niter : Z) : option (outcome (list (list Z))) :=
  match par_subset niter pnum with
  | Raises e => Some (Raises e)
  | Returns subset => Returns <$> spawn_while fuel pnum subset niter 0
  end.

Section Threads.
Context {F : Type} `{!Arith F}.
Variables W Wpinv : list (vec3 F).
Variable b_set : list (list F).

(** The two stores of a round of [mooore_penrose_solution_ptr], each with
    the computation that feeds it. *)
Inductive store : Type :=
  | StoreNorm (ind : Z)      (* pinv_norm_set[ind] = ... *)
  | StoreLine (ind : Z).     (* intersection_line_set[:, ind] = ... *)

Definition exec_store (o : store) (s : buffers F) : outcome (buffers F) :=
  match o with
  | StoreNorm ind =>
      b ← getitemZ b_set ind;
      check ← solution_check W Wpinv b;
      norms ← setitemZ (pinv_norm_set s) ind (norm_list check);
      Returns (Buffers (intersection_line_set s) norms)
  | StoreLine ind =>
      b ← getitemZ b_set ind;
      x ← pinv_dot Wpinv b;
      lines ← setitemZ (intersection_line_set s) ind x;
      Returns (Buffers lines (pinv_norm_set s))
  end.

(** What a thread started on [ind_range] still has to do. *)
Definition thread_of (ind_range : list Z) : list store :=
  ind ← ind_range; [StoreNorm ind; StoreLine ind].

(** One step of the pool: some thread performs its next store on the
    shared buffers; a thread whose store raises ends there, and nobody
    sees its exception. *)
Inductive pool_step : list (list store) * buffers F →
                      list (list store) * buffers F → Prop :=
  | pool_store pre o rest post s s' :
      exec_store o s = Returns s' →
      pool_step (pre ++ (o :: rest) :: post, s) (pre ++ rest :: post, s')
  | pool_raise pre o rest post s e :
      exec_store o s = Raises e →
      pool_step (pre ++ (o :: rest) :: post, s) (pre ++ [] :: post, s).

(** All threads joined. *)
Definition joined (threads : list (list store)) : Prop :=
  Forall (λ t, t = []) threads.

(** [mooore_penrose_solution_par] as a relation between the buffers before
    the call and after it: any interleaving of the threads' stores. *)
Definition par_run (jobs : list (list Z)) (s s' : buffers F) : Prop :=
  ∃ threads, rtc pool_step (thread_of <$> jobs, s) (threads, s') ∧ joined threads.
End Threads.

Section Par.
Context {F : Type} `{!Arith F}.
Variable pinv : list (vec3 F) → outcome (list (vec3 F)).

(** [mooore_penrose_solution_par W b_set pnum niter ...] ends in [res]:
    with the buffers a run of the pool leaves, or with the exception
    raised before any thread was started. *)
Definition mooore_penrose_solution_par (W : list (vec3 F)) (b_set : list (list F))
    (pnum niter : Z) (s : buffers F) (res : outcome (buffers F)) : Prop :=
  match pinv W with
  | Raises e => res = Raises e
  | Returns Wpinv =>
      ∃ fuel r, par_jobs fuel pnum niter = Some r ∧
        match r with
        | Raises e => res = Raises e
        | Returns jobs => ∃ s', res = Returns s' ∧ par_run W Wpinv b_set jobs s s'
        end
  end.
End Par.

(** ** Pruning and enumeration ([functions.py], lines 162-213) *)

(** The dictionary [intersections_cal] returns. *)
Record intersections (F : Type) : Type := Intersections {
  indexes : list nat;               (* np.where(...)[0] *)
  number : nat;
  permutations : list (list Z);
  integers : list (list F)          (* one row per baseline *)
}.
Arguments Intersections {F} _ _ _ _.
Arguments indexes {F} _.
Arguments number {F} _.
Arguments permutations {F} _.
Arguments integers {F} _.

Section Pruning.
Context {F : Type} `{!Arith F}.
Local Open Scope arith_scope.

(** The residual tolerance, [mp_tol = 0.1] in [intersections_cal] and
    [mp_tol = 1e-1] in the script. *)
Definition mp_tol : F := tenth.

(** [(pinv_norm < mp_tol) & (norm <= 2) & (norm != 0)], as a mask. *)
Definition seed_mask (pinv_norm norm : list F) : outcome (list bool) :=
  m ← broadcast2 andb ((λ r, r <? mp_tol) <$> pinv_norm)
                      ((λ n, n <=? of_int 2) <$> norm);
  broadcast2 andb m ((λ n, negb (n =? of_int 0)) <$> norm).

(** [pinv_norm < mp_tol], as a mask. *)
Definition residual_mask (pinv_norm : list F) : list bool :=
  (λ r, r <? mp_tol) <$> pinv_norm.

(** The projections of the selected Solution points on every baseline. *)
Definition projections (R sel : list (vec3 F)) : list (list F) :=
  (λ Rj, dot3 Rj <$> sel) <$> R.

(** [intersections_cal].  The keyword arguments are a dictionary from
    names to arrays; only the key ['norm'] is ever looked up. *)
Definition intersections_cal (pinv_norm : list F) (PERMS_J : list (list Z))
    (intersection_line R : list (vec3 F)) (kwargs : gmap string (list F))
    : outcome (intersections F) :=
  idx ← match kwargs !! "norm" with
        | Some norm => np_where <$> seed_mask pinv_norm norm
        | None => Returns (np_where (residual_mask pinv_norm))
        end;
  perms ← take_indices PERMS_J idx;
  sel ← take_indices intersection_line idx;
  Returns (Intersections idx (length idx) perms (projections R sel)).

(** [np.array(base)[ind, :]]: an empty [base] makes a one-dimensional
    array, which two indices do not fit. *)
Definition take_rows (base : list (list Z)) (ind : list nat)
    : outcome (list (list Z)) :=
  match base with
  | [] => Raises IndexError
  | _ => take_indices base ind
  end.

(** [range(1, int(k_length[i]) + 1)]. *)
Definition offsets (k_length : list F) (i : nat) : outcome (list Z) :=
  k ← getitem k_length i;
  n ← to_int k;
  Returns (py_range 1 (n + 1)).

(** [permutations_create]: every selected row of [permutations_base]
    paired with every offset, rows outermost. *)
Definition permutations_create (permutations_base : list (list Z))
    (intersections_ind : list nat) (k_length : list F)
    (permutation_index : nat) : outcome (list (list Z * Z)) :=
  rows ← take_rows permutations_base intersections_ind;
  ks ← offsets k_length permutation_index;
  Returns (cprod rows ks).
End Pruning.

(** ** The script's stages ([radarconf.py], lines 72-120 and 138-190) *)

Section Stages.
Context {F : Type} `{!Arith F}.
Local Open Scope arith_scope.

(** [PERMS_J] of the first three baselines (lines 74-75). *)
Definition PERMS_J3 (k_length : list F) : outcome (list (list Z)) :=
  k0 ← offsets k_length 0;
  k1 ← offsets k_length 1;
  k2 ← offsets k_length 2;
  Returns (a ← k0; b ← k1; c ← k2; [[a; b; c]]).

(** [intersection_line_norm] (line 116). *)
Definition intersection_line_norm (intersection_line : list (vec3 F)) : list F :=
  norm3 <$> intersection_line.

(** [intersections3_ind[0]] (line 118). *)
Definition intersections3_ind (pinv_norm : list F)
    (intersection_line : list (vec3 F)) : outcome (list nat) :=
  np_where <$> seed_mask pinv_norm (intersection_line_norm intersection_line).

(** [intersections_ind[0]] of a later stage (line 181). *)
Definition intersections_ind (pinv_norm : list F) : list nat :=
  np_where (residual_mask pinv_norm).

(** [PERMS_J_prime] (lines 163-179): each pair [j] of line 152 flattened by
    [np.hstack((j[0], j[1]))]. *)
Definition PERMS_J_prime (PERMS_J : list (list Z * Z)) : list (list Z) :=
  (λ j, j.1 ++ [j.2]) <$> PERMS_J.

(** [PERMS_J] of stage [ii] (lines 151-152), as the stage leaves it
    (line 179). *)
Definition PERMS_J_stage (PERMS_J_base : list (list Z))
    (intersections_ind : list nat) (k_length : list F) (ii : nat)
    : outcome (list (list Z)) :=
  rows ← take_rows PERMS_J_base intersections_ind;
  ks ← offsets k_length ii;
  Returns (PERMS_J_prime (cprod rows ks)).

(** [W_matrix] of the first [m] baselines (lines 85 and 158). *)
Definition W_matrix (R : list (vec3 F)) (m : nat) : list (vec3 F) :=
  (λ v, let n := norm3 v in Vec3 (vx v / n) (vy v / n) (vz v / n)) <$> take m R.

(** [b_vector] of Candidate [j] over the baselines [I] (lines 100-103 and
    169-173).  [I] is [0, 1, 2] and then [range(0, ii+1)], so that the
    entries [b_vector[i]], for [i] in [I], are stored in order. *)
Definition b_vector (I : list nat) (j : list Z) (R : list (vec3 F))
    (n0 K : list F) : outcome (list F) :=
  mapM (λ i, Ii ← getitem I i;
             n ← nvec_j Ii R;
             k ← getitem j i;
             p ← p0_jk Ii k R n0 K;
             Returns (- dot3 n p)) I.
End Stages.

Section Evaluate.
Context {F : Type} `{!Arith F}.
Variable pinv : list (vec3 F) → outcome (list (vec3 F)).
Variables (R : list (vec3 F)) (n0 K : list F).

(** The loop over [enumerate(PERMS_J)] (lines 98-108 and 165-177), from
    position [aux] on: the Candidate's [b_vector], the solve (the three
    statements of [mooore_penrose_solution], inlined there), and the two
    stores into [intersection_line] and [pinv_norm]. *)
Fixpoint evaluate (W : list (vec3 F)) (I : list nat) (aux : nat)
    (PERMS_J : list (list Z)) (s : buffers F) : outcome (buffers F) :=
  match PERMS_J with
  | [] => Returns s
  | j :: rest =>
      b ← b_vector I j R n0 K;
      sol ← mooore_penrose_solution pinv W b;
      lines ← setitemZ (intersection_line_set s) (Z.of_nat aux) sol.1;
      norms ← setitemZ (pinv_norm_set s) (Z.of_nat aux) sol.2;
      evaluate W I (S aux) rest (Buffers lines norms)
  end.
End Evaluate.

(** ** Field of view and ambiguity distances ([functions.py], lines 216-285) *)

Record complex (F : Type) : Type := Complex { re : F; im : F }.
Arguments Complex {F} re im.
Arguments re {F} c.
Arguments im {F} c.

Section Cap.
Context {F : Type} `{!Arith F} `{!Trig F}.
Local Open Scope arith_scope.

(** [np.radians]. *)
Definition radians (deg : F) : F := deg * (fpi / of_int 180).

(** [k0_cal]: the wave vector of elevation [el0] and azimuth [az0]. *)
Definition k0_cal (el0 az0 : F) : vec3 F :=
  Vec3 (fsin (radians az0) * fcos (radians el0))
       (fcos (radians az0) * fcos (radians el0))
       (fsin (radians el0)).

(** The planar distance of the cap test: [np.sqrt(np.sum(cap ** 2, axis=0))]
    of the column [k0[0:2] - s[0:2]]. *)
Definition planar_distance (k0 s : vec3 F) : F :=
  fsqrt (sq (vx k0 - vx s) + sq (vy k0 - vy s)).

(** [slines_intersections]: [intersections_ind] is the index array
    [intersections_ind[0]] the script passes; the result is [cap[0]]. *)
Definition slines_intersections (k0 : vec3 F) (intersections_ind : list nat)
    (intersection_line : list (vec3 F)) (cutoff_ph_ang : F)
    : outcome (list nat) :=
  sel ← take_indices intersection_line intersections_ind;
  Returns (np_where ((λ s, planar_distance k0 s <=? fsin cutoff_ph_ang) <$> sel)).
End Cap.

Section Explicit.
Context {F : Type} `{!Arith F}.
Local Open Scope arith_scope.

(** [s_sel] (line 265). *)
Definition s_sel (intersection_line : list (vec3 F))
    (intersections_ind cap_intersections_of_slines : list nat)
    : outcome (list (vec3 F)) :=
  ind ← take_indices intersections_ind cap_intersections_of_slines;
  take_indices intersection_line ind.

(** One column of [k_finds] (lines 267-270): [aux1], and [aux2] under it. *)
Definition k_find (k0 s : vec3 F) : vec3 F :=
  let aux1_0 := vx k0 - vx s in
  let aux1_1 := vy k0 - vy s in
  Vec3 aux1_0 aux1_1 (fsqrt (of_int 1 - sq aux1_0 - sq aux1_1)).

(** [k_finds] (lines 265-270). *)
Definition k_finds (intersection_line : list (vec3 F))
    (intersections_ind cap_intersections_of_slines : list nat) (k0 : vec3 F)
    : outcome (list (vec3 F)) :=
  fmap (M:=list) (k_find k0)
    <$> s_sel intersection_line intersections_ind cap_intersections_of_slines.

Definition csub (a b : complex F) : complex F :=
  Complex (re a - re b) (im a - im b).

(** [(z.conj() * z).real]. *)
Definition cabs2 (z : complex F) : F := sq (re z) + sq (im z).

(** Division of a complex number by a real one. *)
Definition cdiv (z : complex F) (d : F) : complex F :=
  Complex (re z / d) (im z / d).

Context `{!Trig F}.

(** [np.exp(-1j * 2 * pi * t)]: the exponent is purely imaginary. *)
Definition cexp_phase (t : F) : complex F :=
  let theta := of_int (-2) * fpi * t in
  Complex (fcos theta) (fsin theta).

(** The steering response of the sub-groups [xy] in the direction whose
    first two cosines are [dx] and [dy] (lines 272 and 273-276). *)
Definition response (xy : list (F * F)) (dx dy : F) : list (complex F) :=
  (λ p, cexp_phase (p.1 * dx + p.2 * dy)) <$> xy.

(** [subgroup_signal_k0] (line 272). *)
Definition subgroup_signal_k0 (xy : list (F * F)) (k0 : vec3 F)
    : list (complex F) :=
  response xy (vx k0) (vy k0).

(** [subgroup_signal] (lines 273-276): one response per column of
    [k_finds]. *)
Definition subgroup_signal (xy : list (F * F)) (ks : list (vec3 F))
    : list (list (complex F)) :=
  (λ k, response xy (vx k) (vy k)) <$> ks.

(** [subgroup_signal_k0], repeated, minus [subgroup_signal]. *)
Definition signal_difference (xy : list (F * F)) (k0 : vec3 F)
    (ks : list (vec3 F)) : list (list (complex F)) :=
  zip_with csub (subgroup_signal_k0 xy k0) <$> subgroup_signal xy ks.

(** [np.linalg.norm] of a complex vector. *)
Definition cnorm (d : list (complex F)) : F := fsqrt (np_sum (cabs2 <$> d)).

(** [ambiguity_distances_explicit] (lines 278-279). *)
Definition ambiguity_distances_explicit (xy : list (F * F)) (k0 : vec3 F)
    (ks : list (vec3 F)) : list F :=
  cnorm <$> signal_difference xy k0 ks.

(** [ambiguity_normal_explicit] (lines 281-283). *)
Definition ambiguity_normal_explicit (xy : list (F * F)) (k0 : vec3 F)
    (ks : list (vec3 F)) : list (list (complex F)) :=
  zip_with (λ (d : list (complex F)) dist, (λ z, cdiv z dist) <$> d)
           (signal_difference xy k0 ks)
           (ambiguity_distances_explicit xy k0 ks).

(** [explicit]: the distances, the normalised differences (one list per
    ambiguity, over the sub-groups) and [k_finds]. *)
Definition explicit (intersection_line : list (vec3 F))
    (intersections_ind cap_intersections_of_slines : list nat)
    (xy : list (F * F)) (k0 : vec3 F)
    : outcome (list F * list (list (complex F)) * list (vec3 F)) :=
  ks ← k_finds intersection_line intersections_ind cap_intersections_of_slines k0;
  Returns (ambiguity_distances_explicit xy k0 ks,
           ambiguity_normal_explicit xy k0 ks, ks).
End Explicit.

(** ** A pseudo-inverse to run examples with *)

Section PinvPlanar.
Context {F : Type} `{!Arith F}.
Local Open Scope arith_scope.

(** The Moore-Penrose inverse, in closed form, of a matrix whose rows lie in
    the plane z = 0 and span it (the matrices [W_matrix] builds, the
    baselines having no third component): [(W^T W)^-1 W^T] on the first two
    coordinates, by columns. *)
Definition pinv_planar (W : list (vec3 F)) : outcome (list (vec3 F)) :=
  let sxx := np_sum ((λ w, vx w * vx w) <$> W) in
  let sxy := np_sum ((λ w, vx w * vy w) <$> W) in
  let syy := np_sum ((λ w, vy w * vy w) <$> W) in
  let det := sxx * syy - sxy * sxy in
  Returns ((λ w, Vec3 ((syy * vx w - sxy * vy w) / det)
                      ((sxx * vy w - sxy * vx w) / det)
                      (of_int 0)) <$> W).
End PinvPlanar.

(** ** Stores, resolved *)

(** A store of a thread with its index resolved against the buffers and its
    value computed: what the store does once it is known to go through. *)
Inductive write (F : Type) : Type :=
  | WriteNorm (n : nat) (r : F)
  | WriteLine (n : nat) (x : vec3 F).
Arguments WriteNorm {F} n r.
Arguments WriteLine {F} n x.

(** The slot a write goes to: the buffer ([true] for [pinv_norm_set]) and
    the position in it. *)
Definition slot {F} (w : write F) : bool * nat :=
  match w with
  | WriteNorm n _ => (true, n)
  | WriteLine n _ => (false, n)
  end.

Definition apply_write {F} (s : buffers F) (w : write F) : buffers F :=
  match w with
  | WriteNorm n r => Buffers (intersection_line_set s) (<[n:=r]> (pinv_norm_set s))
  | WriteLine n x => Buffers (<[n:=x]> (intersection_line_set s)) (pinv_norm_set s)
  end.

Section Resolve.
Context {F : Type} `{!Arith F}.
Variables W Wpinv : list (vec3 F).
Variable b_set : list (list F).

(** The write a store amounts to on buffers of [len_lines] and [len_norms]
    slots. *)
Definition resolve (len_lines len_norms : nat) (o : store) : outcome (write F) :=
  match o with
  | StoreNorm ind =>
      b ← getitemZ b_set ind;
      check ← solution_check W Wpinv b;
      n ← norm_index len_norms ind;
      Returns (WriteNorm n (norm_list check))
  | StoreLine ind =>
      b ← getitemZ b_set ind;
      x ← pinv_dot Wpinv b;
      n ← norm_index len_lines ind;
      Returns (WriteLine n x)
  end.

(** The stores that go through on buffers of a given shape, with the writes
    they amount to. *)
Definition resolves (len_lines len_norms : nat) : store → write F → Prop :=
  λ o w, resolve len_lines len_norms o = Returns w.
End Resolve.

Section PoolInvariant.
Context {F : Type} `{!Arith F}.
Variables W Wpinv : list (vec3 F).
Variable b_set : list (list F).

(** What holds of the pool all along, on buffers of [len_lines] and
    [len_norms] slots bound to end as [final]: every store still to come
    goes through, no two of them to one slot, and all of them applied to the
    buffers as they now are give [final]. *)
Definition pool_invariant (len_lines len_norms : nat) (final : buffers F)
    (c : list (list store) * buffers F) : Prop :=
  length (intersection_line_set c.2) = len_lines ∧
  length (pinv_norm_set c.2) = len_norms ∧
  ∃ ws, Forall2 (resolves W Wpinv b_set len_lines len_norms) (concat c.1) ws ∧
        NoDup (slot <$> ws) ∧
        foldl apply_write c.2 ws = final.
End PoolInvariant.

(** ** Lattice bounds ([radarconf.py], lines 65-68) *)

(** [np.floor]. *)
Class Floor (F : Type) : Type := ffloor : F → F.

Section Floor64.
Import PrimFloat FloatOps SpecFloat.

(** [np.floor] on binary64: NaN, the infinities, the zeros and the values
    without a fractional part are returned as they are. *)
Definition floor64 (x : float) : float :=
  match Prim2SF x with
  | S754_finite s m e =>
      if 0 <=? e then x
      else
        let q := Z.pos m / 2 ^ (- e) in
        let whole := Z.pos m mod 2 ^ (- e) =? 0 in
        if s then PrimFloat.opp (Float64.float_of_int (if whole then q else q + 1))
        else Float64.float_of_int q
  | _ => x
  end.
End Floor64.

#[global] Instance floor_float : Floor PrimFloat.float := floor64.
#[global] Instance floor_R : Floor R := λ x, IZR (Int_part x).

Section Lattice.
Context {F : Type} `{!Arith F} `{!Floor F}.
Local Open Scope arith_scope.

(** [n0 = np.floor(2 * K)] (line 65). *)
Definition n0_cal (K : list F) : list F := (λ k, ffloor (of_int 2 * k)) <$> K.

(** [k_length = 2 * n0 + 1] (line 68). *)
Definition k_length_cal (n0 : list F) : list F :=
  (λ n, of_int 2 * n + of_int 1) <$> n0.
End Lattice.

(** ** The search of the script ([radarconf.py], lines 72-190) *)

(** What a stage leaves behind for the next one and for the report; the
    fields are the script's variables of the same names. *)
Record stage (F : Type) : Type := Stage {
  stage_PERMS_J : list (list Z);
  stage_intersection_line : list (vec3 F);
  stage_pinv_norm : list F;
  stage_intersections_ind : list nat;            (* intersections_ind[0] *)
  stage_intersections : list (list Z);
  stage_intersections_integers : list (list F)
}.
Arguments Stage {F} _ _ _ _ _ _.
Arguments stage_PERMS_J {F} _.
Arguments stage_intersection_line {F} _.
Arguments stage_pinv_norm {F} _.
Arguments stage_intersections_ind {F} _.
Arguments stage_intersections {F} _.
Arguments stage_intersections_integers {F} _.

Section SearchLoop.
Context {F : Type} `{!Arith F}.
Variable pinv : list (vec3 F) → outcome (list (vec3 F)).
Variables (R : list (vec3 F)) (n0 K k_length : list F).
Local Open Scope arith_scope.

(** [np.prod] of a vector (line 72), left to right. *)
Definition np_prod (l : list F) : F :=
  match l with
  | [] => of_int 1
  | x :: l' => foldl fmul x l'
  end.

(** [pinv_norm = np.zeros((n, 1))] and [intersection_line = np.zeros((3, n))]
    (lines 87-88 and 160-161): numpy refuses a negative dimension. *)
Definition zero_buffers (n : Z) : outcome (buffers F) :=
  if (n <? 0)%Z then Raises ValueError
  else Returns (Buffers (replicate (Z.to_nat n) (Vec3 (of_int 0) (of_int 0) (of_int 0)))
                        (replicate (Z.to_nat n) (of_int 0))).

(** The stage of the first three baselines (lines 72-120, and the
    projections of lines 129-132, which raise nothing: their indices come
    from the buffers they are taken from).  [PERMS_number] is converted to
    an integer where it is first printed (line 77) and again for the
    buffers (lines 87-88). *)
Definition stage3 : outcome (stage F) :=
  PERMS_J ← PERMS_J3 k_length;
  PERMS_number ← to_int (np_prod (take 3 k_length));
  bufs ← zero_buffers PERMS_number;
  s ← evaluate pinv R n0 K (W_matrix R 3) [0; 1; 2]%nat 0 PERMS_J bufs;
  ind ← intersections3_ind (pinv_norm_set s) (intersection_line_set s);
  sel ← take_indices PERMS_J ind;
  pts ← take_indices (intersection_line_set s) ind;
  Returns (Stage PERMS_J (intersection_line_set s) (pinv_norm_set s) ind sel
             (projections R pts)).

(** The body of the loop over the further baselines (lines 140-188), for
    baseline [ii], after the stage [prev]. *)
Definition stage_next (ii : nat) (prev : stage F) : outcome (stage F) :=
  k ← getitem k_length ii;
  PERMS_number ← to_int (of_int (Z.of_nat (length (stage_intersections_ind prev))) * k);
  PERMS_J ← PERMS_J_stage (stage_PERMS_J prev) (stage_intersections_ind prev)
              k_length ii;
  bufs ← zero_buffers PERMS_number;
  s ← evaluate pinv R n0 K (W_matrix R (S ii)) (seq 0 (S ii)) 0 PERMS_J bufs;
  sel ← take_indices PERMS_J (intersections_ind (pinv_norm_set s));
  pts ← take_indices (intersection_line_set s) (intersections_ind (pinv_norm_set s));
  Returns (Stage PERMS_J (intersection_line_set s) (pinv_norm_set s)
             (intersections_ind (pinv_norm_set s)) sel (projections R pts)).

(** [SURVIVORS = np.zeros((Sn - 2, 1))] and [SURVIVORS[0] = intersections3_n]
    (lines 122-123). *)
Definition SURVIVORS_init (Sn : Z) (intersections3_n : nat) : outcome (list F) :=
  if (Sn - 2 <? 0)%Z then Raises ValueError
  else setitemZ (replicate (Z.to_nat (Sn - 2)) (of_int 0)) 0
         (of_int (Z.of_nat intersections3_n)).

(** [for ii in range(3, Sn)] (lines 138-190): the stages in turn, each
    followed by [SURVIVORS[ii-2] = intersections_n]. *)
Fixpoint stage_loop (iis : list nat) (st : stage F) (SURVIVORS : list F)
    : outcome (stage F * list F) :=
  match iis with
  | [] => Returns (st, SURVIVORS)
  | ii :: rest =>
      st' ← stage_next ii st;
      SURVIVORS' ← setitemZ SURVIVORS (Z.of_nat ii - 2)
                     (of_int (Z.of_nat (length (stage_intersections_ind st'))));
      stage_loop rest st' SURVIVORS'
  end.

(** The search, from the first Candidates to the survivors of the last
    baseline, for [Sn] baselines. *)
Definition search (Sn : Z) : outcome (stage F * list F) :=
  st ← stage3;
  SURVIVORS ← SURVIVORS_init Sn (length (stage_intersections_ind st));
  stage_loop (seq 3 (Z.to_nat (Sn - 3))) st SURVIVORS.

(** The stages the search goes through: [stage_of m st] when [st] is the
    stage the script has reached once the first [m] baselines are covered,
    the first by [stage3], every further one by the body of the loop, run
    for baseline [ii] on the stage of the [ii] baselines before it. *)
Inductive stage_of : nat → stage F → Prop :=
  | stage_of_first (st : stage F) :
      stage3 = Returns st → stage_of 3 st
  | stage_of_next (ii : nat) (prev st : stage F) :
      stage_of ii prev → stage_next ii prev = Returns st → stage_of (S ii) st.
End SearchLoop.

(** A Candidate that gives every baseline it covers a plane index within
    the lattice bounds, [1 <= j_i <= int(k_length[i])]. *)
Definition within_bounds {F : Type} `{!Arith F} (k_length : list F)
    (c : list Z) : Prop :=
  ∀ i o, c !! i = Some o →
         ∃ k n, k_length !! i = Some k ∧ to_int k = Returns n ∧ 1 ≤ o ≤ n.

(** What the stages keep true of their Candidates: each covers [m]
    baselines within the lattice bounds, and the survivors are the
    Candidates at the surviving indices. *)
Definition stage_invariant {F : Type} `{!Arith F} (k_length : list F)
    (m : nat) (st : stage F) : Prop :=
  Forall (λ c, length c = m ∧ within_bounds k_length c) (stage_PERMS_J st) ∧
  take_indices (stage_PERMS_J st) (stage_intersections_ind st)
  = Returns (stage_intersections st) ∧
  length (stage_intersection_line st) = length (stage_pinv_norm st) ∧
  Forall (λ i, (i < length (stage_pinv_norm st))%nat) (stage_intersections_ind st).

(** ** The shape of [b] ([mooore_penrose_solution], lines 155-156) *)

(** The array [b] as the solver can be handed it: the column of shape
    [(n, 1)] that the stages build ([np.zeros((len(I), 1))], lines 100 and
    169 of the script), or a one-dimensional array of [n] entries. *)
Inductive b_array (F : Type) : Type :=
  | b_column (b : list F)
  | b_flat (b : list F).
Arguments b_column {F} b.
Arguments b_flat {F} b.

Definition b_entries {F : Type} (b : b_array F) : list F :=
  match b with
  | b_column l => l
  | b_flat l => l
  end.

Section SolverShapes.
Context {F : Type} `{!Arith F}.
Variable pinv : list (vec3 F) → outcome (list (vec3 F)).

(** [mooore_penrose_solution] on either shape.  [multi_dot] takes a
    one-dimensional last factor for a column and flattens its result, so
    that line 155 does on it what it does on the column; [np.dot(., b)] is
    then one-dimensional, and [[:, 0]] (line 156) raises [IndexError]. *)
Definition mooore_penrose_solution_nd (W : list (vec3 F)) (b : b_array F)
    : outcome (vec3 F * F) :=
  match b with
  | b_column b => mooore_penrose_solution pinv W b
  | b_flat b =>
      Wpinv ← pinv W;
      check ← solution_check W Wpinv b;
      Wpinv' ← pinv W;
      x ← pinv_dot Wpinv' b;
      Raises IndexError
  end.
End SolverShapes.

(** * Verification *)

(** ** Outcomes and arrays *)

Lemma bind_Returns {A B} (m : outcome A) (k : A → outcome B) (b : B) :
  m ≫= k = Returns b ↔ ∃ a, m = Returns a ∧ k a = Returns b.
Proof.
  destruct m as [a|e]; simpl.
  - split; [eauto|]. by intros (a' & [= <-] & ?).
  - split; [done|]. by intros (a' & ? & ?).
Qed.

Lemma fmap_Returns {A B} (g : A → B) (m : outcome A) (b : B) :
  g <$> m = Returns b ↔ ∃ a, m = Returns a ∧ b = g a.
Proof.
  destruct m as [a|e]; simpl.
  - split; [intros [= <-]; eauto|]. by intros (a' & [= <-] & ->).
  - split; [done|]. by intros (a' & ? & ?).
Qed.

Lemma getitem_Returns {A} (l : list A) (i : nat) (a : A) :
  getitem l i = Returns a ↔ l !! i = Some a.
Proof. unfold getitem. destruct (l !! i); naive_solver. Qed.

Lemma take_indices_Returns {A} (l : list A) (idx : list nat) (sel : list A) :
  take_indices l idx = Returns sel ↔ Forall2 (λ i a, l !! i = Some a) idx sel.
Proof.
  unfold take_indices. revert sel.
  induction idx as [|i idx IH]; intros sel; simpl.
  - split; [intros [= <-]; constructor|]. intros HF. by inversion HF.
  - rewrite bind_Returns. split.
    + intros (a & Ha & Hrest). apply bind_Returns in Hrest as (k & Hk & [= <-]).
      constructor; [by apply getitem_Returns|by apply IH].
    + intros HF. inversion HF as [|? a ? k Ha Hk]; subst.
      exists a. split; [by apply getitem_Returns|].
      apply bind_Returns. exists k. split; [by apply IH|done].
Qed.

Lemma take_indices_lookup {A} (l : list A) (idx : list nat) (sel : list A) p a :
  take_indices l idx = Returns sel →
  sel !! p = Some a ↔ ∃ i, idx !! p = Some i ∧ l !! i = Some a.
Proof.
  rewrite take_indices_Returns. intros HF. split.
  - intros Hp. destruct (Forall2_lookup_r _ _ _ _ _ HF Hp) as (i & ? & ?). eauto.
  - intros (i & Hi & Ha).
    destruct (Forall2_lookup_l _ _ _ _ _ HF Hi) as (a' & ? & ?). congruence.
Qed.

Lemma take_indices_length {A} (l : list A) (idx : list nat) (sel : list A) :
  take_indices l idx = Returns sel → length sel = length idx.
Proof. rewrite take_indices_Returns. intros HF. by rewrite (Forall2_length _ _ _ HF). Qed.

Lemma elem_of_np_where_from (n : nat) (m : list bool) (i : nat) :
  i ∈ np_where_from n m ↔ ∃ k, i = (n + k)%nat ∧ m !! k = Some true.
Proof.
  revert n. induction m as [|b m IH]; intros n; simpl.
  - rewrite elem_of_nil. split; [done|]. by intros (k & _ & ?).
  - assert (i ∈ np_where_from (S n) m ↔
            ∃ k, i = (n + S k)%nat ∧ m !! k = Some true) as IH'.
    { rewrite IH. split; intros (k & -> & ?); exists k; split; auto; lia. }
    destruct b.
    + rewrite elem_of_cons, IH'. split.
      * intros [->|(k & -> & ?)]; [exists 0%nat|exists (S k)]; split; auto; lia.
      * intros ([|k] & -> & Hk); [left; lia|right; eauto].
    + rewrite IH'. split.
      * intros (k & -> & ?). exists (S k). eauto.
      * intros ([|k] & -> & Hk); [done|eauto].
Qed.

Lemma elem_of_np_where (m : list bool) (i : nat) :
  i ∈ np_where m ↔ m !! i = Some true.
Proof.
  unfold np_where. rewrite elem_of_np_where_from. split.
  - by intros (k & -> & ?).
  - eauto.
Qed.

Lemma np_where_from_lt (n : nat) (m : list bool) :
  Forall (λ i, (n ≤ i)%nat) (np_where_from n m) ∧
  StronglySorted lt (np_where_from n m).
Proof.
  revert n. induction m as [|b m IH]; intros n; simpl.
  - split; constructor.
  - destruct (IH (S n)) as [Hge Hs].
    assert (Forall (λ i, (n ≤ i)%nat) (np_where_from (S n) m)) as Hge'.
    { eapply Forall_impl; [exact Hge|]. intros i Hi. simpl in *. lia. }
    destruct b; [|done]. split.
    + by constructor.
    + constructor; [done|].
      eapply Forall_impl; [exact Hge|]. intros i Hi. simpl in *. lia.
Qed.

(** [np.where] lists each qualifying position once, in increasing order. *)
Lemma np_where_sorted (m : list bool) : StronglySorted lt (np_where m).
Proof. apply np_where_from_lt. Qed.

Lemma np_where_NoDup (m : list bool) : NoDup (np_where m).
Proof.
  generalize (np_where_sorted m). generalize (np_where m).
  induction 1 as [|i l Hs IH Hall]; constructor; auto.
  intros Hin. rewrite Forall_forall in Hall. specialize (Hall _ Hin). lia.
Qed.

(** ** Exact arithmetic *)

Section RealFacts.
Import Real.
Local Open Scope R_scope.

Lemma fltb_R (x y : R) : fltb x y = true ↔ x < y.
Proof. apply bool_decide_eq_true. Qed.

Lemma fleb_R (x y : R) : fleb x y = true ↔ x <= y.
Proof. apply bool_decide_eq_true. Qed.

Lemma feqb_R (x y : R) : feqb x y = true ↔ x = y.
Proof. apply bool_decide_eq_true. Qed.

Lemma sumsq3_R (v : vec3 R) : sumsq3 v = (vx v)² + (vy v)² + (vz v)².
Proof. reflexivity. Qed.

Lemma sumsq3_nonneg (v : vec3 R) : 0 <= sumsq3 v.
Proof.
  rewrite sumsq3_R.
  pose proof (Rle_0_sqr (vx v)). pose proof (Rle_0_sqr (vy v)).
  pose proof (Rle_0_sqr (vz v)). lra.
Qed.

Lemma norm3_nonneg (v : vec3 R) : 0 <= norm3 v.
Proof. apply sqrt_pos. Qed.

Lemma planar_distance_R (k0 s : vec3 R) :
  planar_distance k0 s = sqrt ((vx k0 - vx s)² + (vy k0 - vy s)²).
Proof. reflexivity. Qed.

Lemma planar_distance_zero (k0 s : vec3 R) :
  planar_distance k0 s <= 0 ↔ vx s = vx k0 ∧ vy s = vy k0.
Proof.
  rewrite planar_distance_R.
  pose proof (Rle_0_sqr (vx k0 - vx s)) as Hx.
  pose proof (Rle_0_sqr (vy k0 - vy s)) as Hy.
  split.
  - intros Hle.
    assert (sqrt ((vx k0 - vx s)² + (vy k0 - vy s)²) = 0) as H0.
    { apply Rle_antisym; [done|apply sqrt_pos]. }
    apply sqrt_eq_0 in H0; [|lra].
    assert ((vx k0 - vx s)² = 0) as H1 by lra.
    assert ((vy k0 - vy s)² = 0) as H2 by lra.
    apply Rsqr_0_uniq in H1, H2. lra.
  - intros [-> ->]. unfold Rminus. rewrite !Rplus_opp_r, Rsqr_0, Rplus_0_r, sqrt_0. lra.
Qed.
End RealFacts.

(** ** The wave vector and the cap filter *)

Section CapFilter.
Import Real.
Local Open Scope R_scope.

(** C10: in exact arithmetic the wave vector [k0_cal] returns has unit
    length for every elevation and azimuth: the squares of its three
    components add up to 1. *)
Theorem k0_cal_unit (el0 az0 : R) :
  (vx (k0_cal el0 az0))² + (vy (k0_cal el0 az0))² + (vz (k0_cal el0 az0))² = 1.
Proof.
  unfold k0_cal. generalize (radians az0) (radians el0). intros a e. cbn.
  pose proof (sin2_cos2 a) as Ha. pose proof (sin2_cos2 e) as He.
  unfold Rsqr in *.
  transitivity ((sin a * sin a + cos a * cos a) * (cos e * cos e) + sin e * sin e);
    [ring|].
  rewrite Ha. lra.
Qed.

(** The positions [slines_intersections] keeps, for any cutoff. *)
Lemma slines_intersections_elem (k0 : vec3 R) (ind : list nat)
    (line : list (vec3 R)) (theta : R) (cap : list nat) :
  slines_intersections k0 ind line theta = Returns cap →
  NoDup cap ∧
  ∀ p, p ∈ cap ↔
       ∃ i s, ind !! p = Some i ∧ line !! i = Some s ∧
              sqrt ((vx k0 - vx s)² + (vy k0 - vy s)²) <= sin theta.
Proof.
  unfold slines_intersections. rewrite bind_Returns.
  intros (sel & Hsel & [= <-]). split; [apply np_where_NoDup|].
  intros p. rewrite elem_of_np_where, list_lookup_fmap.
  split.
  - destruct (sel !! p) as [s|] eqn:Hp; [|done]. simpl. intros [= Hle].
    apply fleb_R in Hle.
    apply (take_indices_lookup _ _ _ _ _ Hsel) in Hp as (i & ? & ?).
    exists i, s. split_and!; [done|done|exact Hle].
  - intros (i & s & Hi & Hs & Hle).
    assert (sel !! p = Some s) as ->
      by (apply (take_indices_lookup _ _ _ _ _ Hsel); eauto).
    simpl. f_equal. apply fleb_R. exact Hle.
Qed.

Lemma take_indices_total {A} (l : list A) (idx : list nat) :
  Forall (λ i, (i < length l)%nat) idx → ∃ sel, take_indices l idx = Returns sel.
Proof.
  induction 1 as [|i idx Hi _ [sel Hsel]].
  - by exists [].
  - destruct (lookup_lt_is_Some_2 l i Hi) as [a Ha].
    exists (a :: sel). apply take_indices_Returns. constructor; [done|].
    by apply take_indices_Returns.
Qed.

(** C9: on survivor indices that address [intersection_line],
    [slines_intersections] returns, without repeats, exactly the positions
    of the Solution points whose planar distance from [k0] is at most
    [sin theta]; with cutoff [PI/2] those at distance at most 1, and with
    cutoff 0 only the points whose first two components equal those of
    [k0]. *)
Theorem slines_intersections_spec (k0 : vec3 R) (ind : list nat)
    (line : list (vec3 R))
    (Hind : Forall (λ i, (i < length line)%nat) ind) :
  (∀ theta, ∃ cap,
     slines_intersections k0 ind line theta = Returns cap ∧ NoDup cap ∧
     ∀ p, p ∈ cap ↔
          ∃ i s, ind !! p = Some i ∧ line !! i = Some s ∧
                 sqrt ((vx k0 - vx s)² + (vy k0 - vy s)²) <= sin theta) ∧
  (∃ cap,
     slines_intersections k0 ind line (PI / 2) = Returns cap ∧
     ∀ p, p ∈ cap ↔
          ∃ i s, ind !! p = Some i ∧ line !! i = Some s ∧
                 sqrt ((vx k0 - vx s)² + (vy k0 - vy s)²) <= 1) ∧
  (∃ cap,
     slines_intersections k0 ind line 0 = Returns cap ∧
     ∀ p, p ∈ cap ↔
          ∃ i s, ind !! p = Some i ∧ line !! i = Some s ∧
                 vx s = vx k0 ∧ vy s = vy k0).
Proof.
  assert (∀ theta, ∃ cap, slines_intersections k0 ind line theta = Returns cap)
    as Htotal.
  { intros theta. destruct (take_indices_total line ind Hind) as [sel Hsel].
    unfold slines_intersections. rewrite Hsel. simpl. eauto. }
  split; [|split].
  - intros theta. destruct (Htotal theta) as [cap Hcap].
    exists cap. split; [done|]. by apply slines_intersections_elem.
  - destruct (Htotal (PI / 2)) as [cap Hcap]. exists cap. split; [done|].
    intros p. destruct (slines_intersections_elem _ _ _ _ _ Hcap) as [_ ->].
    by rewrite sin_PI2.
  - destruct (Htotal 0) as [cap Hcap]. exists cap. split; [done|].
    intros p. destruct (slines_intersections_elem _ _ _ _ _ Hcap) as [_ ->].
    rewrite sin_0.
    split; intros (i & s & Hi & Hs & H); exists i, s; split_and!; auto.
    + by apply (planar_distance_zero k0 s).
    + by apply (planar_distance_zero k0 s).
    + by apply (planar_distance_zero k0 s).
Qed.

Lemma slines_intersections_spec_witness :
  (∀ theta, ∃ cap,
     slines_intersections (Vec3 0 1 0) [1; 0]%nat [Vec3 0 1 0; Vec3 3 5 0] theta
       = Returns cap ∧ NoDup cap ∧
     ∀ p, p ∈ cap ↔
          ∃ i s, [1; 0]%nat !! p = Some i ∧
                 [Vec3 0 1 0; Vec3 3 5 0] !! i = Some s ∧
                 sqrt ((0 - vx s)² + (1 - vy s)²) <= sin theta) ∧
  (∃ cap,
     slines_intersections (Vec3 0 1 0) [1; 0]%nat [Vec3 0 1 0; Vec3 3 5 0] (PI / 2)
       = Returns cap ∧
     ∀ p, p ∈ cap ↔
          ∃ i s, [1; 0]%nat !! p = Some i ∧
                 [Vec3 0 1 0; Vec3 3 5 0] !! i = Some s ∧
                 sqrt ((0 - vx s)² + (1 - vy s)²) <= 1) ∧
  (∃ cap,
     slines_intersections (Vec3 0 1 0) [1; 0]%nat [Vec3 0 1 0; Vec3 3 5 0] 0
       = Returns cap ∧
     ∀ p, p ∈ cap ↔
          ∃ i s, [1; 0]%nat !! p = Some i ∧
                 [Vec3 0 1 0; Vec3 3 5 0] !! i = Some s ∧
                 vx s = 0 ∧ vy s = 1).
Proof.
  apply (slines_intersections_spec (Vec3 0 1 0) [1; 0]%nat
           [Vec3 0 1 0; Vec3 3 5 0]).
  repeat constructor.
Defined.
End CapFilter.

(** ** The ambiguity distance evaluator *)

Section ExplicitFacts.
Context {F : Type} `{!Arith F}.
Local Open Scope arith_scope.

Lemma getitem_Raises {A} (l : list A) (i : nat) (e : exn) :
  getitem l i = Raises e → e = IndexError.
Proof. unfold getitem. destruct (l !! i); [done|]. by intros [= <-]. Qed.

Lemma take_indices_Raises {A} (l : list A) (idx : list nat) (e : exn) :
  take_indices l idx = Raises e → e = IndexError.
Proof.
  unfold take_indices. induction idx as [|i idx IH]; simpl; [done|].
  destruct (getitem l i) as [a|e'] eqn:Hg; simpl.
  - destruct (mapM (getitem l) idx) as [k|e'']; simpl; [done|].
    intros [= <-]. by apply IH.
  - intros [= <-]. by apply getitem_Raises in Hg.
Qed.

Lemma s_sel_Returns (line : list (vec3 F)) (ind cap : list nat) sel :
  s_sel line ind cap = Returns sel →
  length sel = length cap ∧
  ∀ p c, cap !! p = Some c →
         ∃ i s, ind !! c = Some i ∧ line !! i = Some s ∧ sel !! p = Some s.
Proof.
  unfold s_sel. rewrite bind_Returns. intros (js & His & Hsel). split.
  - rewrite (take_indices_length _ _ _ Hsel). by apply take_indices_length in His.
  - intros p c Hc. apply take_indices_Returns in His, Hsel.
    destruct (Forall2_lookup_l _ _ _ _ _ His Hc) as (i & Hi & ?).
    destruct (Forall2_lookup_l _ _ _ _ _ Hsel Hi) as (s & ? & ?). eauto.
Qed.

Lemma s_sel_Raises (line : list (vec3 F)) (ind cap : list nat) e :
  s_sel line ind cap = Raises e → e = IndexError.
Proof.
  unfold s_sel. destruct (take_indices ind cap) as [js|e'] eqn:His; simpl.
  - apply take_indices_Raises.
  - intros [= <-]. by apply take_indices_Raises in His.
Qed.

Lemma k_finds_Returns (line : list (vec3 F)) (ind cap : list nat) k0 ks :
  k_finds line ind cap k0 = Returns ks ↔
  ∃ sel, s_sel line ind cap = Returns sel ∧ ks = k_find k0 <$> sel.
Proof. unfold k_finds. apply fmap_Returns. Qed.

Lemma length_signal_difference (xy : list (F * F)) `{!Trig F} k0 ks :
  length (signal_difference xy k0 ks) = length ks.
Proof. unfold signal_difference, subgroup_signal. by rewrite !length_fmap. Qed.
End ExplicitFacts.

Section ExplicitClaims.
Context {F : Type} `{!Arith F} `{!Trig F}.
Local Open Scope arith_scope.

(** C1, as the code has it: for the cap-surviving Solution point [s] at each
    position of [cap], [explicit] forms the ambiguous direction from the
    differences [k0 - s] of the first two components, with third cosine
    [sqrt(1 - (k0_x - s_x)^2 - (k0_y - s_y)^2)], and its distance is the norm
    of the difference between the steering response at [k0] and the steering
    response [exp(-i*2*pi*(x*dir_x + y*dir_y))] at that direction. *)
Theorem explicit_directions (line : list (vec3 F)) (ind cap : list nat)
    (xy : list (F * F)) (k0 : vec3 F) dist normal ks :
  explicit line ind cap xy k0 = Returns (dist, normal, ks) →
  ∀ p c, cap !! p = Some c →
    ∃ i s, ind !! c = Some i ∧ line !! i = Some s ∧
      let dir := Vec3 (vx k0 - vx s) (vy k0 - vy s)
                      (fsqrt (of_int 1 - sq (vx k0 - vx s) - sq (vy k0 - vy s))) in
      let response_at (dx dy : F) :=
        (λ g : F * F,
           let theta := of_int (-2) * fpi * (g.1 * dx + g.2 * dy) in
           Complex (fcos theta) (fsin theta)) <$> xy in
      ks !! p = Some dir ∧
      dist !! p = Some (cnorm (zip_with csub (response_at (vx k0) (vy k0))
                                             (response_at (vx dir) (vy dir)))).
Proof.
  unfold explicit. rewrite bind_Returns.
  intros (ks' & Hks & [= <- <- <-]) p c Hc.
  apply k_finds_Returns in Hks as (sel & Hsel & ->).
  destruct (s_sel_Returns _ _ _ _ Hsel) as [_ Hlook].
  destruct (Hlook p c Hc) as (i & s & Hi & Hs & Hp).
  exists i, s. split_and!; [done|done|..]; cbv zeta.
  - by rewrite list_lookup_fmap, Hp.
  - unfold ambiguity_distances_explicit, signal_difference, subgroup_signal.
    by rewrite !list_lookup_fmap, Hp.
Qed.

(** [explicit] can raise an [IndexError] and nothing else; what it returns
    has one entry per position of [cap] in each of its three components,
    the third row of [k_finds] being [np.sqrt]'s value on every
    reconstruction argument. *)
Lemma explicit_entries (line : list (vec3 F)) (ind cap : list nat)
    (xy : list (F * F)) (k0 : vec3 F) :
  match explicit line ind cap xy k0 with
  | Raises e => e = IndexError
  | Returns (dist, normal, ks) =>
      k_finds line ind cap k0 = Returns ks ∧
      length dist = length cap ∧ length normal = length cap ∧
      length ks = length cap ∧
      ∀ p k, ks !! p = Some k →
             vz k = fsqrt (of_int 1 - sq (vx k) - sq (vy k))
  end.
Proof.
  unfold explicit, k_finds.
  destruct (s_sel line ind cap) as [sel|e] eqn:Hsel; simpl.
  - destruct (s_sel_Returns _ _ _ _ Hsel) as [Hlen _].
    unfold ambiguity_normal_explicit, ambiguity_distances_explicit.
    rewrite length_zip_with, !length_fmap, length_signal_difference, !length_fmap.
    split_and!; [done|done|lia|done|].
    intros p k. rewrite list_lookup_fmap.
    destruct (sel !! p); simpl; [|done]. by intros [= <-].
  - by apply s_sel_Raises in Hsel.
Qed.
End ExplicitClaims.

Section ExplicitExamples.
Import Real.
Local Open Scope R_scope.

Lemma explicit_directions_witness :
  ∃ dist normal ks,
    explicit [Vec3 0 (6 / 10) 0] [0%nat] [0%nat] [(1, 0)] (Vec3 0 1 0)
      = Returns (dist, normal, ks) ∧
    ks !! 0%nat
      = Some (Vec3 (0 - 0) (1 - 6 / 10)
                   (sqrt (1 - (0 - 0) * (0 - 0) - (1 - 6 / 10) * (1 - 6 / 10)))).
Proof.
  eexists _, _, _. split; [reflexivity|].
  destruct (explicit_directions [Vec3 0 (6 / 10) 0] [0%nat] [0%nat] [(1, 0)]
              (Vec3 0 1 0) _ _ _ eq_refl 0%nat 0%nat eq_refl)
    as (i & s & Hi & Hs & Hk & _).
  injection Hi as <-. injection Hs as <-. exact Hk.
Defined.

(** C1 as stated fails: for the Solution point [s = (0, 0.6, 0)] and
    [k0 = (0, 1, 0)] the direction [explicit] evaluates is
    [(0, 0.4, sqrt(1 - 0.16))], not [(0, 0.6, sqrt(1 - 0.36))]. *)
Lemma explicit_direction_not_from_s :
  ∃ dist normal k,
    explicit [Vec3 0 (6 / 10) 0] [0%nat] [0%nat] [(1, 0)] (Vec3 0 1 0)
      = Returns (dist, normal, [k]) ∧
    k = Vec3 (0 - 0) (1 - 6 / 10)
             (sqrt (1 - (0 - 0) * (0 - 0) - (1 - 6 / 10) * (1 - 6 / 10))) ∧
    k ≠ Vec3 0 (6 / 10) (sqrt (1 - 0 * 0 - 6 / 10 * (6 / 10))).
Proof.
  eexists _, _, _. split; [reflexivity|]. split; [reflexivity|].
  intros [= _ Hy _]. lra.
Qed.
End ExplicitExamples.

Section Binary64.
Import PrimFloat FloatOps SpecFloat FloatAxioms.
Local Open Scope float_scope.

(** [np.sqrt] of a negative binary64 is NaN. *)
Lemma sqrt_negative_nan (x : float) : (x <? 0) = true → sqrt x = nan.
Proof.
  intros Hlt. rewrite <- (SF2Prim_Prim2SF (sqrt x)), sqrt_spec.
  rewrite ltb_spec in Hlt. unfold SF64sqrt.
  destruct (Prim2SF x) as [[]| [] | |[] m e]; try done.
Qed.

(** In binary64, a column of [k_finds] whose reconstruction argument is
    negative has NaN for third component. *)
Lemma k_finds_nan (line : list (vec3 float)) (ind cap : list nat)
    (k0 : vec3 float) (ks : list (vec3 float)) :
  k_finds line ind cap k0 = Returns ks →
  ∀ p k, ks !! p = Some k →
         (1 - vx k * vx k - vy k * vy k <? 0) = true → vz k = nan.
Proof.
  rewrite k_finds_Returns. intros (sel & _ & ->) p k.
  rewrite list_lookup_fmap. destruct (sel !! p) as [s|]; simpl; [|done].
  intros [= <-]. simpl. apply sqrt_negative_nan.
Qed.
End Binary64.

Section OutOfDomain.
Import PrimFloat.

(** C7, as the code has it: [explicit] raises no [DomainError] (an
    [IndexError] is all it can raise) and excludes no ambiguity: what it
    returns has one entry per position of [cap] in each of its three
    components, the third row of [k_finds] being [np.sqrt]'s value on every
    reconstruction argument, in domain or not; in binary64 that value is NaN
    whenever the argument is negative. *)
Theorem explicit_raises_no_domain_error :
  (∀ (F : Type) (A : Arith F) (T : Trig F) (line : list (vec3 F))
     (ind cap : list nat) (xy : list (F * F)) (k0 : vec3 F),
     match explicit line ind cap xy k0 with
     | Raises e => e = IndexError
     | Returns (dist, normal, ks) =>
         k_finds line ind cap k0 = Returns ks ∧
         length dist = length cap ∧ length normal = length cap ∧
         length ks = length cap ∧
         ∀ p k, ks !! p = Some k →
                vz k = fsqrt (of_int 1 - sq (vx k) - sq (vy k))%ar
     end) ∧
  (∀ (line : list (vec3 float)) (ind cap : list nat)
     (k0 : vec3 float) (ks : list (vec3 float)),
     k_finds line ind cap k0 = Returns ks →
     ∀ p k, ks !! p = Some k →
            (1 - vx k * vx k - vy k * vy k <? 0)%float = true →
            vz k = nan).
Proof.
  split.
  - intros F A T. apply explicit_entries.
  - apply k_finds_nan.
Qed.

Lemma explicit_raises_no_domain_error_witness :
  k_finds [Vec3 2 0 0]%float [0%nat] [0%nat] (Vec3 0 1 0)%float
    = Returns [Vec3 (-2) 1 nan]%float ∧
  vz (Vec3 (-2) 1 nan)%float = nan.
Proof.
  split; [reflexivity|].
  apply (proj2 explicit_raises_no_domain_error
           [Vec3 2 0 0]%float [0%nat] [0%nat] (Vec3 0 1 0)%float
           [Vec3 (-2) 1 nan]%float eq_refl 0%nat _ eq_refl).
  reflexivity.
Defined.

(** C7 as stated fails.  The cap-surviving Solution point [s = (0, 1.2, 0)],
    for [k0 = (0, 1, 0)], has [s_x^2 + s_y^2 > 1], and [explicit] returns an
    entry for it.  And where the argument the code takes the root of is
    negative ([s = (2, 0, 0)]: 1 - 4 - 1), binary64 evaluation puts NaN in
    the returned [k_finds]. *)
Lemma explicit_keeps_out_of_domain :
  (0 * 0 + 12 / 10 * (12 / 10) > 1)%R ∧
  (∃ cap dist normal k,
     slines_intersections (F:=R) (Vec3 0 1 0)%R [0%nat] [Vec3 0 (12 / 10) 0]%R (PI / 2)%R
       = Returns cap ∧
     explicit (F:=R) [Vec3 0 (12 / 10) 0]%R [0%nat] cap [(1, 0)]%R (Vec3 0 1 0)%R
       = Returns ([dist], [normal], [k])) ∧
  k_finds [Vec3 2 0 0]%float [0%nat] [0%nat] (Vec3 0 1 0)%float
    = Returns [Vec3 (-2) 1 nan]%float.
Proof.
  split; [lra|]. split; [|reflexivity].
  exists [0%nat]. eexists _, _, _. split; [|reflexivity].
  assert (fleb (planar_distance (Vec3 0 1 0) (Vec3 0 (12 / 10) 0))%R
               (fsin (PI / 2)%R) = true) as Hle.
  { apply fleb_R. simpl. rewrite sin_PI2.
    apply Rle_trans with (R_sqrt.sqrt 1); [|rewrite sqrt_1; lra].
    apply sqrt_le_1_alt. unfold sq. simpl. lra. }
  change (Returns (np_where
            [fleb (planar_distance (Vec3 0 1 0) (Vec3 0 (12 / 10) 0))%R
                  (fsin (PI / 2)%R)]) = Returns [0%nat]).
  by rewrite Hle.
Qed.
End OutOfDomain.

(** ** The geometry builder *)

Section GeometryFacts.
Context {F : Type} `{!Arith F}.
Local Open Scope arith_scope.

Lemma columns_fmap {A} (f g h : A → F) (l : list A) :
  columns (f <$> l) (g <$> l) (h <$> l) = (λ a, Vec3 (f a) (g a) (h a)) <$> l.
Proof.
  induction l as [|a l IH]; [done|].
  rewrite !fmap_cons. cbn [columns]. by rewrite IH.
Qed.

Lemma assign_row_Raises (n : nat) (src : list F) (e : exn) :
  assign_row n src = Raises e → e = ValueError.
Proof.
  unfold assign_row. destruct (decide _); [done|].
  destruct src as [|x [|y src]]; try done; by intros [= <-].
Qed.

Lemma assign_row_same (src : list F) (n : nat) :
  length src = n → assign_row n src = Returns src.
Proof. intros Hn. unfold assign_row. by rewrite decide_True. Qed.

(** The only exception [R_cal] raises is numpy's [ValueError]. *)
Lemma R_cal_Raises (sensor_groups : Z) (xycoords : list (F * F)) (e : exn) :
  R_cal sensor_groups xycoords = Raises e → e = ValueError.
Proof.
  unfold R_cal. destruct (sensor_groups <? 0)%Z; [by intros [= <-]|].
  set (n := Z.to_nat sensor_groups). set (h := take n xycoords).
  destruct (assign_row n (h.*1)) as [r0|e0] eqn:H0; simpl;
    [|intros [= <-]; by apply assign_row_Raises in H0].
  destruct (assign_row n (h.*2)) as [r1|e1] eqn:H1; simpl;
    [|intros [= <-]; by apply assign_row_Raises in H1].
  destruct (assign_row n (fmul (of_int 0) <$> h.*1)) as [r2|e2] eqn:H2; simpl;
    [done|intros [= <-]; by apply assign_row_Raises in H2].
Qed.

(** On at least [sensor_groups] rows of coordinates [R_cal] returns, column
    [j] being row [j] with a third component [0 * x]. *)
Lemma R_cal_Returns (sensor_groups : Z) (xycoords : list (F * F)) :
  (0 ≤ sensor_groups ≤ Z.of_nat (length xycoords))%Z →
  R_cal sensor_groups xycoords
  = Returns ((λ p, Vec3 p.1 p.2 (of_int 0 * p.1))
               <$> take (Z.to_nat sensor_groups) xycoords).
Proof.
  intros Hsg. unfold R_cal.
  destruct (Z.ltb_spec sensor_groups 0); [lia|].
  set (n := Z.to_nat sensor_groups). set (h := take n xycoords).
  assert (length h = n) as Hh by (unfold h; rewrite length_take; lia).
  rewrite !assign_row_same by (by rewrite ?length_fmap).
  simpl. f_equal. rewrite <- list_fmap_compose. apply (columns_fmap fst snd).
Qed.
End GeometryFacts.

Section GeometryClaims.
Context {F : Type} `{!Arith F}.
Local Open Scope arith_scope.

(** C2, as the code has it: building the baseline geometry raises no
    [InvalidGeometryError] (a [ValueError] on a shape mismatch is all it can
    raise).  For any count [0 <= sensor_groups] of at most the rows supplied,
    fewer than 3 included, it returns the baselines [(x, y, 0*x)] and their
    coefficients, each the plain quotient [sum(R_j^2) / norm(R_j)], also
    where that norm is zero. *)
Theorem geometry_builder_raises_no_geometry_error
    (sensor_groups : Z) (xycoords : list (F * F)) :
  (∀ e, geometry_builder sensor_groups xycoords = Raises e → e = ValueError) ∧
  ((0 ≤ sensor_groups ≤ Z.of_nat (length xycoords))%Z →
   ∃ R K,
     geometry_builder sensor_groups xycoords = Returns (R, K) ∧
     length R = Z.to_nat sensor_groups ∧ length K = Z.to_nat sensor_groups ∧
     ∀ (j : nat) x y,
       (Z.of_nat j < sensor_groups)%Z → xycoords !! j = Some (x, y) →
       R !! j = Some (Vec3 x y (of_int 0 * x)) ∧
       K !! j = Some ((x * x + y * y + of_int 0 * x * (of_int 0 * x))
                      / fsqrt (x * x + y * y + of_int 0 * x * (of_int 0 * x)))).
Proof.
  unfold geometry_builder. split.
  - intros e. destruct (R_cal sensor_groups xycoords) as [R|e'] eqn:HR; simpl;
      [done|]. intros [= <-]. by apply R_cal_Raises in HR.
  - intros Hsg. rewrite (R_cal_Returns _ _ Hsg). simpl.
    eexists _, _. split; [done|]. unfold linCoeff_cal.
    rewrite !length_fmap, length_take. split_and!; [lia|lia|].
    intros j x y Hj Hxy. rewrite !list_lookup_fmap.
    rewrite lookup_take_lt by lia. by rewrite Hxy.
Qed.
End GeometryClaims.

Section GeometryExamples.
Import PrimFloat.

Lemma geometry_builder_raises_no_geometry_error_witness :
  (0 ≤ 2 ≤ Z.of_nat (length [(3, 4); (0, 1); (0, 0)]%float))%Z ∧
  ∃ R K,
    geometry_builder 2 [(3, 4); (0, 1); (0, 0)]%float = Returns (R, K) ∧
    R !! 0%nat = Some (Vec3 3 4 (0 * 3))%float ∧
    K !! 0%nat = Some ((3 * 3 + 4 * 4 + 0 * 3 * (0 * 3))
                       / sqrt (3 * 3 + 4 * 4 + 0 * 3 * (0 * 3)))%float.
Proof.
  split; [simpl; lia|].
  destruct (proj2 (geometry_builder_raises_no_geometry_error
                     2 [(3, 4); (0, 1); (0, 0)]%float))
    as (R & K & HRK & _ & _ & Hj); [simpl; lia|].
  exists R, K. split; [done|].
  apply (Hj 0%nat 3%float 4%float); [lia|reflexivity].
Defined.

(** C2 as stated fails, in binary64 as the code computes.  With two
    baselines (the last row is the reference sub-group) the geometry is built
    and returned; and with a baseline of zero length among three, the
    division [0/0] goes through and leaves NaN for its coefficient. *)
Lemma geometry_builder_accepts_degenerate :
  geometry_builder 2 [(3, 4); (0, 1); (0, 0)]%float
    = Returns ([Vec3 3 4 0; Vec3 0 1 0], [5; 1])%float ∧
  geometry_builder 3 [(3, 4); (0, 0); (0, 1); (0, 0)]%float
    = Returns ([Vec3 3 4 0; Vec3 0 0 0; Vec3 0 1 0], [5; nan; 1])%float.
Proof. split; vm_compute; reflexivity. Qed.
End GeometryExamples.

(** ** Pruning *)

Lemma broadcast2_same {A B C} (f : A → B → C) (l : list A) (k : list B) :
  length l = length k → broadcast2 f l k = Returns (zip_with f l k).
Proof. intros Hlen. unfold broadcast2. by rewrite decide_True. Qed.

Section PruningFacts.
Context {F : Type} `{!Arith F}.
Local Open Scope arith_scope.

(** A position passes [pinv_norm < mp_tol] exactly when its residual is
    below the constant [0.1]. *)
Lemma elem_of_residual_where (pinv_norm : list F) (aux : nat) :
  aux ∈ np_where (residual_mask pinv_norm) ↔
  ∃ r, pinv_norm !! aux = Some r ∧ fltb r tenth = true.
Proof.
  rewrite elem_of_np_where. unfold residual_mask, mp_tol.
  rewrite list_lookup_fmap.
  destruct (pinv_norm !! aux) as [r|]; simpl.
  - split; [intros [= Hr]; eauto|]. by intros (r' & [= <-] & ->).
  - split; [done|]. by intros (r' & ? & _).
Qed.

Lemma seed_mask_same (pinv_norm norm : list F) :
  length pinv_norm = length norm →
  seed_mask pinv_norm norm
  = Returns (zip_with (λ r n, fltb r mp_tol && fleb n (of_int 2)
                              && negb (feqb n (of_int 0))) pinv_norm norm).
Proof.
  intros Hlen. unfold seed_mask.
  rewrite broadcast2_same by (by rewrite !length_fmap). simpl.
  rewrite broadcast2_same
    by (rewrite length_zip_with, !length_fmap; lia).
  f_equal. clear Hlen. revert norm.
  induction pinv_norm as [|r l IH]; intros [|n k]; simpl; try done.
  f_equal. apply IH.
Qed.

Lemma elem_of_seed_where (pinv_norm norm : list F) (mask : list bool) (aux : nat) :
  length pinv_norm = length norm →
  seed_mask pinv_norm norm = Returns mask →
  aux ∈ np_where mask ↔
  ∃ r n, pinv_norm !! aux = Some r ∧ norm !! aux = Some n ∧
         fltb r tenth = true ∧ fleb n (of_int 2) = true ∧
         feqb n (of_int 0) = false.
Proof.
  intros Hlen. rewrite (seed_mask_same _ _ Hlen). intros [= <-].
  rewrite elem_of_np_where, lookup_zip_with.
  destruct (pinv_norm !! aux) as [r|]; simpl.
  - destruct (norm !! aux) as [n|]; simpl.
    + unfold mp_tol. split.
      * intros [= Hm]. apply andb_true_iff in Hm as [Hm Hz].
        apply andb_true_iff in Hm as [Hr Hn]. apply negb_true_iff in Hz.
        exists r, n. by split_and!.
      * intros (r' & n' & [= <-] & [= <-] & -> & -> & ->). done.
    + split; [done|]. by intros (r' & n' & _ & ? & _).
  - split; [done|]. by intros (r' & n' & ? & _).
Qed.

(** What [intersections_cal] selects without the keyword ['norm']. *)
Lemma intersections_cal_indexes (pinv_norm : list F) (PERMS_J : list (list Z))
    (line R : list (vec3 F)) (kwargs : gmap string (list F)) res :
  kwargs !! "norm" = None →
  intersections_cal pinv_norm PERMS_J line R kwargs = Returns res →
  indexes res = np_where (residual_mask pinv_norm) ∧
  number res = length (indexes res) ∧
  take_indices PERMS_J (indexes res) = Returns (permutations res).
Proof.
  unfold intersections_cal. intros ->. simpl.
  rewrite bind_Returns. intros (perms & Hperms & Hrest).
  apply bind_Returns in Hrest as (sel & Hsel & [= <-]). done.
Qed.

(** What [intersections_cal] selects with the keyword ['norm']. *)
Lemma intersections_cal_indexes_norm (pinv_norm : list F) (PERMS_J : list (list Z))
    (line R : list (vec3 F)) (kwargs : gmap string (list F)) norm res :
  kwargs !! "norm" = Some norm →
  intersections_cal pinv_norm PERMS_J line R kwargs = Returns res →
  ∃ mask, seed_mask pinv_norm norm = Returns mask ∧
          indexes res = np_where mask ∧
          take_indices PERMS_J (indexes res) = Returns (permutations res).
Proof.
  unfold intersections_cal. intros ->.
  rewrite bind_Returns. intros (idx & Hidx & Hrest).
  apply fmap_Returns in Hidx as (mask & Hmask & ->).
  apply bind_Returns in Hrest as (perms & Hperms & Hrest).
  apply bind_Returns in Hrest as (sel & Hsel & [= <-]). eauto.
Qed.
End PruningFacts.

Section Tolerance.
Context {F : Type} `{!Arith F}.
Local Open Scope arith_scope.

(** C8, as the code has it: the residual tolerance of [intersections_cal] is
    the constant 0.1 of its body, which no argument can change: whatever
    keyword arguments the caller passes, a position is selected exactly when
    its residual is below 0.1 (and, under the keyword ['norm'], the norm
    given for it is at most 2 and not 0). *)
Theorem intersections_cal_fixed_tolerance (pinv_norm : list F)
    (PERMS_J : list (list Z)) (line R : list (vec3 F))
    (kwargs : gmap string (list F)) (res : intersections F) :
  intersections_cal pinv_norm PERMS_J line R kwargs = Returns res →
  (kwargs !! "norm" = None →
   ∀ aux, aux ∈ indexes res ↔
          ∃ r, pinv_norm !! aux = Some r ∧ fltb r tenth = true) ∧
  (∀ norm, kwargs !! "norm" = Some norm → length pinv_norm = length norm →
   ∀ aux, aux ∈ indexes res ↔
          ∃ r n, pinv_norm !! aux = Some r ∧ norm !! aux = Some n ∧
                 fltb r tenth = true ∧ fleb n (of_int 2) = true ∧
                 feqb n (of_int 0) = false).
Proof.
  intros Hres. split.
  - intros Hno aux.
    destruct (intersections_cal_indexes _ _ _ _ _ _ Hno Hres) as (-> & _).
    apply elem_of_residual_where.
  - intros norm Hnorm Hlen aux.
    destruct (intersections_cal_indexes_norm _ _ _ _ _ _ _ Hnorm Hres)
      as (mask & Hmask & -> & _).
    by apply elem_of_seed_where.
Qed.
End Tolerance.

Section ToleranceExamples.
Import PrimFloat.

Lemma intersections_cal_fixed_tolerance_witness :
  intersections_cal [0.0625; 0.25]%float [[1; 1; 1]; [1; 1; 2]]
    [Vec3 0 1 0; Vec3 1 0 0]%float [Vec3 3 4 0]%float
    {[ "mp_tol" := [0.5]%float ]}
  = Returns (Intersections [0%nat] 1 [[1; 1; 1]] [[4]]%float) ∧
  ∀ aux, aux ∈ [0%nat] ↔
         ∃ r, [0.0625; 0.25]%float !! aux = Some r ∧
              (r <? 0x1.999999999999ap-4)%float = true.
Proof.
  assert (intersections_cal [0.0625; 0.25]%float [[1; 1; 1]; [1; 1; 2]]
            [Vec3 0 1 0; Vec3 1 0 0]%float [Vec3 3 4 0]%float
            {[ "mp_tol" := [0.5]%float ]}
          = Returns (Intersections [0%nat] 1 [[1; 1; 1]] [[4]]%float)) as Hres
    by (vm_compute; reflexivity).
  split; [exact Hres|].
  apply (proj1 (intersections_cal_fixed_tolerance _ _ _ _ _ _ Hres)).
  vm_compute; reflexivity.
Defined.

(** C8 as stated fails: a caller who configures the tolerance 0.5 (the only
    channel is a keyword argument) still has the residual 0.25 pruned,
    though 0.25 < 0.5. *)
Lemma intersections_cal_ignores_configured_tolerance :
  (0.25 <? 0.5)%float = true ∧
  indexes <$> intersections_cal [0.25]%float [[1; 1; 1]] [Vec3 0 1 0]%float
                [Vec3 3 4 0]%float {[ "mp_tol" := [0.5]%float ]}
    = Returns [].
Proof. split; vm_compute; reflexivity. Qed.
End ToleranceExamples.

Lemma norm_index_nat (len i : nat) :
  norm_index len (Z.of_nat i)
  = if decide (i < len)%nat then Returns i else Raises IndexError.
Proof.
  unfold norm_index.
  destruct (decide (i < len)%nat).
  - rewrite decide_True by lia. by rewrite Nat2Z.id.
  - rewrite decide_False by lia. by rewrite decide_False by lia.
Qed.

Lemma setitemZ_nat {A} (l l' : list A) (i : nat) (v : A) :
  setitemZ l (Z.of_nat i) v = Returns l' ↔ (i < length l)%nat ∧ l' = <[i:=v]> l.
Proof.
  unfold setitemZ. rewrite norm_index_nat.
  destruct (decide (i < length l)%nat); simpl.
  - split; [by intros [= <-]|]. by intros [_ ->].
  - split; [done|]. by intros [? _].
Qed.

Lemma getitemZ_nat {A} (l : list A) (i : nat) (a : A) :
  getitemZ l (Z.of_nat i) = Returns a ↔ l !! i = Some a.
Proof.
  unfold getitemZ. rewrite norm_index_nat.
  destruct (decide (i < length l)%nat); simpl.
  - apply getitem_Returns.
  - split; [done|]. intros Hi. apply lookup_lt_Some in Hi. lia.
Qed.

Section EvaluateFacts.
Context {F : Type} `{!Arith F}.
Variable pinv : list (vec3 F) → outcome (list (vec3 F)).
Variables (R : list (vec3 F)) (n0 K : list F).
Variables (W : list (vec3 F)) (I : list nat).

(** The loop over the Candidates leaves, at the position of each of them,
    its Solution and its residual; it changes no slot before [aux] and no
    length. *)
Lemma evaluate_Returns (PERMS_J : list (list Z)) :
  ∀ (aux : nat) (s s' : buffers F),
    evaluate pinv R n0 K W I aux PERMS_J s = Returns s' →
    length (intersection_line_set s') = length (intersection_line_set s) ∧
    length (pinv_norm_set s') = length (pinv_norm_set s) ∧
    (∀ q, (q < aux)%nat →
          intersection_line_set s' !! q = intersection_line_set s !! q ∧
          pinv_norm_set s' !! q = pinv_norm_set s !! q) ∧
    (∀ q, (aux + length PERMS_J ≤ q)%nat →
          intersection_line_set s' !! q = intersection_line_set s !! q ∧
          pinv_norm_set s' !! q = pinv_norm_set s !! q) ∧
    (∀ p j, PERMS_J !! p = Some j →
            ∃ b x r,
              b_vector I j R n0 K = Returns b ∧
              mooore_penrose_solution pinv W b = Returns (x, r) ∧
              intersection_line_set s' !! (aux + p)%nat = Some x ∧
              pinv_norm_set s' !! (aux + p)%nat = Some r).
Proof.
  induction PERMS_J as [|j rest IH]; intros aux s s'; simpl.
  - intros [= <-]. split_and!; try done.
  - rewrite bind_Returns. intros (b & Hb & Hrest).
    apply bind_Returns in Hrest as ([x r] & Hsol & Hrest).
    apply bind_Returns in Hrest as (lines & Hlines & Hrest).
    apply bind_Returns in Hrest as (norms & Hnorms & Hrest).
    simpl in *.
    apply setitemZ_nat in Hlines as [Hl ->].
    apply setitemZ_nat in Hnorms as [Hn ->].
    destruct (IH _ _ _ Hrest) as (Hlen1 & Hlen2 & Hbefore & Hafter & Hat).
    simpl in *. rewrite length_insert in Hlen1. rewrite length_insert in Hlen2.
    split_and!; [done|done|..].
    + intros q Hq. destruct (Hbefore q) as [-> ->]; [lia|].
      by rewrite !list_lookup_insert_ne by lia.
    + intros q Hq. destruct (Hafter q) as [-> ->]; [lia|].
      by rewrite !list_lookup_insert_ne by lia.
    + intros [|p] j' Hj'; simpl in Hj'.
      * injection Hj' as <-. exists b, x, r. rewrite Nat.add_0_r.
        destruct (Hbefore aux) as [-> ->]; [lia|].
        by rewrite !list_lookup_insert_eq by lia.
      * destruct (Hat p j' Hj') as (b' & x' & r' & ? & ? & ? & ?).
        exists b', x', r'. by rewrite <- Nat.add_succ_comm.
Qed.
End EvaluateFacts.

Section SeedTest.
Import Real.
Local Open Scope R_scope.

Lemma seed_predicate_R (r : R) (x : vec3 R) :
  fltb r tenth = true ∧ fleb (norm3 x) (of_int 2) = true ∧
    feqb (norm3 x) (of_int 0) = false ↔
  r < 1 / 10 ∧ 0 < sqrt ((vx x)² + (vy x)² + (vz x)²) <= 2.
Proof.
  rewrite fltb_R, fleb_R, <- not_true_iff_false, feqb_R.
  pose proof (norm3_nonneg x) as Hn.
  change (sqrt ((vx x)² + (vy x)² + (vz x)²)) with (norm3 x).
  change (of_int 2) with 2. change (of_int 0) with 0. change tenth with (1 / 10).
  split; intros (? & ? & ?); split_and!; lra.
Qed.

End SeedTest.

(** ** The solver *)

Section SolverFacts.
Import Real.
Local Open Scope R_scope.

Lemma foldl_Rplus (x : R) (l : list R) :
  foldl fadd x l = x + foldr Rplus 0 l.
Proof.
  revert x. induction l as [|y l IH]; intros x; simpl; [lra|].
  rewrite IH. simpl. lra.
Qed.

(** In exact arithmetic [np.sum] is the sum, in any order. *)
Lemma np_sum_R (l : list R) : np_sum l = foldr Rplus 0 l.
Proof.
  destruct l as [|x l]; simpl; [done|]. apply foldl_Rplus.
Qed.

Lemma np_sum_cons_R (x : R) (l : list R) : np_sum (x :: l) = x + np_sum l.
Proof. by rewrite !np_sum_R. Qed.

(** [w . (sum_j b_j p_j) = sum_j (w . p_j) b_j]. *)
Lemma dot3_pinv_dot (w : vec3 R) (P : list (vec3 R)) (b : list R) :
  dot3 w (Vec3 (np_sum (zip_with (λ p bj, vx p * bj) P b))
               (np_sum (zip_with (λ p bj, vy p * bj) P b))
               (np_sum (zip_with (λ p bj, vz p * bj) P b)))
  = np_sum (zip_with fmul (dot3 w <$> P) b).
Proof.
  unfold dot3. cbn [vx vy vz]. revert b.
  induction P as [|p P IH]; intros [|bj b];
    try (rewrite !np_sum_R; simpl; lra).
  rewrite fmap_cons. cbn [zip_with]. rewrite !np_sum_cons_R, <- IH.
  simpl. lra.
Qed.

(** Both ways to bracket [W Wpinv b] give [W (Wpinv b)]. *)
Lemma multi_dot_R (W Wpinv : list (vec3 R)) (b m : list R) :
  multi_dot W Wpinv b = Returns m ↔
  ∃ x, pinv_dot Wpinv b = Returns x ∧ m = mat_vec3 W x.
Proof.
  unfold multi_dot. destruct (decide _) as [_|_].
  - unfold mat_vec, pinv_dot. destruct (decide (length Wpinv = length b)).
    + assert ((λ row, np_sum (zip_with fmul row b)) <$> mat_mat W Wpinv
              = mat_vec3 W (Vec3 (np_sum (zip_with (λ p bj, vx p * bj) Wpinv b))
                                 (np_sum (zip_with (λ p bj, vy p * bj) Wpinv b))
                                 (np_sum (zip_with (λ p bj, vz p * bj) Wpinv b))))
        as ->.
      { unfold mat_mat, mat_vec3. rewrite <- list_fmap_compose.
        apply list_fmap_ext. intros i w _.
        exact (eq_sym (dot3_pinv_dot w Wpinv b)). }
      split.
      * intros [= <-]. eauto.
      * by intros (x & [= <-] & ->).
    + split; [done|]. by intros (x & ? & _).
  - rewrite bind_Returns. split.
    + intros (x & Hx & [= <-]). eauto.
    + intros (x & Hx & ->). eauto.
Qed.
End SolverFacts.

Section SolverClaims.
Import Real.
Local Open Scope R_scope.
Variable pinv : list (vec3 R) → outcome (list (vec3 R)).

Lemma norm_list_R (l : list R) :
  norm_list l = sqrt (foldr Rplus 0 ((λ c, c²) <$> l)).
Proof. unfold norm_list. by rewrite np_sum_R. Qed.

Lemma solution_check_R (W Wpinv : list (vec3 R)) (b check : list R) :
  solution_check W Wpinv b = Returns check ↔
  ∃ x, pinv_dot Wpinv b = Returns x ∧
       broadcast2 Rminus (mat_vec3 W x) b = Returns check.
Proof.
  unfold solution_check. rewrite bind_Returns. split.
  - intros (m & Hm & Hc). apply multi_dot_R in Hm as (x & Hx & ->). eauto.
  - intros (x & Hx & Hc). exists (mat_vec3 W x). split; [|done].
    apply multi_dot_R. eauto.
Qed.

Lemma setitemZ_Returns {A} (l l' : list A) (i : Z) (v : A) :
  setitemZ l i v = Returns l' →
  ∃ n, norm_index (length l) i = Returns n ∧ l' !! n = Some v.
Proof.
  unfold setitemZ. rewrite bind_Returns. intros (n & Hn & [= <-]).
  exists n. split; [done|]. apply list_lookup_insert_eq.
  unfold norm_index in Hn. repeat case_decide; simplify_eq; lia.
Qed.

Lemma mat_mat_vec_R (W Wpinv : list (vec3 R)) (b : list R) (x : vec3 R) :
  pinv_dot Wpinv b = Returns x →
  mat_vec (length Wpinv) (mat_mat W Wpinv) b = Returns (mat_vec3 W x).
Proof.
  unfold pinv_dot, mat_vec. destruct (decide (length Wpinv = length b)); [|done].
  intros [= <-]. f_equal. unfold mat_mat, mat_vec3.
  rewrite <- list_fmap_compose. apply list_fmap_ext. intros i w _.
  exact (eq_sym (dot3_pinv_dot w Wpinv b)).
Qed.

Lemma solver_Returns (W : list (vec3 R)) (b : list R) (x : vec3 R) (r : R) :
  mooore_penrose_solution pinv W b = Returns (x, r) ↔
  ∃ Wpinv check,
    pinv W = Returns Wpinv ∧ pinv_dot Wpinv b = Returns x ∧
    broadcast2 Rminus (mat_vec3 W x) b = Returns check ∧ r = norm_list check.
Proof.
  unfold mooore_penrose_solution. rewrite bind_Returns. split.
  - intros (Wpinv & HW & Hrest).
    apply bind_Returns in Hrest as (check & Hcheck & Hrest).
    rewrite HW in Hrest. simpl in Hrest.
    apply bind_Returns in Hrest as (x' & Hx & [= -> <-]).
    apply solution_check_R in Hcheck as (x' & Hx' & Hcheck).
    assert (x' = x) as -> by congruence. by exists Wpinv, check.
  - intros (Wpinv & check & HW & Hx & Hcheck & ->).
    exists Wpinv. split; [done|]. apply bind_Returns. exists check.
    split; [apply solution_check_R; eauto|].
    rewrite HW. simpl. by rewrite Hx.
Qed.

(** C4: for a matrix [W], the [Wpinv] that [np.linalg.pinv] gives for it
    (of the transposed shape) and a vector [b] of one entry per row of [W],
    [mooore_penrose_solution] returns the pair [(x, r)] with [x = Wpinv b]
    and [r = ||W Wpinv b - b||]; in exact arithmetic [W Wpinv b], bracketed
    either way, is [W x], so that [r = ||W x - b||], the Euclidean norm of
    what re-substituting [x] leaves of [b].  A round of
    [mooore_penrose_solution_ptr] stores the same two values at its index. *)
Theorem solver_residual (W Wpinv : list (vec3 R)) (b : list R) :
  pinv W = Returns Wpinv → length Wpinv = length W → length b = length W →
  ∃ x r,
    mooore_penrose_solution pinv W b = Returns (x, r) ∧
    pinv_dot Wpinv b = Returns x ∧
    multi_dot W Wpinv b = Returns (mat_vec3 W x) ∧
    mat_vec (length Wpinv) (mat_mat W Wpinv) b = Returns (mat_vec3 W x) ∧
    r = sqrt (foldr Rplus 0 ((λ c, c²) <$> zip_with Rminus (mat_vec3 W x) b)) ∧
    ∀ b_set ind s s',
      getitemZ b_set ind = Returns b →
      ptr_body W Wpinv b_set ind s = Returns s' →
      ∃ n n',
        norm_index (length (intersection_line_set s)) ind = Returns n ∧
        norm_index (length (pinv_norm_set s)) ind = Returns n' ∧
        intersection_line_set s' !! n = Some x ∧
        pinv_norm_set s' !! n' = Some r.
Proof.
  intros HW Hshape Hb.
  destruct (pinv_dot Wpinv b) as [x|] eqn:Hx;
    [|unfold pinv_dot in Hx; rewrite decide_True in Hx by congruence; done].
  assert (broadcast2 Rminus (mat_vec3 W x) b
          = Returns (zip_with Rminus (mat_vec3 W x) b)) as Hcheck.
  { apply broadcast2_same. unfold mat_vec3. rewrite length_fmap. congruence. }
  exists x, (norm_list (zip_with Rminus (mat_vec3 W x) b)).
  split_and!.
  - apply solver_Returns. by exists Wpinv, (zip_with Rminus (mat_vec3 W x) b).
  - done.
  - apply multi_dot_R. eauto.
  - by apply mat_mat_vec_R.
  - apply norm_list_R.
  - intros b_set ind s s' Hbset. unfold ptr_body. rewrite Hbset. simpl.
    assert (solution_check W Wpinv b
            = Returns (zip_with Rminus (mat_vec3 W x) b)) as ->
      by (apply solution_check_R; eauto).
    simpl. rewrite bind_Returns. intros (norms & Hnorms & Hrest).
    rewrite Hx in Hrest. simpl in Hrest.
    apply bind_Returns in Hrest as (lines & Hlines & [= <-]). simpl.
    apply setitemZ_Returns in Hnorms as (n' & Hn' & Hr).
    apply setitemZ_Returns in Hlines as (n & Hn & Hl).
    by exists n, n'.
Qed.
End SolverClaims.

Section PinvPlanarFacts.
Import Real.
Local Open Scope R_scope.

Lemma sum_linear3 {A} (c1 c2 c3 : R) (f1 f2 f3 : A → R) (l : list A) :
  foldr Rplus 0 ((λ a, c1 * f1 a + c2 * f2 a + c3 * f3 a) <$> l)
  = c1 * foldr Rplus 0 (f1 <$> l) + c2 * foldr Rplus 0 (f2 <$> l)
    + c3 * foldr Rplus 0 (f3 <$> l).
Proof.
  induction l as [|a l IH]; [simpl; lra|].
  rewrite !fmap_cons. cbn [foldr]. rewrite IH. lra.
Qed.

Lemma sum_pinv_row (W : list (vec3 R)) (f : vec3 R → R) (x : vec3 R)
    (c1 c2 c3 : R) :
  Forall (λ w, vz w = 0) W →
  (∀ w, vz w = 0 →
        f w * dot3 w x
        = c1 * (vx w * vx w) + c2 * (vx w * vy w) + c3 * (vy w * vy w)) →
  np_sum (zip_with (λ p bj, f p * bj) W (mat_vec3 W x))
  = c1 * np_sum ((λ w, vx w * vx w) <$> W)
    + c2 * np_sum ((λ w, vx w * vy w) <$> W)
    + c3 * np_sum ((λ w, vy w * vy w) <$> W).
Proof.
  intros Hz Hf. unfold mat_vec3. rewrite zip_with_fmap_r, zip_with_diag.
  rewrite !np_sum_R, <- sum_linear3. f_equal.
  apply list_fmap_ext. intros i w Hw. apply Hf.
  rewrite Forall_forall in Hz. apply Hz. by eapply list_elem_of_lookup_2.
Qed.

(** [pinv_planar] inverts on the plane: for rows in the plane z = 0 that
    span it, [Wpinv (W x)] is [x] without its third component. *)
Lemma pinv_planar_left_inverse (W Wpinv : list (vec3 R)) (x : vec3 R) :
  Forall (λ w, vz w = 0) W →
  np_sum ((λ w, vx w * vx w) <$> W) * np_sum ((λ w, vy w * vy w) <$> W)
    - np_sum ((λ w, vx w * vy w) <$> W) * np_sum ((λ w, vx w * vy w) <$> W) ≠ 0 →
  pinv_planar W = Returns Wpinv →
  pinv_dot Wpinv (mat_vec3 W x) = Returns (Vec3 (vx x) (vy x) 0).
Proof.
  intros Hz Hdet [= <-]. unfold pinv_dot.
  rewrite decide_True by (unfold mat_vec3; by rewrite !length_fmap).
  set (sxx := np_sum ((λ w, vx w * vx w) <$> W)) in *.
  set (sxy := np_sum ((λ w, vx w * vy w) <$> W)) in *.
  set (syy := np_sum ((λ w, vy w * vy w) <$> W)) in *.
  set (det := sxx * syy - sxy * sxy) in *.
  rewrite !zip_with_fmap_l. simpl.
  rewrite (sum_pinv_row W _ x (syy * vx x / det)
             ((syy * vy x - sxy * vx x) / det) (- (sxy * vy x) / det) Hz).
  2: { intros w Hw. unfold dot3. simpl. rewrite Hw. by field. }
  rewrite (sum_pinv_row W _ x (- (sxy * vx x) / det)
             ((sxx * vx x - sxy * vy x) / det) (sxx * vy x / det) Hz).
  2: { intros w Hw. unfold dot3. simpl. rewrite Hw. by field. }
  rewrite (sum_pinv_row W (λ _, 0) x 0 0 0 Hz).
  2: { intros w Hw. lra. }
  fold sxx sxy syy. f_equal. f_equal; unfold det; field; exact Hdet.
Qed.
End PinvPlanarFacts.

Section SolverExamples.
Import Real.
Local Open Scope R_scope.

Lemma solver_residual_witness :
  ∃ Wpinv x r,
    pinv_planar [Vec3 1 0 0; Vec3 0 1 0; Vec3 (3 / 5) (4 / 5) 0] = Returns Wpinv ∧
    mooore_penrose_solution pinv_planar
      [Vec3 1 0 0; Vec3 0 1 0; Vec3 (3 / 5) (4 / 5) 0] [1; 2; 3] = Returns (x, r) ∧
    r = sqrt (foldr Rplus 0
                ((λ c, c²) <$>
                 zip_with Rminus
                   (mat_vec3 [Vec3 1 0 0; Vec3 0 1 0; Vec3 (3 / 5) (4 / 5) 0] x)
                   [1; 2; 3])).
Proof.
  eexists.
  match goal with
  | |- ∃ x r, ?H ∧ _ => assert H as HW by reflexivity
  end.
  destruct (solver_residual pinv_planar
              [Vec3 1 0 0; Vec3 0 1 0; Vec3 (3 / 5) (4 / 5) 0] _ [1; 2; 3]
              HW eq_refl eq_refl)
    as (x & r & Hsol & _ & _ & _ & Hr & _).
  by exists x, r.
Defined.

End SolverExamples.

(** ** Enumeration *)

Lemma py_range_1 (n : Z) : py_range 1 (n + 1) = seqZ 1 n.
Proof. unfold py_range. f_equal. lia. Qed.

Lemma lookup_cprod {A B} (l : list A) (k : list B) (aux : nat) (a : A) (b : B) :
  cprod l k !! aux = Some (a, b) ↔
  ∃ p q, l !! p = Some a ∧ k !! q = Some b ∧ aux = (p * length k + q)%nat.
Proof.
  revert aux. induction l as [|a' l IH]; intros aux.
  - split; [done|]. by intros (p & q & ? & _).
  - change (cprod (a' :: l) k) with (((a',.) <$> k) ++ cprod l k).
    destruct (decide (aux < length k)%nat) as [Hlt|Hge].
    + rewrite lookup_app_l by (by rewrite length_fmap).
      rewrite list_lookup_fmap. split.
      * destruct (k !! aux) as [b'|] eqn:Hb; simpl; [|done].
        intros [= <- <-]. exists 0%nat, aux. split_and!; [done|done|lia].
      * intros ([|p] & q & Hp & Hq & ->).
        -- injection Hp as <-. simpl. by rewrite Hq.
        -- apply lookup_lt_Some in Hq. lia.
    + rewrite lookup_app_r by (rewrite length_fmap; lia).
      rewrite length_fmap, IH. split.
      * intros (p & q & Hp & Hq & Haux). exists (S p), q.
        split_and!; [done|done|lia].
      * intros ([|p] & q & Hp & Hq & ->).
        -- apply lookup_lt_Some in Hq. lia.
        -- exists p, q. split_and!; [done|done|lia].
Qed.

Lemma length_cprod {A B} (l : list A) (k : list B) :
  length (cprod l k) = (length l * length k)%nat.
Proof.
  induction l as [|a l IH]; [done|].
  change (cprod (a :: l) k) with (((a,.) <$> k) ++ cprod l k).
  rewrite length_app, length_fmap, IH. simpl. lia.
Qed.

Section EnumerationFacts.
Context {F : Type} `{!Arith F}.

Lemma offsets_Returns (k_length : list F) (i : nat) (ks : list Z) :
  offsets k_length i = Returns ks ↔
  ∃ k n, k_length !! i = Some k ∧ to_int k = Returns n ∧ ks = seqZ 1 n.
Proof.
  unfold offsets. rewrite bind_Returns. split.
  - intros (k & Hk & Hrest). apply bind_Returns in Hrest as (n & Hn & [= <-]).
    apply getitem_Returns in Hk. exists k, n. by rewrite py_range_1.
  - intros (k & n & Hk & Hn & ->). exists k.
    split; [by apply getitem_Returns|]. apply bind_Returns.
    exists n. by rewrite py_range_1.
Qed.

Lemma take_rows_Returns (base : list (list Z)) (ind : list nat) rows :
  take_rows base ind = Returns rows → take_indices base ind = Returns rows.
Proof. by destruct base. Qed.

(** The pairs of [permutations_create], by position: row [p] of the selected
    ones with the [q]-th offset stands at [p * n + q]. *)
Lemma permutations_create_Returns (base : list (list Z)) (ind : list nat)
    (k_length : list F) (ii : nat) (pairs : list (list Z * Z)) :
  permutations_create base ind k_length ii = Returns pairs →
  ∃ k n, k_length !! ii = Some k ∧ to_int k = Returns n ∧
    length pairs = (length ind * Z.to_nat n)%nat ∧
    ∀ aux s o, pairs !! aux = Some (s, o) ↔
      ∃ p i, ind !! p = Some i ∧ base !! i = Some s ∧ (1 ≤ o ≤ n)%Z ∧
             aux = (p * Z.to_nat n + Z.to_nat (o - 1))%nat.
Proof.
  unfold permutations_create. rewrite bind_Returns.
  intros (rows & Hrows & Hrest).
  apply bind_Returns in Hrest as (ks & Hks & [= <-]).
  apply take_rows_Returns in Hrows.
  apply offsets_Returns in Hks as (k & n & Hk & Hn & ->).
  exists k, n. split_and!; [done|done|..].
  - rewrite length_cprod, length_seqZ.
    by rewrite (take_indices_length _ _ _ Hrows).
  - intros aux s o. rewrite lookup_cprod, length_seqZ. split.
    + intros (p & q & Hp & Hq & ->).
      apply (take_indices_lookup _ _ _ _ _ Hrows) in Hp as (i & Hi & Hs).
      apply lookup_seqZ in Hq as [-> Hq].
      exists p, i. split_and!; [done|done|lia|lia|]. f_equal. lia.
    + intros (p & i & Hi & Hs & Ho & ->).
      exists p, (Z.to_nat (o - 1)). split_and!; [|..|done].
      * apply (take_indices_lookup _ _ _ _ _ Hrows). eauto.
      * apply lookup_seqZ. lia.
Qed.
End EnumerationFacts.

Lemma length_bind_const {A B} (f : A → list B) (l : list A) (m : nat) :
  (∀ x, x ∈ l → length (f x) = m) → length (l ≫= f) = (length l * m)%nat.
Proof.
  induction l as [|x l IH]; intros Hf; [done|].
  change ((x :: l) ≫= f) with (f x ++ (l ≫= f)).
  rewrite length_app, Hf, IH; [simpl; lia| |left].
  intros y Hy. apply Hf. by right.
Qed.

(** The triples of three ranges: each once, and as many as the product of
    the lengths. *)
Lemma triples_spec (k0 k1 k2 : list Z) :
  NoDup k0 → NoDup k1 → NoDup k2 →
  let triples := a ← k0; b ← k1; c ← k2; [[a; b; c]] in
  NoDup triples ∧
  length triples = (length k0 * length k1 * length k2)%nat ∧
  ∀ j, j ∈ triples ↔ ∃ a b c, j = [a; b; c] ∧ a ∈ k0 ∧ b ∈ k1 ∧ c ∈ k2.
Proof.
  intros H0 H1 H2 triples. unfold triples. split_and!.
  - apply NoDup_bind; [|intros a _; apply NoDup_bind|done].
    + intros a a' j _ _ Hj Hj'.
      apply list_elem_of_bind in Hj as (b & Hj & _).
      apply list_elem_of_bind in Hj as (c & Hj & _).
      apply list_elem_of_bind in Hj' as (b' & Hj' & _).
      apply list_elem_of_bind in Hj' as (c' & Hj' & _).
      apply list_elem_of_singleton in Hj, Hj'. congruence.
    + intros b b' j _ _ Hj Hj'.
      apply list_elem_of_bind in Hj as (c & Hj & _).
      apply list_elem_of_bind in Hj' as (c' & Hj' & _).
      apply list_elem_of_singleton in Hj, Hj'. congruence.
    + intros b _. apply NoDup_bind; [|intros c _; apply NoDup_singleton|done].
      intros c c' j _ _ Hj Hj'.
      apply list_elem_of_singleton in Hj, Hj'. congruence.
    + done.
  - rewrite (length_bind_const _ _ (length k1 * length k2)); [lia|].
    intros a _. rewrite (length_bind_const _ _ (length k2)); [lia|].
    intros b _. rewrite (length_bind_const _ _ 1); [lia|done].
  - intros j. rewrite list_elem_of_bind. split.
    + intros (a & Hj & Ha). apply list_elem_of_bind in Hj as (b & Hj & Hb).
      apply list_elem_of_bind in Hj as (c & Hj & Hc).
      apply list_elem_of_singleton in Hj. by exists a, b, c.
    + intros (a & b & c & -> & Ha & Hb & Hc). exists a. split; [|done].
      apply list_elem_of_bind. exists b. split; [|done].
      apply list_elem_of_bind. exists c. split; [|done].
      by apply list_elem_of_singleton.
Qed.

Section EnumerationClaims.
Context {F : Type} `{!Arith F}.

(** The Candidates of a stage, by position. *)
Lemma stage_positions (base : list (list Z)) (ind : list nat)
    (k_length : list F) (ii : nat) (PERMS_J : list (list Z)) :
  PERMS_J_stage base ind k_length ii = Returns PERMS_J →
  ∃ k n,
    k_length !! ii = Some k ∧ to_int k = Returns n ∧
    length PERMS_J = (length ind * Z.to_nat n)%nat ∧
    ∀ aux j, PERMS_J !! aux = Some j ↔
      ∃ p i s o,
        ind !! p = Some i ∧ base !! i = Some s ∧
        1 ≤ o ≤ n ∧ aux = (p * Z.to_nat n + Z.to_nat (o - 1))%nat ∧
        j = s ++ [o].
Proof.
  unfold PERMS_J_stage. intros Hst.
  assert (∃ pairs, permutations_create base ind k_length ii = Returns pairs
                   ∧ PERMS_J = PERMS_J_prime pairs) as (pairs & Hpairs & ->).
  { unfold permutations_create.
    apply bind_Returns in Hst as (rows & Hrows & Hrest).
    apply bind_Returns in Hrest as (ks & Hks & [= <-]).
    rewrite Hrows, Hks. simpl. eauto. }
  destruct (permutations_create_Returns _ _ _ _ _ Hpairs)
    as (k & n & Hk & Hn & Hlen & Hat).
  exists k, n. unfold PERMS_J_prime.
  split_and!; [done|done|by rewrite length_fmap|].
  intros aux j. rewrite list_lookup_fmap. split.
  - destruct (pairs !! aux) as [[s o]|] eqn:Haux; simpl; [|done].
    intros [= <-]. apply Hat in Haux as (p & i & ? & ? & ? & ?).
    by exists p, i, s, o.
  - intros (p & i & s & o & Hp & Hi & Ho & Haux & ->).
    assert (pairs !! aux = Some (s, o)) as ->; [|done].
    apply Hat. by exists p, i.
Qed.

End EnumerationClaims.

(** ** The stages: what they list, and what they keep *)

Lemma take_indices_elem {A} (l : list A) (idx : list nat) (sel : list A) (a : A) :
  take_indices l idx = Returns sel → a ∈ sel → a ∈ l.
Proof.
  intros Hsel Ha. apply list_elem_of_lookup in Ha as [p Hp].
  apply (take_indices_lookup _ _ _ _ _ Hsel) in Hp as (i & _ & Hi).
  by eapply list_elem_of_lookup_2.
Qed.

(** The rows at the selected positions, as a set. *)
Lemma take_indices_elem_of {A} (l : list A) (idx : list nat) (sel : list A) (a : A) :
  take_indices l idx = Returns sel →
  a ∈ sel ↔ ∃ i, i ∈ idx ∧ l !! i = Some a.
Proof.
  intros Hsel. rewrite list_elem_of_lookup. split.
  - intros (p & Hp).
    apply (take_indices_lookup _ _ _ _ _ Hsel) in Hp as (i & Hi & Ha).
    exists i. split; [by eapply list_elem_of_lookup_2|done].
  - intros (i & Hi & Ha). apply list_elem_of_lookup in Hi as [p Hp].
    exists p. apply (take_indices_lookup _ _ _ _ _ Hsel). eauto.
Qed.

(** Distinct positions of a list without repeats select distinct rows. *)
Lemma take_indices_NoDup {A} (l : list A) (idx : list nat) (sel : list A) :
  NoDup l → NoDup idx → take_indices l idx = Returns sel → NoDup sel.
Proof.
  intros Hl Hidx Hsel. apply NoDup_alt. intros p q a Hp Hq.
  apply (take_indices_lookup _ _ _ _ _ Hsel) in Hp as (i & Hi & Ha).
  apply (take_indices_lookup _ _ _ _ _ Hsel) in Hq as (i' & Hi' & Ha').
  assert (i = i') as <- by apply (NoDup_lookup l i i' a Hl Ha Ha').
  apply (NoDup_lookup idx p q i Hidx Hi Hi').
Qed.

Section StageFacts.
Context {F : Type} `{!Arith F}.
Variable pinv : list (vec3 F) → outcome (list (vec3 F)).
Variables (R0 : list (vec3 F)) (n0 K k_length : list F).
Local Open Scope arith_scope.

Lemma zero_buffers_Returns (n : Z) (bufs : buffers F) :
  zero_buffers n = Returns bufs →
  length (intersection_line_set bufs) = Z.to_nat n ∧
  length (pinv_norm_set bufs) = Z.to_nat n.
Proof.
  unfold zero_buffers. destruct (n <? 0)%Z; [done|]. intros [= <-]. simpl.
  by rewrite !length_replicate.
Qed.

(** The Candidates of the first three baselines: the full product of the
    three ranges of offsets, each triple once. *)
Lemma PERMS_J3_Returns (PERMS_J : list (list Z)) :
  PERMS_J3 k_length = Returns PERMS_J →
  ∃ k0 k1 k2 m0 m1 m2,
    k_length !! 0%nat = Some k0 ∧ to_int k0 = Returns m0 ∧
    k_length !! 1%nat = Some k1 ∧ to_int k1 = Returns m1 ∧
    k_length !! 2%nat = Some k2 ∧ to_int k2 = Returns m2 ∧
    NoDup PERMS_J ∧
    length PERMS_J = (Z.to_nat m0 * Z.to_nat m1 * Z.to_nat m2)%nat ∧
    ∀ j, j ∈ PERMS_J ↔
         ∃ a b c, j = [a; b; c] ∧ (1 ≤ a ≤ m0)%Z ∧ (1 ≤ b ≤ m1)%Z ∧
                  (1 ≤ c ≤ m2)%Z.
Proof.
  unfold PERMS_J3. rewrite bind_Returns.
  intros (ks0 & H0 & Hrest).
  apply bind_Returns in Hrest as (ks1 & H1 & Hrest).
  apply bind_Returns in Hrest as (ks2 & H2 & [= <-]).
  apply offsets_Returns in H0 as (k0 & m0 & ? & ? & ->).
  apply offsets_Returns in H1 as (k1 & m1 & ? & ? & ->).
  apply offsets_Returns in H2 as (k2 & m2 & ? & ? & ->).
  exists k0, k1, k2, m0, m1, m2.
  destruct (triples_spec (seqZ 1 m0) (seqZ 1 m1) (seqZ 1 m2))
    as (Hnd & Hlen & Hin); try apply NoDup_seqZ.
  rewrite !length_seqZ in Hlen.
  split_and!; try done.
  intros j. rewrite (Hin j). setoid_rewrite elem_of_seqZ.
  split; intros (a & b & c & -> & ? & ? & ?); exists a, b, c;
    split_and!; auto; lia.
Qed.

(** The Candidates of a further stage are listed once each when those of
    the stage before are. *)
Lemma PERMS_J_stage_NoDup (base : list (list Z)) (ind : list nat) (ii : nat)
    (PERMS_J : list (list Z)) :
  NoDup base → NoDup ind →
  PERMS_J_stage base ind k_length ii = Returns PERMS_J → NoDup PERMS_J.
Proof.
  intros Hbase Hind Hst.
  destruct (stage_positions _ _ _ _ _ Hst) as (k & n & _ & _ & _ & Hat).
  apply NoDup_alt. intros a a' j Ha Ha'.
  apply Hat in Ha as (p & i & s & o & Hp & Hi & Ho & -> & ->).
  apply Hat in Ha' as (p' & i' & s' & o' & Hp' & Hi' & Ho' & -> & Heq).
  apply app_inj_tail in Heq as [<- [= <-]].
  assert (i = i') as <- by apply (NoDup_lookup base i i' s Hbase Hi Hi').
  assert (p = p') as <- by apply (NoDup_lookup ind p p' i Hind Hp Hp').
  done.
Qed.

(** What a returned first stage consists of. *)
Lemma stage3_Returns (st : stage F) :
  stage3 pinv R0 n0 K k_length = Returns st →
  ∃ bufs s,
    PERMS_J3 k_length = Returns (stage_PERMS_J st) ∧
    length (intersection_line_set bufs) = length (pinv_norm_set bufs) ∧
    evaluate pinv R0 n0 K (W_matrix R0 3) [0; 1; 2]%nat 0 (stage_PERMS_J st) bufs
    = Returns s ∧
    stage_intersection_line st = intersection_line_set s ∧
    stage_pinv_norm st = pinv_norm_set s ∧
    intersections3_ind (pinv_norm_set s) (intersection_line_set s)
    = Returns (stage_intersections_ind st) ∧
    take_indices (stage_PERMS_J st) (stage_intersections_ind st)
    = Returns (stage_intersections st).
Proof.
  unfold stage3. rewrite bind_Returns. intros (PERMS_J & HP & Hrest).
  apply bind_Returns in Hrest as (num & _ & Hrest).
  apply bind_Returns in Hrest as (bufs & Hbufs & Hrest).
  apply bind_Returns in Hrest as (s & Heval & Hrest).
  apply bind_Returns in Hrest as (ind & Hind & Hrest).
  apply bind_Returns in Hrest as (sel & Hsel & Hrest).
  apply bind_Returns in Hrest as (pts & _ & [= <-]).
  destruct (zero_buffers_Returns _ _ Hbufs) as [Hl Hn].
  exists bufs, s. simpl. split_and!; try done. congruence.
Qed.

(** What a returned further stage consists of. *)
Lemma stage_next_Returns (ii : nat) (prev st : stage F) :
  stage_next pinv R0 n0 K k_length ii prev = Returns st →
  ∃ bufs s,
    PERMS_J_stage (stage_PERMS_J prev) (stage_intersections_ind prev) k_length ii
    = Returns (stage_PERMS_J st) ∧
    length (intersection_line_set bufs) = length (pinv_norm_set bufs) ∧
    evaluate pinv R0 n0 K (W_matrix R0 (S ii)) (seq 0 (S ii)) 0
      (stage_PERMS_J st) bufs = Returns s ∧
    stage_intersection_line st = intersection_line_set s ∧
    stage_pinv_norm st = pinv_norm_set s ∧
    stage_intersections_ind st = intersections_ind (pinv_norm_set s) ∧
    take_indices (stage_PERMS_J st) (stage_intersections_ind st)
    = Returns (stage_intersections st).
Proof.
  unfold stage_next. rewrite bind_Returns. intros (k & _ & Hrest).
  apply bind_Returns in Hrest as (num & _ & Hrest).
  apply bind_Returns in Hrest as (PERMS_J & HP & Hrest).
  apply bind_Returns in Hrest as (bufs & Hbufs & Hrest).
  apply bind_Returns in Hrest as (s & Heval & Hrest).
  apply bind_Returns in Hrest as (sel & Hsel & Hrest).
  apply bind_Returns in Hrest as (pts & _ & [= <-]).
  destruct (zero_buffers_Returns _ _ Hbufs) as [Hl Hn].
  exists bufs, s. simpl. split_and!; try done. congruence.
Qed.

(** Once the loop of a stage has solved its Candidates into the buffers,
    the position of a Candidate passes the test of the first stage exactly
    when its residual and the norm of its Solution pass the three
    comparisons, and the test of a further stage exactly when its residual
    passes the first of them. *)
Lemma evaluated_selection (W : list (vec3 F)) (I : list nat)
    (PERMS_J : list (list Z)) (bufs s : buffers F) (aux : nat) (j : list Z) :
  length (intersection_line_set bufs) = length (pinv_norm_set bufs) →
  evaluate pinv R0 n0 K W I 0 PERMS_J bufs = Returns s →
  PERMS_J !! aux = Some j →
  ∃ b x r,
    b_vector I j R0 n0 K = Returns b ∧
    mooore_penrose_solution pinv W b = Returns (x, r) ∧
    intersection_line_set s !! aux = Some x ∧
    pinv_norm_set s !! aux = Some r ∧
    (∀ ind3,
       intersections3_ind (pinv_norm_set s) (intersection_line_set s)
       = Returns ind3 →
       aux ∈ ind3 ↔
       fltb r tenth = true ∧ fleb (norm3 x) (of_int 2) = true ∧
       feqb (norm3 x) (of_int 0) = false) ∧
    (aux ∈ intersections_ind (pinv_norm_set s) ↔ fltb r tenth = true).
Proof.
  intros Hlen0 Heval Hj.
  destruct (evaluate_Returns _ _ _ _ _ _ _ _ _ _ Heval)
    as (Hl1 & Hl2 & _ & _ & Hat).
  destruct (Hat aux j Hj) as (b & x & r & Hb & Hsol & Hx & Hr). simpl in Hx, Hr.
  assert (length (pinv_norm_set s)
          = length (intersection_line_norm (intersection_line_set s))) as Hlen.
  { unfold intersection_line_norm. rewrite length_fmap. congruence. }
  assert (intersection_line_norm (intersection_line_set s) !! aux
          = Some (norm3 x)) as Hn.
  { unfold intersection_line_norm. by rewrite list_lookup_fmap, Hx. }
  exists b, x, r. split_and!; try done.
  - intros ind3. unfold intersections3_ind. rewrite fmap_Returns.
    intros (mask & Hmask & ->).
    rewrite (elem_of_seed_where _ _ _ _ Hlen Hmask). split.
    + intros (r' & n' & Hr' & Hn' & ?). by simplify_eq.
    + intros ?. by exists r, (norm3 x).
  - unfold intersections_ind. rewrite elem_of_residual_where. split.
    + intros (r' & Hr' & Hlt). by simplify_eq.
    + intros Hlt. by exists r.
Qed.

(** The survivors of a stage are the Candidates at the surviving
    positions: a Candidate whose every position is kept or dropped by a
    test of the Candidate alone is a survivor exactly when it passes. *)
Lemma survivors_elem (PERMS_J sel : list (list Z)) (ind : list nat)
    (passes : list Z → Prop) (j : list Z) :
  take_indices PERMS_J ind = Returns sel →
  (∀ aux j', PERMS_J !! aux = Some j' → aux ∈ ind ↔ passes j') →
  j ∈ PERMS_J → j ∈ sel ↔ passes j.
Proof.
  intros Hsel Hpos Hj. rewrite (take_indices_elem_of _ _ _ _ Hsel). split.
  - intros (i & Hi & Hij). by apply (Hpos i j Hij).
  - intros Hp. apply list_elem_of_lookup in Hj as [aux Haux].
    exists aux. split; [by apply (Hpos aux j Haux)|done].
Qed.

(** The stages of the search are those of [stage_of]. *)
Lemma stage_loop_stage_of (n : nat) :
  ∀ (a : nat) (st st' : stage F) (SV SV' : list F),
    stage_of pinv R0 n0 K k_length a st →
    stage_loop pinv R0 n0 K k_length (seq a n) st SV = Returns (st', SV') →
    stage_of pinv R0 n0 K k_length (a + n) st'.
Proof.
  induction n as [|n IH]; intros a st st' SV SV' Hst; simpl.
  - intros [= <- <-]. by rewrite Nat.add_0_r.
  - rewrite bind_Returns. intros (st1 & Hnext & Hrest).
    apply bind_Returns in Hrest as (SV1 & _ & Hloop).
    replace (a + S n)%nat with (S a + n)%nat by lia.
    apply (IH (S a) st1 st' SV1 SV'); [|done].
    by apply (stage_of_next _ _ _ _ _ a st).
Qed.

Lemma search_stage_of (Sn : Z) (st : stage F) (SURVIVORS : list F) :
  search pinv R0 n0 K k_length Sn = Returns (st, SURVIVORS) →
  (3 ≤ Sn)%Z ∧ stage_of pinv R0 n0 K k_length (Z.to_nat Sn) st.
Proof.
  unfold search. rewrite bind_Returns. intros (st3 & Hst3 & Hrest).
  apply bind_Returns in Hrest as (SV & HSV & Hloop).
  assert (3 ≤ Sn)%Z as HSn.
  { unfold SURVIVORS_init in HSV.
    destruct (Z.ltb_spec (Sn - 2) 0) as [|Hge]; [done|].
    change 0%Z with (Z.of_nat 0) in HSV. apply setitemZ_nat in HSV as [Hlt _].
    rewrite length_replicate in Hlt. lia. }
  split; [done|].
  replace (Z.to_nat Sn) with (3 + Z.to_nat (Sn - 3))%nat by lia.
  apply (stage_loop_stage_of _ 3 st3 st SV SURVIVORS); [|done].
  by apply stage_of_first.
Qed.

(** No stage of the search lists a Candidate twice, selects a position
    twice or keeps a survivor twice, and its survivors are its Candidates
    at the selected positions. *)
Lemma stage_of_NoDup (m : nat) (st : stage F) :
  stage_of pinv R0 n0 K k_length m st →
  NoDup (stage_PERMS_J st) ∧ NoDup (stage_intersections_ind st) ∧
  NoDup (stage_intersections st) ∧
  take_indices (stage_PERMS_J st) (stage_intersections_ind st)
  = Returns (stage_intersections st).
Proof.
  induction 1 as [st Hst|ii prev st Hprev IH Hst].
  - destruct (stage3_Returns _ Hst)
      as (bufs & s & HP & _ & _ & _ & _ & Hind & Hsel).
    destruct (PERMS_J3_Returns _ HP)
      as (? & ? & ? & ? & ? & ? & _ & _ & _ & _ & _ & _ & Hnd & _).
    assert (NoDup (stage_intersections_ind st)) as Hndi.
    { unfold intersections3_ind in Hind.
      apply fmap_Returns in Hind as (mask & _ & ->). apply np_where_NoDup. }
    split_and!; try done. by eapply take_indices_NoDup.
  - destruct IH as (Hnd & Hndi & _ & _).
    destruct (stage_next_Returns _ _ _ Hst)
      as (bufs & s & HP & _ & _ & _ & _ & Hind & Hsel).
    assert (NoDup (stage_PERMS_J st)) as Hnd'
      by apply (PERMS_J_stage_NoDup _ _ _ _ Hnd Hndi HP).
    assert (NoDup (stage_intersections_ind st)) as Hndi'
      by (rewrite Hind; apply np_where_NoDup).
    split_and!; try done. by eapply take_indices_NoDup.
Qed.
End StageFacts.

Section StageClaims.
Context {F : Type} `{!Arith F}.
Variable pinv : list (vec3 F) → outcome (list (vec3 F)).
Variables (R0 : list (vec3 F)) (n0 K k_length : list F).
Local Open Scope arith_scope.

Lemma stage_of_ge (m : nat) (st : stage F) :
  stage_of pinv R0 n0 K k_length m st → (3 ≤ m)%nat.
Proof. induction 1; lia. Qed.

(** C3: which stage applies which test.  The first stage ([stage3], the
    script's lines 72-120) solves every Candidate of its list and keeps, as
    its Survivor Set [intersections3], the Candidates at the positions that
    pass [pinv_norm < mp_tol], [norm <= 2] and [norm != 0]: the Candidate
    at position [aux], of Solution [x] and residual [r], is kept exactly
    when [r] is below [0.1] and the norm of [x] is at most 2 and not 0.
    Every further stage (the body of the loop, lines 140-183) keeps in
    [intersections] exactly the Candidates whose residual is below [0.1]:
    no norm is looked at.  The last stage of a search over three baselines
    is a first stage, that of a search over more a further one.
    [intersections_cal], called on the buffers of a first stage with their
    norms under the keyword ['norm'], or on those of a further stage
    without the keyword, selects the positions the stage selects.  Over the
    reals the three comparisons read [r < 0.1] and [0 < norm <= 2], the
    norm being a square root. *)
Theorem candidate_survives :
  (∀ st, stage3 pinv R0 n0 K k_length = Returns st →
     take_indices (stage_PERMS_J st) (stage_intersections_ind st)
     = Returns (stage_intersections st) ∧
     ∀ aux j, stage_PERMS_J st !! aux = Some j →
       ∃ b x r,
         b_vector [0; 1; 2]%nat j R0 n0 K = Returns b ∧
         mooore_penrose_solution pinv (W_matrix R0 3) b = Returns (x, r) ∧
         (aux ∈ stage_intersections_ind st ↔
          fltb r tenth = true ∧ fleb (norm3 x) (of_int 2) = true ∧
          feqb (norm3 x) (of_int 0) = false) ∧
         (j ∈ stage_intersections st ↔
          fltb r tenth = true ∧ fleb (norm3 x) (of_int 2) = true ∧
          feqb (norm3 x) (of_int 0) = false)) ∧
  (∀ ii prev st, stage_next pinv R0 n0 K k_length ii prev = Returns st →
     take_indices (stage_PERMS_J st) (stage_intersections_ind st)
     = Returns (stage_intersections st) ∧
     ∀ aux j, stage_PERMS_J st !! aux = Some j →
       ∃ b x r,
         b_vector (seq 0 (S ii)) j R0 n0 K = Returns b ∧
         mooore_penrose_solution pinv (W_matrix R0 (S ii)) b = Returns (x, r) ∧
         (aux ∈ stage_intersections_ind st ↔ fltb r tenth = true) ∧
         (j ∈ stage_intersections st ↔ fltb r tenth = true)) ∧
  (∀ Sn st SURVIVORS,
     search pinv R0 n0 K k_length Sn = Returns (st, SURVIVORS) →
     (Sn = 3 ∧ stage3 pinv R0 n0 K k_length = Returns st) ∨
     ((3 < Sn)%Z ∧
      ∃ prev, stage_of pinv R0 n0 K k_length (Z.to_nat (Sn - 1)) prev ∧
              stage_next pinv R0 n0 K k_length (Z.to_nat (Sn - 1)) prev
              = Returns st)) ∧
  (∀ st perms Rp kwargs res,
     stage3 pinv R0 n0 K k_length = Returns st →
     kwargs !! "norm"
     = Some (intersection_line_norm (stage_intersection_line st)) →
     intersections_cal (stage_pinv_norm st) perms (stage_intersection_line st)
       Rp kwargs = Returns res →
     indexes res = stage_intersections_ind st) ∧
  (∀ ii prev st perms Rp kwargs res,
     stage_next pinv R0 n0 K k_length ii prev = Returns st →
     kwargs !! "norm" = None →
     intersections_cal (stage_pinv_norm st) perms (stage_intersection_line st)
       Rp kwargs = Returns res →
     indexes res = stage_intersections_ind st) ∧
  (∀ (r : R) (x : vec3 R),
     (fltb r tenth = true ↔ (r < 1 / 10)%R) ∧
     (fltb r tenth = true ∧ fleb (norm3 x) (of_int 2) = true ∧
      feqb (norm3 x) (of_int 0) = false ↔
      (r < 1 / 10 ∧ 0 < sqrt ((vx x)² + (vy x)² + (vz x)²) <= 2)%R)).
Proof.
  split_and!.
  - intros st Hst.
    destruct (stage3_Returns _ _ _ _ _ _ Hst)
      as (bufs & s & HP & Hlen & Heval & Hline & Hnorm & Hind & Hsel).
    split; [done|].
    assert (∀ aux j, stage_PERMS_J st !! aux = Some j →
              ∃ b x r,
                b_vector [0; 1; 2]%nat j R0 n0 K = Returns b ∧
                mooore_penrose_solution pinv (W_matrix R0 3) b = Returns (x, r) ∧
                (aux ∈ stage_intersections_ind st ↔
                 fltb r tenth = true ∧ fleb (norm3 x) (of_int 2) = true ∧
                 feqb (norm3 x) (of_int 0) = false)) as Hpos.
    { intros aux j Hj.
      destruct (evaluated_selection _ _ _ _ _ _ _ _ _ _ _ Hlen Heval Hj)
        as (b & x & r & Hb & Hsol & _ & _ & Hseed & _).
      exists b, x, r. split_and!; [done|done|]. by apply Hseed. }
    intros aux j Hj. destruct (Hpos aux j Hj) as (b & x & r & Hb & Hsol & Hiff).
    exists b, x, r. split_and!; [done|done|done|].
    rewrite (survivors_elem _ _ _
               (λ j', ∃ b' x' r',
                  b_vector [0; 1; 2]%nat j' R0 n0 K = Returns b' ∧
                  mooore_penrose_solution pinv (W_matrix R0 3) b'
                  = Returns (x', r') ∧
                  fltb r' tenth = true ∧ fleb (norm3 x') (of_int 2) = true ∧
                  feqb (norm3 x') (of_int 0) = false) j Hsel).
    + split.
      * intros (b' & x' & r' & Hb' & Hsol' & Ht).
        rewrite Hb in Hb'. injection Hb' as <-.
        rewrite Hsol in Hsol'. by injection Hsol' as <- <-.
      * intros Ht. by exists b, x, r.
    + intros aux' j' Hj'.
      destruct (Hpos aux' j' Hj') as (b' & x' & r' & Hb' & Hsol' & Hiff').
      rewrite Hiff'. split.
      * intros Ht. by exists b', x', r'.
      * intros (b'' & x'' & r'' & Hb'' & Hsol'' & Ht).
        rewrite Hb' in Hb''. injection Hb'' as <-.
        rewrite Hsol' in Hsol''. by injection Hsol'' as <- <-.
    + by eapply list_elem_of_lookup_2.
  - intros ii prev st Hst.
    destruct (stage_next_Returns _ _ _ _ _ _ _ _ Hst)
      as (bufs & s & HP & Hlen & Heval & Hline & Hnorm & Hind & Hsel).
    split; [done|].
    assert (∀ aux j, stage_PERMS_J st !! aux = Some j →
              ∃ b x r,
                b_vector (seq 0 (S ii)) j R0 n0 K = Returns b ∧
                mooore_penrose_solution pinv (W_matrix R0 (S ii)) b
                = Returns (x, r) ∧
                (aux ∈ stage_intersections_ind st ↔ fltb r tenth = true))
      as Hpos.
    { intros aux j Hj.
      destruct (evaluated_selection _ _ _ _ _ _ _ _ _ _ _ Hlen Heval Hj)
        as (b & x & r & Hb & Hsol & _ & _ & _ & Hres).
      exists b, x, r. split_and!; [done|done|]. by rewrite Hind. }
    intros aux j Hj. destruct (Hpos aux j Hj) as (b & x & r & Hb & Hsol & Hiff).
    exists b, x, r. split_and!; [done|done|done|].
    rewrite (survivors_elem _ _ _
               (λ j', ∃ b' x' r',
                  b_vector (seq 0 (S ii)) j' R0 n0 K = Returns b' ∧
                  mooore_penrose_solution pinv (W_matrix R0 (S ii)) b'
                  = Returns (x', r') ∧
                  fltb r' tenth = true) j Hsel).
    + split.
      * intros (b' & x' & r' & Hb' & Hsol' & Ht).
        rewrite Hb in Hb'. injection Hb' as <-.
        rewrite Hsol in Hsol'. by injection Hsol' as <- <-.
      * intros Ht. by exists b, x, r.
    + intros aux' j' Hj'.
      destruct (Hpos aux' j' Hj') as (b' & x' & r' & Hb' & Hsol' & Hiff').
      rewrite Hiff'. split.
      * intros Ht. by exists b', x', r'.
      * intros (b'' & x'' & r'' & Hb'' & Hsol'' & Ht).
        rewrite Hb' in Hb''. injection Hb'' as <-.
        rewrite Hsol' in Hsol''. by injection Hsol'' as <- <-.
    + by eapply list_elem_of_lookup_2.
  - intros Sn st SURVIVORS Hsearch.
    destruct (search_stage_of _ _ _ _ _ _ _ _ Hsearch) as [HSn Hof].
    inversion Hof as [st' Hst Hm|ii prev st' Hprev Hst Hm]; subst st'.
    + left. split; [lia|done].
    + right. pose proof (stage_of_ge _ _ Hprev) as Hge.
      split; [lia|]. exists prev.
      replace (Z.to_nat (Sn - 1)) with ii by lia. done.
  - intros st perms Rp kwargs res Hst Hkw Hcal.
    destruct (stage3_Returns _ _ _ _ _ _ Hst)
      as (bufs & s & _ & _ & _ & Hline & Hnorm & Hind & _).
    destruct (intersections_cal_indexes_norm _ _ _ _ _ _ _ Hkw Hcal)
      as (mask & Hmask & -> & _).
    unfold intersections3_ind in Hind. rewrite <- Hline, <- Hnorm in Hind.
    rewrite Hmask in Hind. by injection Hind as <-.
  - intros ii prev st perms Rp kwargs res Hst Hkw Hcal.
    destruct (stage_next_Returns _ _ _ _ _ _ _ _ Hst)
      as (bufs & s & _ & _ & _ & Hline & Hnorm & Hind & _).
    destruct (intersections_cal_indexes _ _ _ _ _ _ Hkw Hcal) as (-> & _).
    by rewrite Hind, Hnorm.
  - intros r x. split; [apply fltb_R|apply seed_predicate_R].
Qed.

(** C5: the Candidate lists are exact.  The first stage ([stage3]) lists
    in [PERMS_J], each once, the triples of the full product
    {1..m0} x {1..m1} x {1..m2}, [m_i = int(k_length[i])], so [m0*m1*m2] of
    them, and solves each of them into the slot of its position.  The stage
    of baseline [ii], run after a stage of the search, lists at position
    [p * n + (o - 1)] survivor [p] of that stage extended by the offset
    [o], for every survivor and every [o] in {1..n},
    [n = int(k_length[ii])], and nothing else: its Candidates are the
    survivors extended by one offset, each survivor with each offset
    exactly once, as no stage keeps a survivor twice or lists a Candidate
    twice; and it solves each of them into the slot of its position.
    [permutations_create], called where the stage enumerates, returns the
    pairs of survivor and offset that the stage flattens into its
    Candidates.  The last stage of a search over [Sn] baselines is such a
    stage. *)
Theorem enumeration_exact :
  (∀ st, stage3 pinv R0 n0 K k_length = Returns st →
     ∃ k0 k1 k2 m0 m1 m2,
       k_length !! 0%nat = Some k0 ∧ to_int k0 = Returns m0 ∧
       k_length !! 1%nat = Some k1 ∧ to_int k1 = Returns m1 ∧
       k_length !! 2%nat = Some k2 ∧ to_int k2 = Returns m2 ∧
       NoDup (stage_PERMS_J st) ∧
       length (stage_PERMS_J st)
       = (Z.to_nat m0 * Z.to_nat m1 * Z.to_nat m2)%nat ∧
       (∀ j, j ∈ stage_PERMS_J st ↔
             ∃ a b c, j = [a; b; c] ∧ (1 ≤ a ≤ m0)%Z ∧ (1 ≤ b ≤ m1)%Z ∧
                      (1 ≤ c ≤ m2)%Z) ∧
       (∀ aux j, stage_PERMS_J st !! aux = Some j →
          ∃ b x r,
            b_vector [0; 1; 2]%nat j R0 n0 K = Returns b ∧
            mooore_penrose_solution pinv (W_matrix R0 3) b = Returns (x, r) ∧
            stage_intersection_line st !! aux = Some x ∧
            stage_pinv_norm st !! aux = Some r)) ∧
  (∀ ii prev st,
     stage_of pinv R0 n0 K k_length ii prev →
     stage_next pinv R0 n0 K k_length ii prev = Returns st →
     ∃ k n,
       k_length !! ii = Some k ∧ to_int k = Returns n ∧
       NoDup (stage_intersections prev) ∧
       NoDup (stage_PERMS_J st) ∧
       length (stage_PERMS_J st)
       = (length (stage_intersections prev) * Z.to_nat n)%nat ∧
       (∀ aux j, stage_PERMS_J st !! aux = Some j ↔
          ∃ p s o,
            stage_intersections prev !! p = Some s ∧ (1 ≤ o ≤ n)%Z ∧
            aux = (p * Z.to_nat n + Z.to_nat (o - 1))%nat ∧ j = s ++ [o]) ∧
       (∀ j, j ∈ stage_PERMS_J st ↔
          ∃ s o, s ∈ stage_intersections prev ∧ (1 ≤ o ≤ n)%Z ∧
                 j = s ++ [o]) ∧
       (∀ aux j, stage_PERMS_J st !! aux = Some j →
          ∃ b x r,
            b_vector (seq 0 (S ii)) j R0 n0 K = Returns b ∧
            mooore_penrose_solution pinv (W_matrix R0 (S ii)) b
            = Returns (x, r) ∧
            stage_intersection_line st !! aux = Some x ∧
            stage_pinv_norm st !! aux = Some r)) ∧
  (∀ ii prev st,
     stage_next pinv R0 n0 K k_length ii prev = Returns st →
     ∃ pairs,
       permutations_create (stage_PERMS_J prev) (stage_intersections_ind prev)
         k_length ii = Returns pairs ∧
       stage_PERMS_J st = (λ j, j.1 ++ [j.2]) <$> pairs) ∧
  (∀ Sn st SURVIVORS,
     search pinv R0 n0 K k_length Sn = Returns (st, SURVIVORS) →
     (3 ≤ Sn)%Z ∧ stage_of pinv R0 n0 K k_length (Z.to_nat Sn) st).
Proof.
  split_and!.
  - intros st Hst.
    destruct (stage3_Returns _ _ _ _ _ _ Hst)
      as (bufs & s & HP & Hlen & Heval & Hline & Hnorm & _).
    destruct (PERMS_J3_Returns _ _ HP)
      as (k0 & k1 & k2 & m0 & m1 & m2 & ? & ? & ? & ? & ? & ? & Hnd & Hn & Hin).
    exists k0, k1, k2, m0, m1, m2. split_and!; try done.
    intros aux j Hj.
    destruct (evaluated_selection _ _ _ _ _ _ _ _ _ _ _ Hlen Heval Hj)
      as (b & x & r & Hb & Hsol & Hx & Hr & _).
    exists b, x, r. by rewrite Hline, Hnorm.
  - intros ii prev st Hprev Hst.
    destruct (stage_of_NoDup _ _ _ _ _ _ _ Hprev) as (Hnd & Hndi & Hnds & Hsel).
    destruct (stage_next_Returns _ _ _ _ _ _ _ _ Hst)
      as (bufs & s & HP & Hlen & Heval & Hline & Hnorm & _).
    destruct (stage_positions _ _ _ _ _ HP) as (k & n & Hk & Hn & Hcount & Hat).
    assert (∀ aux j, stage_PERMS_J st !! aux = Some j ↔
              ∃ p s o,
                stage_intersections prev !! p = Some s ∧ (1 ≤ o ≤ n)%Z ∧
                aux = (p * Z.to_nat n + Z.to_nat (o - 1))%nat ∧ j = s ++ [o])
      as Hat'.
    { intros aux j. rewrite Hat. split.
      + intros (p & i & s' & o & Hp & Hi & Ho & -> & ->).
        exists p, s', o. split; [|done].
        apply (take_indices_lookup _ _ _ _ _ Hsel). by exists i.
      + intros (p & s' & o & Hp & Ho & -> & ->).
        apply (take_indices_lookup _ _ _ _ _ Hsel) in Hp as (i & Hi & Hs).
        by exists p, i, s', o. }
    exists k, n. split_and!; try done.
    + apply (PERMS_J_stage_NoDup _ _ _ _ _ Hnd Hndi HP).
    + by rewrite Hcount, (take_indices_length _ _ _ Hsel).
    + intros j. rewrite list_elem_of_lookup. split.
      * intros (aux & Haux). apply Hat' in Haux as (p & s' & o & Hp & Ho & _ & ->).
        exists s', o. split; [by eapply list_elem_of_lookup_2|done].
      * intros (s' & o & Hs & Ho & ->).
        apply list_elem_of_lookup in Hs as [p Hp].
        exists (p * Z.to_nat n + Z.to_nat (o - 1))%nat.
        apply Hat'. by exists p, s', o.
    + intros aux j Hj.
      destruct (evaluated_selection _ _ _ _ _ _ _ _ _ _ _ Hlen Heval Hj)
        as (b & x & r & Hb & Hsol & Hx & Hr & _).
      exists b, x, r. by rewrite Hline, Hnorm.
  - intros ii prev st Hst.
    destruct (stage_next_Returns _ _ _ _ _ _ _ _ Hst) as (bufs & s & HP & _).
    unfold PERMS_J_stage in HP.
    apply bind_Returns in HP as (rows & Hrows & HP).
    apply bind_Returns in HP as (ks & Hks & [= HP]).
    exists (cprod rows ks). split; [|by rewrite <- HP].
    unfold permutations_create. by rewrite Hrows, Hks.
  - intros Sn st SURVIVORS. apply search_stage_of.
Qed.
End StageClaims.

Section StageExamples.
Import PrimFloat.

(** Four baselines in binary64: 125 Candidates at the first stage, of
    which the first stage keeps 12, and 108 at the stage of the fourth
    baseline.  [[1; 3; 1]] solves its system (residual 0, norm 2) and is
    kept; [[3; 3; 3]] solves it with the zero vector and [[1; 4; 2]] with a
    vector of norm above 2: both have residual 0, and the first stage drops
    them for their norms.  At the next stage [[1; 3; 1; 1]] is kept, and
    [[1; 3; 1; 2]], of residual above [0.1], is not. *)
Lemma candidate_survives_witness :
  ∃ st3 st4,
    stage3 pinv_planar [Vec3 1 0 0; Vec3 0 1 0; Vec3 1 1 0; Vec3 2 1 0]%float
      (n0_cal (linCoeff_cal [Vec3 1 0 0; Vec3 0 1 0; Vec3 1 1 0; Vec3 2 1 0]%float))
      (linCoeff_cal [Vec3 1 0 0; Vec3 0 1 0; Vec3 1 1 0; Vec3 2 1 0]%float)
      (k_length_cal
         (n0_cal (linCoeff_cal [Vec3 1 0 0; Vec3 0 1 0; Vec3 1 1 0; Vec3 2 1 0]%float)))
    = Returns st3 ∧
    stage_next pinv_planar [Vec3 1 0 0; Vec3 0 1 0; Vec3 1 1 0; Vec3 2 1 0]%float
      (n0_cal (linCoeff_cal [Vec3 1 0 0; Vec3 0 1 0; Vec3 1 1 0; Vec3 2 1 0]%float))
      (linCoeff_cal [Vec3 1 0 0; Vec3 0 1 0; Vec3 1 1 0; Vec3 2 1 0]%float)
      (k_length_cal
         (n0_cal (linCoeff_cal [Vec3 1 0 0; Vec3 0 1 0; Vec3 1 1 0; Vec3 2 1 0]%float)))
      3 st3 = Returns st4 ∧
    [1; 3; 1] ∈ stage_intersections st3 ∧
    [3; 3; 3] ∈ stage_PERMS_J st3 ∧ ([3; 3; 3] ∉ stage_intersections st3) ∧
    [1; 4; 2] ∈ stage_PERMS_J st3 ∧ ([1; 4; 2] ∉ stage_intersections st3) ∧
    [1; 3; 1; 1] ∈ stage_intersections st4 ∧
    [1; 3; 1; 2] ∈ stage_PERMS_J st4 ∧ [1; 3; 1; 2] ∉ stage_intersections st4.
Proof.
  eexists _, _.
  match goal with
  | |- ?H ∧ _ => assert H as H3 by (vm_compute; reflexivity)
  end.
  split; [exact H3|].
  match goal with
  | |- ?H ∧ _ => assert H as H4 by (vm_compute; reflexivity)
  end.
  split; [exact H4|].
  destruct (candidate_survives pinv_planar
              [Vec3 1 0 0; Vec3 0 1 0; Vec3 1 1 0; Vec3 2 1 0]%float
              (n0_cal (linCoeff_cal [Vec3 1 0 0; Vec3 0 1 0; Vec3 1 1 0; Vec3 2 1 0]%float))
              (linCoeff_cal [Vec3 1 0 0; Vec3 0 1 0; Vec3 1 1 0; Vec3 2 1 0]%float)
              (k_length_cal
                 (n0_cal (linCoeff_cal [Vec3 1 0 0; Vec3 0 1 0; Vec3 1 1 0; Vec3 2 1 0]%float))))
    as (Hseed & Hlater & _).
  destruct (Hseed _ H3) as [_ Hseed3]. destruct (Hlater _ _ _ H4) as [_ Hlater4].
  split_and!.
  - destruct (Hseed3 10%nat [1; 3; 1] eq_refl) as (b & x & r & Hb & Hsol & _ & Hiff).
    vm_compute in Hb. injection Hb as <-.
    vm_compute in Hsol. injection Hsol as <- <-.
    apply Hiff. vm_compute. repeat split.
  - apply (list_elem_of_lookup_2 _ 62%nat). reflexivity.
  - destruct (Hseed3 62%nat [3; 3; 3] eq_refl) as (b & x & r & Hb & Hsol & _ & Hiff).
    vm_compute in Hb. injection Hb as <-.
    vm_compute in Hsol. injection Hsol as <- <-.
    intros Hin. apply Hiff in Hin as (_ & _ & Hzero).
    vm_compute in Hzero. discriminate Hzero.
  - apply (list_elem_of_lookup_2 _ 16%nat). reflexivity.
  - destruct (Hseed3 16%nat [1; 4; 2] eq_refl) as (b & x & r & Hb & Hsol & _ & Hiff).
    vm_compute in Hb. injection Hb as <-.
    vm_compute in Hsol. injection Hsol as <- <-.
    intros Hin. apply Hiff in Hin as (_ & Hle & _).
    vm_compute in Hle. discriminate Hle.
  - destruct (Hlater4 0%nat [1; 3; 1; 1] eq_refl)
      as (b & x & r & Hb & Hsol & _ & Hiff).
    vm_compute in Hb. injection Hb as <-.
    vm_compute in Hsol. injection Hsol as <- <-.
    apply Hiff. vm_compute. reflexivity.
  - apply (list_elem_of_lookup_2 _ 1%nat). reflexivity.
  - destruct (Hlater4 1%nat [1; 3; 1; 2] eq_refl)
      as (b & x & r & Hb & Hsol & _ & Hiff).
    vm_compute in Hb. injection Hb as <-.
    vm_compute in Hsol. injection Hsol as <- <-.
    intros Hin. apply Hiff in Hin. vm_compute in Hin. discriminate Hin.
Defined.

(** The same search: the first stage lists the 5 x 5 x 5 triples, the
    stage of the fourth baseline the 12 survivors under each of the 9
    offsets, the second survivor [[2; 2; 1]] with the offset 2 at position
    1 * 9 + 1. *)
Lemma enumeration_exact_witness :
  ∃ st3 st4,
    stage3 pinv_planar [Vec3 1 0 0; Vec3 0 1 0; Vec3 1 1 0; Vec3 2 1 0]%float
      (n0_cal (linCoeff_cal [Vec3 1 0 0; Vec3 0 1 0; Vec3 1 1 0; Vec3 2 1 0]%float))
      (linCoeff_cal [Vec3 1 0 0; Vec3 0 1 0; Vec3 1 1 0; Vec3 2 1 0]%float)
      (k_length_cal
         (n0_cal (linCoeff_cal [Vec3 1 0 0; Vec3 0 1 0; Vec3 1 1 0; Vec3 2 1 0]%float)))
    = Returns st3 ∧
    stage_next pinv_planar [Vec3 1 0 0; Vec3 0 1 0; Vec3 1 1 0; Vec3 2 1 0]%float
      (n0_cal (linCoeff_cal [Vec3 1 0 0; Vec3 0 1 0; Vec3 1 1 0; Vec3 2 1 0]%float))
      (linCoeff_cal [Vec3 1 0 0; Vec3 0 1 0; Vec3 1 1 0; Vec3 2 1 0]%float)
      (k_length_cal
         (n0_cal (linCoeff_cal [Vec3 1 0 0; Vec3 0 1 0; Vec3 1 1 0; Vec3 2 1 0]%float)))
      3 st3 = Returns st4 ∧
    NoDup (stage_PERMS_J st3) ∧ length (stage_PERMS_J st3) = 125%nat ∧
    [5; 1; 4] ∈ stage_PERMS_J st3 ∧
    stage_intersections st3 !! 1%nat = Some [2; 2; 1] ∧
    NoDup (stage_PERMS_J st4) ∧ length (stage_PERMS_J st4) = 108%nat ∧
    stage_PERMS_J st4 !! 10%nat = Some [2; 2; 1; 2] ∧
    [2; 2; 1; 2] ∈ stage_PERMS_J st4.
Proof.
  eexists _, _.
  match goal with
  | |- ?H ∧ _ => assert H as H3 by (vm_compute; reflexivity)
  end.
  split; [exact H3|].
  match goal with
  | |- ?H ∧ _ => assert H as H4 by (vm_compute; reflexivity)
  end.
  split; [exact H4|].
  destruct (enumeration_exact pinv_planar
              [Vec3 1 0 0; Vec3 0 1 0; Vec3 1 1 0; Vec3 2 1 0]%float
              (n0_cal (linCoeff_cal [Vec3 1 0 0; Vec3 0 1 0; Vec3 1 1 0; Vec3 2 1 0]%float))
              (linCoeff_cal [Vec3 1 0 0; Vec3 0 1 0; Vec3 1 1 0; Vec3 2 1 0]%float)
              (k_length_cal
                 (n0_cal (linCoeff_cal [Vec3 1 0 0; Vec3 0 1 0; Vec3 1 1 0; Vec3 2 1 0]%float))))
    as (Hfirst & Hnext & _).
  destruct (Hfirst _ H3)
    as (k0 & k1 & k2 & m0 & m1 & m2 & Hk0 & Hm0 & Hk1 & Hm1 & Hk2 & Hm2
        & Hnd3 & Hlen3 & Hin3 & _).
  vm_compute in Hk0, Hk1, Hk2.
  injection Hk0 as <-. injection Hk1 as <-. injection Hk2 as <-.
  vm_compute in Hm0, Hm1, Hm2.
  injection Hm0 as <-. injection Hm1 as <-. injection Hm2 as <-.
  destruct (Hnext 3%nat _ _ (stage_of_first _ _ _ _ _ _ H3) H4)
    as (k & n & Hk & Hn & _ & Hnd4 & Hlen4 & Hat4 & Hin4 & _).
  vm_compute in Hk. injection Hk as <-. vm_compute in Hn. injection Hn as <-.
  split_and!.
  - exact Hnd3.
  - exact Hlen3.
  - apply Hin3. exists 5, 1, 4. split; [reflexivity|lia].
  - reflexivity.
  - exact Hnd4.
  - exact Hlen4.
  - apply Hat4. exists 1%nat, [2; 2; 1], 2.
    split; [reflexivity|]. split; [lia|]. split; reflexivity.
  - apply Hin4. exists [2; 2; 1], 2.
    split; [|split; [lia|reflexivity]].
    apply (list_elem_of_lookup_2 _ 1%nat). reflexivity.
Defined.
End StageExamples.



(** ** Parallel evaluation: the job ranges *)

Lemma round53_small (q : Z) : 0 ≤ q < 2 ^ 53 → round53 q = q.
Proof.
  intros Hq. unfold round53.
  destruct (Z.leb_spec (Z.log2 q - 52) 0) as [_|Hd]; [done|].
  assert (Z.log2 q < 53); [|lia].
  destruct (decide (q = 0)) as [->|]; [done|].
  apply Z.log2_lt_pow2; lia.
Qed.

Lemma round53_bounds (q : Z) : 1 ≤ q → 1 ≤ round53 q ≤ 2 * q.
Proof.
  intros Hq. unfold round53.
  destruct (Z.leb_spec (Z.log2 q - 52) 0) as [_|Hd]; [lia|].
  set (d := Z.log2 q - 52) in *.
  assert (0 < 2 ^ d) as Hpow by (apply Z.pow_pos_nonneg; lia).
  assert (2 ^ d ≤ q) as Hle.
  { transitivity (2 ^ Z.log2 q); [apply Z.pow_le_mono_r; lia|].
    apply Z.log2_spec. lia. }
  pose proof (Z.div_mod q (2 ^ d) ltac:(lia)) as Hdm.
  pose proof (Z.mod_pos_bound q (2 ^ d) Hpow) as Hmod.
  assert (1 ≤ q / 2 ^ d) as Hm by (apply Z.div_le_lower_bound; lia).
  set (m := q / 2 ^ d) in *.
  destruct ((2 ^ (d - 1) <? q mod 2 ^ d)
            || (q mod 2 ^ d =? 2 ^ (d - 1)) && Z.odd m); nia.
Qed.

(** [round53] is the rounding of binary64: on some integers beyond 2^53,
    ties among them, it gives what converting to [float] and back gives. *)
Example round53_is_binary64 :
  Forall (λ q, Float64.int_of_float (Float64.float_of_int q) = Returns (round53 q))
         [2 ^ 53 + 1; 2 ^ 53 + 3; 2 ^ 60 + 2 ^ 7; 2 ^ 60 + 3 * 2 ^ 7;
          2 ^ 60 + 2 ^ 7 + 1; 123456789123456789123; 9007199254740993 * 2 ^ 900].
Proof. repeat constructor. Qed.

(** For at least one worker and a Candidate count an array can have,
    the chunk length is computed, and is positive when there is a Candidate. *)
Lemma par_subset_Returns (niter pnum : Z) :
  1 ≤ pnum → 0 ≤ niter < 2 ^ 63 →
  ∃ subset, par_subset niter pnum = Returns subset ∧
            0 ≤ subset ∧ (1 ≤ niter → 1 ≤ subset).
Proof.
  intros Hp Hn. unfold par_subset.
  destruct (Z.eqb_spec pnum 0) as [|_]; [lia|].
  destruct (Z.eqb_spec (niter mod pnum) 0) as [Hmod|_].
  - unfold int_true_div.
    assert (0 ≤ niter / pnum ≤ niter) as Hq.
    { split; [apply Z.div_pos; lia|]. apply Z.div_le_upper_bound; nia. }
    rewrite Z.abs_eq by lia.
    destruct (decide (niter / pnum = 0)) as [Hz|Hnz].
    + rewrite Hz. simpl. exists 0. split; [done|].
      split; [lia|]. intros Hn1.
      pose proof (Z.div_mod niter pnum ltac:(lia)). nia.
    + destruct (round53_bounds (niter / pnum)) as [Hlo Hhi]; [lia|].
      assert (2 ^ 63 < 2 ^ 1023) by (apply Z.pow_lt_mono_r; lia).
      assert (2 ^ 1024 = 2 * 2 ^ 1023) as Hpow by (by rewrite <- Z.pow_succ_r).
      destruct (Z.leb_spec (2 ^ 1024) (round53 (niter / pnum))); [lia|].
      exists (Z.sgn (niter / pnum) * round53 (niter / pnum)).
      rewrite Z.sgn_pos by lia. split; [done|]. lia.
  - exists (niter / pnum + 1). split; [done|].
    assert (0 ≤ niter / pnum) by (apply Z.div_pos; lia). lia.
Qed.

Section JobRanges.
Variables subset niter : Z.
Hypothesis Hsubset : 0 ≤ subset.

(** Where the range of job [j] starts, cut at [niter]. *)
Let lo (j : Z) : Z := Z.min (j * subset) niter.

Lemma lo_mono (j j' : Z) : j ≤ j' → lo j ≤ lo j'.
Proof. unfold lo. intros Hj. apply Z.min_le_compat_r. nia. Qed.

Lemma job_range_seqZ (j : Z) :
  0 ≤ j → job_range subset niter j = seqZ (lo j) (lo (j + 1) - lo j).
Proof.
  intros Hj. unfold job_range, py_range, lo.
  destruct (Z.ltb_spec niter ((j + 1) * subset)) as [Hlt|Hge].
  - rewrite (Z.min_r ((j + 1) * subset)) by lia.
    destruct (Z.le_gt_cases (j * subset) niter).
    + by rewrite Z.min_l by lia.
    + rewrite Z.min_r by lia. rewrite !seqZ_nil by lia. done.
  - rewrite !Z.min_l by nia. done.
Qed.

Lemma concat_spawn_for (n : nat) (j : Z) :
  0 ≤ j →
  concat (spawn_for n subset niter j) = seqZ (lo j) (lo (j + Z.of_nat n) - lo j).
Proof.
  revert j. induction n as [|n IH]; intros j Hj.
  - simpl. rewrite Z.add_0_r, Z.sub_diag. done.
  - cbn [spawn_for concat]. rewrite IH, job_range_seqZ by lia.
    pose proof (lo_mono j (j + 1) ltac:(lia)).
    pose proof (lo_mono (j + 1) (j + 1 + Z.of_nat n) ltac:(lia)).
    replace (j + Z.of_nat (S n)) with (j + 1 + Z.of_nat n) by lia.
    replace (lo (j + 1 + Z.of_nat n) - lo j)
      with ((lo (j + 1) - lo j) + (lo (j + 1 + Z.of_nat n) - lo (j + 1))) by lia.
    rewrite seqZ_app by lia. do 2 f_equal. lia.
Qed.

(** Whatever number of rounds ends the loop, the ranges started, one after
    the other, are the indices from the first not yet handed out up to
    [niter]. *)
Lemma concat_spawn_while (fuel : nat) (pnum j : Z) (jobs : list (list Z)) :
  0 ≤ j →
  spawn_while fuel pnum subset niter j = Some jobs →
  concat jobs = seqZ (lo j) (niter - lo j).
Proof.
  revert j jobs. induction fuel as [|fuel IH]; intros j jobs Hj; simpl.
  - destruct (Z.ltb_spec (j * subset) niter) as [|Hge]; [done|].
    intros [= <-]. unfold lo. rewrite Z.min_r by lia.
    by rewrite Z.sub_diag.
  - destruct (Z.ltb_spec (j * subset) niter) as [Hlt|Hge].
    + destruct (spawn_while fuel pnum subset niter (j + Z.of_nat (Z.to_nat pnum)))
        as [rest|] eqn:Hrest; simpl; [|done].
      intros [= <-]. rewrite concat_app, concat_spawn_for by lia.
      rewrite (IH (j + Z.of_nat (Z.to_nat pnum)) rest ltac:(lia) Hrest).
      set (j' := j + Z.of_nat (Z.to_nat pnum)).
      pose proof (lo_mono j j' ltac:(lia)).
      assert (lo j' ≤ niter) by (unfold lo; lia).
      replace (niter - lo j) with ((lo j' - lo j) + (niter - lo j')) by lia.
      rewrite seqZ_app by lia. do 2 f_equal. lia.
    + intros [= <-]. unfold lo. rewrite Z.min_r by lia.
      by rewrite Z.sub_diag.
Qed.

(** With a positive chunk length and at least one worker the loop ends. *)
Lemma spawn_while_terminates (fuel : nat) (pnum j : Z) :
  1 ≤ pnum → 1 ≤ subset → 0 ≤ j →
  (Z.to_nat (niter - j * subset) ≤ fuel)%nat →
  ∃ jobs, spawn_while fuel pnum subset niter j = Some jobs.
Proof.
  intros Hp Hs. revert j. induction fuel as [|fuel IH]; intros j Hj Hfuel; simpl.
  - destruct (Z.ltb_spec (j * subset) niter); [lia|eauto].
  - destruct (Z.ltb_spec (j * subset) niter); [|eauto].
    destruct (IH (j + Z.of_nat (Z.to_nat pnum))) as [rest ->]; [lia|nia|].
    simpl. eauto.
Qed.
End JobRanges.

(** The job ranges of [mooore_penrose_solution_par]: for at least one worker
    they are computed, and laid end to end they are [range(niter)]. *)
Lemma par_jobs_spec (pnum niter : Z) :
  1 ≤ pnum → 0 ≤ niter < 2 ^ 63 →
  (∃ jobs, par_jobs (Z.to_nat niter) pnum niter = Some (Returns jobs)) ∧
  (∀ fuel r, par_jobs fuel pnum niter = Some r →
             ∃ jobs, r = Returns jobs ∧ concat jobs = py_range 0 niter).
Proof.
  intros Hp Hn. unfold par_jobs.
  destruct (par_subset_Returns niter pnum Hp Hn) as (subset & -> & Hs0 & Hs1).
  split.
  - destruct (decide (niter = 0)) as [->|].
    + simpl. eauto.
    + destruct (spawn_while_terminates subset niter (Z.to_nat niter) pnum 0)
        as [jobs ->]; [lia..|]. simpl. eauto.
  - intros fuel r.
    destruct (spawn_while fuel pnum subset niter 0) as [jobs|] eqn:Hjobs;
      simpl; [|done].
    intros [= <-]. exists jobs. split; [done|].
    rewrite (concat_spawn_while subset niter Hs0 fuel pnum 0 jobs ltac:(lia) Hjobs).
    unfold py_range. rewrite Z.mul_0_l, Z.min_l by lia. done.
Qed.

(** ** Parallel evaluation: the stores *)

Lemma apply_write_commute {F} (s : buffers F) (w1 w2 : write F) :
  slot w1 ≠ slot w2 →
  apply_write (apply_write s w1) w2 = apply_write (apply_write s w2) w1.
Proof.
  destruct w1 as [n1 r1|n1 x1], w2 as [n2 r2|n2 x2]; simpl; intros Hne;
    try done; f_equal; apply list_insert_insert_ne; congruence.
Qed.

Lemma apply_write_length {F} (s : buffers F) (w : write F) :
  length (intersection_line_set (apply_write s w)) = length (intersection_line_set s) ∧
  length (pinv_norm_set (apply_write s w)) = length (pinv_norm_set s).
Proof. destruct w; simpl; by rewrite length_insert. Qed.

(** A write whose slot none of the writes before it touches can as well go
    first. *)
Lemma apply_writes_middle {F} (s : buffers F) (A B : list (write F)) (w : write F) :
  slot w ∉ slot <$> A →
  foldl apply_write s (A ++ w :: B) = foldl apply_write (apply_write s w) (A ++ B).
Proof.
  revert s. induction A as [|a A IH]; intros s Hw; [done|].
  rewrite fmap_cons, not_elem_of_cons in Hw. destruct Hw as [Hne Hw].
  simpl. rewrite IH by done. by rewrite apply_write_commute.
Qed.

Section StoreFacts.
Context {F : Type} `{!Arith F}.
Variables W Wpinv : list (vec3 F).
Variable b_set : list (list F).

Lemma exec_store_resolve (o : store) (s : buffers F) :
  exec_store W Wpinv b_set o s
  = w ← resolve W Wpinv b_set (length (intersection_line_set s))
                 (length (pinv_norm_set s)) o;
    Returns (apply_write s w).
Proof.
  destruct o as [ind|ind]; simpl; unfold setitemZ.
  - destruct (getitemZ b_set ind) as [b|]; simpl; [|done].
    destruct (solution_check W Wpinv b) as [check|]; simpl; [|done].
    by destruct (norm_index _ ind).
  - destruct (getitemZ b_set ind) as [b|]; simpl; [|done].
    destruct (pinv_dot Wpinv b) as [x|]; simpl; [|done].
    by destruct (norm_index _ ind).
Qed.

Lemma ptr_body_stores (ind : Z) (s : buffers F) :
  ptr_body W Wpinv b_set ind s
  = s' ← exec_store W Wpinv b_set (StoreNorm ind) s;
    exec_store W Wpinv b_set (StoreLine ind) s'.
Proof.
  unfold ptr_body, exec_store.
  destruct (getitemZ b_set ind) as [b|]; simpl; [|done].
  destruct (solution_check W Wpinv b) as [check|]; simpl; [|done].
  destruct (setitemZ (pinv_norm_set s) ind _) as [norms|]; simpl; [|done].
  by destruct (pinv_dot Wpinv b) as [x|].
Qed.

(** A sequential call that returns has applied, in order, the writes of the
    stores of its index range. *)
Lemma ptr_Returns (ind_range : list Z) :
  ∀ s s', mooore_penrose_solution_ptr W Wpinv b_set s ind_range = Returns s' →
    ∃ ws, Forall2 (resolves W Wpinv b_set (length (intersection_line_set s))
                            (length (pinv_norm_set s)))
                  (thread_of ind_range) ws ∧
          s' = foldl apply_write s ws.
Proof.
  induction ind_range as [|ind rest IH]; intros s s'; simpl.
  - intros [= <-]. exists []. split; [constructor|done].
  - rewrite bind_Returns. intros (s1 & Hbody & Hrest).
    rewrite ptr_body_stores in Hbody.
    apply bind_Returns in Hbody as (s0 & Hn & Hl).
    rewrite exec_store_resolve in Hn, Hl.
    apply bind_Returns in Hn as (w1 & Hw1 & [= <-]).
    apply bind_Returns in Hl as (w2 & Hw2 & [= <-]).
    destruct (apply_write_length s w1) as [Hl1 Hn1].
    destruct (apply_write_length (apply_write s w1) w2) as [Hl2 Hn2].
    rewrite Hl1, Hn1 in Hw2.
    destruct (IH _ _ Hrest) as (ws & Hws & ->).
    rewrite Hl2, Hn2, Hl1, Hn1 in Hws.
    exists (w1 :: w2 :: ws). split; [|done].
    change (thread_of (ind :: rest))
      with ([StoreNorm ind; StoreLine ind] ++ thread_of rest).
    by repeat constructor.
Qed.

(** A resolved store of a non-negative index goes to the slot of that
    index. *)
Lemma resolves_slots (len_lines len_norms : nat) (ind_range : list Z) ws :
  Forall (λ ind, 0 ≤ ind) ind_range →
  Forall2 (resolves W Wpinv b_set len_lines len_norms) (thread_of ind_range) ws →
  slot <$> ws = ind ← ind_range; [(true, Z.to_nat ind); (false, Z.to_nat ind)].
Proof.
  intros Hpos. revert ws. induction Hpos as [|ind rest Hind _ IH]; intros ws.
  - intros Hws. by inversion Hws.
  - change (thread_of (ind :: rest))
      with (StoreNorm ind :: StoreLine ind :: thread_of rest).
    intros Hws. inversion Hws as [|? w1 ? ws1 Hw1 Hws1]; subst.
    inversion Hws1 as [|? w2 ? ws2 Hw2 Hws2]; subst.
    rewrite !fmap_cons, (IH _ Hws2).
    assert (∀ len n, norm_index len ind = Returns n → n = Z.to_nat ind) as Hidx.
    { intros len n. unfold norm_index. repeat case_decide; try done.
      - by intros [= <-].
      - lia. }
    unfold resolves, resolve in Hw1, Hw2.
    apply bind_Returns in Hw1 as (b1 & _ & Hw1).
    apply bind_Returns in Hw1 as (c1 & _ & Hw1).
    apply bind_Returns in Hw1 as (n1 & Hn1 & [= <-]).
    apply bind_Returns in Hw2 as (b2 & _ & Hw2).
    apply bind_Returns in Hw2 as (x2 & _ & Hw2).
    apply bind_Returns in Hw2 as (n2 & Hn2 & [= <-]).
    apply Hidx in Hn1, Hn2. subst. done.
Qed.
End StoreFacts.

Lemma NoDup_slots (l : list Z) :
  Forall (λ ind, 0 ≤ ind) l → NoDup l →
  NoDup (ind ← l; [(true, Z.to_nat ind); (false, Z.to_nat ind)]).
Proof.
  intros Hpos Hnd. apply NoDup_bind; [| |done].
  - rewrite Forall_forall in Hpos.
    intros i i' y Hi Hi' Hy Hy'.
    apply Hpos in Hi, Hi'.
    rewrite !elem_of_cons, elem_of_nil in Hy, Hy'.
    destruct Hy as [->|[->|[]]], Hy' as [[=]|[[=]|[]]]; lia.
  - intros i _. apply NoDup_cons. split; [|apply NoDup_singleton].
    rewrite list_elem_of_singleton. congruence.
Qed.

Section PoolFacts.
Context {F : Type} `{!Arith F}.
Variables W Wpinv : list (vec3 F).
Variable b_set : list (list F).
Variables len_lines len_norms : nat.
Variable final : buffers F.

Local Abbreviation invariant :=
  (pool_invariant W Wpinv b_set len_lines len_norms final).

Lemma concat_pick {A} (pre post : list (list A)) (o : A) (rest : list A) :
  concat (pre ++ (o :: rest) :: post) = concat pre ++ o :: (rest ++ concat post) ∧
  concat (pre ++ rest :: post) = concat pre ++ (rest ++ concat post) ∧
  concat (pre ++ [] :: post) = concat pre ++ concat post.
Proof. by rewrite !concat_app, !concat_cons. Qed.

(** A store that the invariant covers goes through, and leaves the
    invariant standing with a store less to come. *)
Lemma invariant_store pre o rest post s :
  invariant (pre ++ (o :: rest) :: post, s) →
  ∃ s', exec_store W Wpinv b_set o s = Returns s' ∧
        invariant (pre ++ rest :: post, s').
Proof.
  intros (Hl & Hn & ws & Hws & Hnd & Hfin). simpl in *.
  destruct (concat_pick pre post o rest) as (Hc & Hc' & _).
  rewrite Hc in Hws.
  apply Forall2_app_inv_l in Hws as (wsA & ws' & HA & Hws & ->).
  apply Forall2_cons_inv_l in Hws as (w & wsB & Hw & HB & ->).
  exists (apply_write s w). split.
  - rewrite exec_store_resolve, Hl, Hn. unfold resolves in Hw. by rewrite Hw.
  - destruct (apply_write_length s w) as [Hl' Hn'].
    split_and!; simpl; [congruence|congruence|].
    exists (wsA ++ wsB). rewrite Hc'.
    rewrite fmap_app, fmap_cons in Hnd.
    apply NoDup_app in Hnd as (HndA & Hdisj & HndB).
    apply NoDup_cons in HndB as [HwB HndB].
    split_and!.
    + by apply Forall2_app.
    + rewrite fmap_app. apply NoDup_app. split_and!; [done| |done].
      intros x Hx HxB. apply (Hdisj x Hx). by right.
    + rewrite <- Hfin. symmetry. apply apply_writes_middle.
      intros Hin. apply (Hdisj _ Hin). by left.
Qed.

Lemma invariant_step c c' :
  pool_step W Wpinv b_set c c' → invariant c → invariant c'.
Proof.
  intros Hstep Hinv. destruct Hstep as [pre o rest post s s' Hexec
                                       |pre o rest post s e Hexec].
  - destruct (invariant_store _ _ _ _ _ Hinv) as (s'' & Hexec' & Hinv').
    congruence.
  - destruct (invariant_store _ _ _ _ _ Hinv) as (s'' & Hexec' & _).
    congruence.
Qed.

Lemma invariant_steps c c' :
  rtc (pool_step W Wpinv b_set) c c' → invariant c → invariant c'.
Proof. induction 1 as [|c1 c2 c3 Hstep _ IH]; [done|]. intros Hinv.
  apply IH. by eapply invariant_step. Qed.

Lemma joined_concat (threads : list (list store)) :
  joined threads → concat threads = [].
Proof.
  unfold joined. induction 1 as [|t threads -> _ IH]; [done|]. by simpl.
Qed.

(** Joined threads under the invariant have left the buffers as [final]. *)
Lemma invariant_joined threads s :
  invariant (threads, s) → joined threads → s = final.
Proof.
  intros (_ & _ & ws & Hws & _ & Hfin) Hj. simpl in *.
  rewrite (joined_concat _ Hj) in Hws. by inversion Hws; subst.
Qed.

Lemma joined_or_pick (threads : list (list store)) :
  joined threads ∨ ∃ pre o rest post, threads = pre ++ (o :: rest) :: post.
Proof.
  induction threads as [|t threads [Hj|(pre & o & rest & post & ->)]].
  - left. constructor.
  - destruct t as [|o rest].
    + left. by constructor.
    + right. by exists [], o, rest, threads.
  - right. by exists (t :: pre), o, rest, post.
Qed.

(** Under the invariant the pool can run until all its threads are joined. *)
Lemma invariant_runs (n : nat) :
  ∀ threads s, length (concat threads) = n → invariant (threads, s) →
    ∃ threads' s', rtc (pool_step W Wpinv b_set) (threads, s) (threads', s')
                   ∧ joined threads'.
Proof.
  induction n as [n IH] using lt_wf_ind. intros threads s Hlen Hinv.
  destruct (joined_or_pick threads) as [Hj|(pre & o & rest & post & ->)].
  - exists threads, s. split; [apply rtc_refl|done].
  - destruct (invariant_store _ _ _ _ _ Hinv) as (s1 & Hexec & Hinv1).
    destruct (concat_pick pre post o rest) as (Hc & Hc' & _).
    destruct (IH (length (concat (pre ++ rest :: post)))) with
      (threads := pre ++ rest :: post) (s := s1)
      as (threads' & s' & Hrun & Hj); [|done|done|].
    + rewrite <- Hlen, Hc, Hc', !length_app. simpl. rewrite !length_app. lia.
    + exists threads', s'. split; [|done].
      eapply rtc_l; [|exact Hrun]. by constructor.
Qed.
End PoolFacts.

Lemma thread_of_concat (jobs : list (list Z)) :
  concat (thread_of <$> jobs) = thread_of (concat jobs).
Proof.
  induction jobs as [|r jobs IH]; [done|].
  rewrite fmap_cons, !concat_cons, IH. unfold thread_of. by rewrite bind_app.
Qed.

Lemma elem_of_concat {A} (x : A) (ls : list (list A)) :
  x ∈ concat ls ↔ ∃ l, x ∈ l ∧ l ∈ ls.
Proof.
  induction ls as [|l' ls IH]; simpl.
  - rewrite elem_of_nil. split; [done|]. intros (l & _ & Hl). by inversion Hl.
  - rewrite elem_of_app, IH. split.
    + intros [Hx|(l & Hx & Hl)]; [exists l'|exists l]; split; auto.
      * by left.
      * by right.
    + intros (l & Hx & Hl). apply elem_of_cons in Hl as [->|Hl]; eauto.
Qed.

(** Ranges whose concatenation has no repeat are pairwise disjoint. *)
Lemma NoDup_concat_disjoint {A} (ls : list (list A)) (t t' : nat) (r r' : list A) x :
  NoDup (concat ls) → ls !! t = Some r → ls !! t' = Some r' →
  x ∈ r → x ∈ r' → t = t'.
Proof.
  revert t t'. induction ls as [|l ls IH]; intros t t' Hnd Ht Ht' Hx Hx'; [done|].
  rewrite concat_cons in Hnd. apply NoDup_app in Hnd as (_ & Hdisj & Hnd).
  assert (∀ u q, ls !! u = Some q → x ∈ q → x ∈ concat ls) as Hin.
  { intros u q Hu Hq. apply elem_of_concat. exists q.
    split; [done|]. by eapply list_elem_of_lookup_2. }
  destruct t as [|t], t' as [|t']; simpl in *; simplify_eq.
  - done.
  - exfalso. eapply Hdisj; [exact Hx|]. by eapply Hin.
  - exfalso. eapply Hdisj; [exact Hx'|]. by eapply Hin.
  - f_equal. by eapply IH.
Qed.

Section ParallelClaims.
Context {F : Type} `{!Arith F}.
Variable pinv : list (vec3 F) → outcome (list (vec3 F)).

(** A round of [mooore_penrose_solution_ptr] at a position [i] stores there
    what [mooore_penrose_solution] returns for column [i] of [b_set]. *)
Lemma ptr_body_Returns (W Wpinv : list (vec3 F)) (b_set : list (list F))
    (i : nat) (s s' : buffers F) :
  pinv W = Returns Wpinv →
  ptr_body W Wpinv b_set (Z.of_nat i) s = Returns s' →
  ∃ b x r,
    b_set !! i = Some b ∧
    mooore_penrose_solution pinv W b = Returns (x, r) ∧
    (i < length (intersection_line_set s))%nat ∧
    (i < length (pinv_norm_set s))%nat ∧
    s' = Buffers (<[i:=x]> (intersection_line_set s)) (<[i:=r]> (pinv_norm_set s)).
Proof.
  intros HW. unfold ptr_body. rewrite bind_Returns.
  intros (b & Hb & Hrest). apply getitemZ_nat in Hb.
  apply bind_Returns in Hrest as (check & Hcheck & Hrest).
  apply bind_Returns in Hrest as (norms & Hnorms & Hrest).
  apply bind_Returns in Hrest as (x & Hx & Hrest).
  apply bind_Returns in Hrest as (lines & Hlines & [= <-]).
  apply setitemZ_nat in Hnorms as [Hn ->].
  apply setitemZ_nat in Hlines as [Hl ->].
  exists b, x, (norm_list check). split_and!; try done.
  unfold mooore_penrose_solution. rewrite HW. simpl.
  rewrite Hcheck. simpl. by rewrite Hx.
Qed.

(** The sequential call over [range(a, a + n)] leaves in each slot of the
    range the Solution and the residual of its Candidate, and the slots
    before [a] as they were. *)
Lemma ptr_range_Returns (W Wpinv : list (vec3 F)) (b_set : list (list F))
    (n : nat) :
  pinv W = Returns Wpinv →
  ∀ (a : nat) (s s' : buffers F),
    mooore_penrose_solution_ptr W Wpinv b_set s
      (seqZ (Z.of_nat a) (Z.of_nat n)) = Returns s' →
    (∀ q, (q < a)%nat →
          intersection_line_set s' !! q = intersection_line_set s !! q ∧
          pinv_norm_set s' !! q = pinv_norm_set s !! q) ∧
    (∀ p b, (p < n)%nat → b_set !! (a + p)%nat = Some b →
            ∃ x r,
              mooore_penrose_solution pinv W b = Returns (x, r) ∧
              intersection_line_set s' !! (a + p)%nat = Some x ∧
              pinv_norm_set s' !! (a + p)%nat = Some r).
Proof.
  intros HW. induction n as [|n IH]; intros a s s'.
  - rewrite seqZ_nil by lia. intros [= <-]. split; [done|]. intros; lia.
  - rewrite seqZ_cons by lia.
    replace (Z.succ (Z.of_nat a)) with (Z.of_nat (S a)) by lia.
    replace (Z.pred (Z.of_nat (S n))) with (Z.of_nat n) by lia.
    cbn [mooore_penrose_solution_ptr]. rewrite bind_Returns.
    intros (s1 & Hbody & Hrest).
    destruct (ptr_body_Returns _ _ _ _ _ _ HW Hbody)
      as (b & x & r & Hb & Hsol & Hl & Hn & ->).
    destruct (IH _ _ _ Hrest) as [Hbefore Hat]. simpl in Hbefore.
    split.
    + intros q Hq. destruct (Hbefore q) as [-> ->]; [lia|].
      by rewrite !list_lookup_insert_ne by lia.
    + intros [|p] b' Hp Hb'.
      * rewrite Nat.add_0_r in *. assert (b' = b) as -> by congruence.
        exists x, r. destruct (Hbefore a) as [-> ->]; [lia|].
        by rewrite !list_lookup_insert_eq by lia.
      * rewrite <- Nat.add_succ_comm in *. apply (Hat p b'); [lia|done].
Qed.

(** When the sequential call over [range(niter)] returns [s_seq], the pool
    started on job ranges that make up [range(niter)] can run to the end,
    and however its stores interleave it ends on [s_seq]. *)
Lemma par_run_sequential (W Wpinv : list (vec3 F)) (b_set : list (list F))
    (niter : Z) (jobs : list (list Z)) (s0 s_seq : buffers F) :
  concat jobs = py_range 0 niter →
  mooore_penrose_solution_ptr W Wpinv b_set s0 (py_range 0 niter) = Returns s_seq →
  par_run W Wpinv b_set jobs s0 s_seq ∧
  ∀ s', par_run W Wpinv b_set jobs s0 s' → s' = s_seq.
Proof.
  intros Hjobs Hseq.
  destruct (ptr_Returns _ _ _ _ _ _ Hseq) as (ws & Hws & ->).
  assert (Forall (λ ind, 0 ≤ ind) (py_range 0 niter)) as Hpos.
  { apply Forall_seqZ. intros; lia. }
  pose proof (resolves_slots _ _ _ _ _ _ _ Hpos Hws) as Hslots.
  assert (pool_invariant W Wpinv b_set (length (intersection_line_set s0))
            (length (pinv_norm_set s0)) (foldl apply_write s0 ws)
            (thread_of <$> jobs, s0)) as Hinv.
  { split_and!; [done|done|]. exists ws. simpl.
    rewrite thread_of_concat, Hjobs. split_and!; [done| |done].
    rewrite Hslots. apply NoDup_slots; [done|apply NoDup_seqZ]. }
  split.
  - destruct (invariant_runs _ _ _ _ _ _ _ _ _ eq_refl Hinv)
      as (threads' & s' & Hrun & Hj).
    exists threads'. split; [|done].
    pose proof (invariant_steps _ _ _ _ _ _ _ _ Hrun Hinv) as Hinv'.
    by rewrite <- (invariant_joined _ _ _ _ _ _ _ _ Hinv' Hj).
  - intros s' (threads' & Hrun & Hj).
    pose proof (invariant_steps _ _ _ _ _ _ _ _ Hrun Hinv) as Hinv'.
    by apply (invariant_joined _ _ _ _ _ _ _ _ Hinv' Hj).
Qed.

(** C6: for at least one worker, the job ranges of
    [mooore_penrose_solution_par] laid end to end are [range(niter)]: they
    are pairwise disjoint and cover the indices 0..niter-1.  So when the
    sequential evaluation of all [niter] Candidates returns, the parallel
    call returns too, and whatever the interleaving of its threads it
    leaves the very buffers of the sequential evaluation, hence the same
    survivors: in slot [i], the Solution and the residual that
    [mooore_penrose_solution] returns for Candidate [i]. *)
Theorem parallel_is_sequential (W Wpinv : list (vec3 F)) (b_set : list (list F))
    (pnum niter : Z) (s0 s_seq : buffers F) :
  1 ≤ pnum → 0 ≤ niter < 2 ^ 63 →
  pinv W = Returns Wpinv →
  mooore_penrose_solution_ptr W Wpinv b_set s0 (py_range 0 niter) = Returns s_seq →
  (∃ jobs,
     par_jobs (Z.to_nat niter) pnum niter = Some (Returns jobs) ∧
     concat jobs = py_range 0 niter ∧
     (∀ i, 0 ≤ i < niter ↔ ∃ t r, jobs !! t = Some r ∧ i ∈ r) ∧
     (∀ t t' r r' i, jobs !! t = Some r → jobs !! t' = Some r' →
                     i ∈ r → i ∈ r' → t = t')) ∧
  mooore_penrose_solution_par pinv W b_set pnum niter s0 (Returns s_seq) ∧
  (∀ res, mooore_penrose_solution_par pinv W b_set pnum niter s0 res →
          res = Returns s_seq ∧
          ∀ s', res = Returns s' →
                intersections_ind (pinv_norm_set s')
                = intersections_ind (pinv_norm_set s_seq)) ∧
  (∀ (i : nat) b, Z.of_nat i < niter → b_set !! i = Some b →
     ∃ x r,
       mooore_penrose_solution pinv W b = Returns (x, r) ∧
       intersection_line_set s_seq !! i = Some x ∧
       pinv_norm_set s_seq !! i = Some r).
Proof.
  intros Hp Hn HW Hseq.
  destruct (par_jobs_spec pnum niter Hp Hn) as [[jobs Hjobs] Hall].
  destruct (Hall _ _ Hjobs) as (jobs' & [= <-] & Hcat).
  split_and!.
  - exists jobs. split_and!; [done|done|..].
    + intros i. transitivity (i ∈ concat jobs).
      * rewrite Hcat. unfold py_range. rewrite elem_of_seqZ. lia.
      * rewrite elem_of_concat. split.
        -- intros (r & Hi & Hr). apply list_elem_of_lookup in Hr as [t Ht]. eauto.
        -- intros (t & r & Ht & Hi). exists r. split; [done|].
           by eapply list_elem_of_lookup_2.
    + intros t t' r r' i. apply NoDup_concat_disjoint.
      rewrite Hcat. apply NoDup_seqZ.
  - unfold mooore_penrose_solution_par. rewrite HW.
    exists (Z.to_nat niter), (Returns jobs). split; [done|].
    exists s_seq. split; [done|]. by apply (par_run_sequential _ _ _ niter).
  - intros res. unfold mooore_penrose_solution_par. rewrite HW.
    intros (fuel & r & Hr & Hres).
    destruct (Hall _ _ Hr) as (jobs2 & -> & Hcat2).
    destruct Hres as (s' & -> & Hrun).
    apply (par_run_sequential _ _ _ niter _ _ _ Hcat2 Hseq) in Hrun as ->.
    split; [done|]. by intros s' [= <-].
  - intros i b Hi Hb. unfold py_range in Hseq.
    replace (niter - 0) with (Z.of_nat (Z.to_nat niter)) in Hseq by lia.
    destruct (ptr_range_Returns _ _ _ _ HW 0%nat _ _ Hseq) as [_ Hat].
    apply (Hat i b); [lia|done].
Qed.
End ParallelClaims.

Section ParallelExamples.
Import PrimFloat.

Lemma parallel_is_sequential_witness :
  ∃ Wpinv s_seq,
    pinv_planar [Vec3 1 0 0; Vec3 0 1 0; Vec3 1 0 0]%float = Returns Wpinv ∧
    mooore_penrose_solution_ptr [Vec3 1 0 0; Vec3 0 1 0; Vec3 1 0 0]%float Wpinv
      [[1; 2; 3]; [0; 1; 0]; [4; 4; 4]; [2; 0; 1]; [1; 1; 1]]%float
      (Buffers (replicate 5 (Vec3 0 0 0)) (replicate 5 0))%float
      (py_range 0 5) = Returns s_seq ∧
    par_jobs 5 4 5 = Some (Returns [[0; 1]; [2; 3]; [4]; []]) ∧
    mooore_penrose_solution_par pinv_planar
      [Vec3 1 0 0; Vec3 0 1 0; Vec3 1 0 0]%float
      [[1; 2; 3]; [0; 1; 0]; [4; 4; 4]; [2; 0; 1]; [1; 1; 1]]%float 4 5
      (Buffers (replicate 5 (Vec3 0 0 0)) (replicate 5 0))%float (Returns s_seq).
Proof.
  eexists _, _.
  match goal with
  | |- ?H1 ∧ ?H2 ∧ _ =>
      assert H1 as HW by (vm_compute; reflexivity);
      assert H2 as Hseq by (vm_compute; reflexivity)
  end.
  split; [exact HW|]. split; [exact Hseq|]. split; [reflexivity|].
  apply (parallel_is_sequential pinv_planar _ _ _ 4 5 _ _
           ltac:(lia) ltac:(lia) HW Hseq).
Defined.
End ParallelExamples.

(** * Further properties of the code *)

(** ** Geometry *)

Lemma mapM_Returns {A B} (f : A → outcome B) (l : list A) (k : list B) :
  mapM f l = Returns k ↔ Forall2 (λ a b, f a = Returns b) l k.
Proof.
  revert k. induction l as [|a l IH]; intros k; simpl.
  - split; [intros [= <-]; constructor|]. intros HF. by inversion HF.
  - rewrite bind_Returns. split.
    + intros (b & Hb & Hrest). apply bind_Returns in Hrest as (k' & Hk & [= <-]).
      constructor; [done|by apply IH].
    + intros HF. inversion HF as [|? b ? k' Hb Hk]; subst.
      exists b. split; [done|].
      apply bind_Returns. exists k'. split; [by apply IH|done].
Qed.

Section GeometryShapes.
Context {F : Type} `{!Arith F}.
Local Open Scope arith_scope.

Lemma columns_replicate (n : nat) (x y z : F) :
  columns (replicate n x) (replicate n y) (replicate n z) = replicate n (Vec3 x y z).
Proof. induction n as [|n IH]; [done|]. simpl. by rewrite IH. Qed.

Lemma assign_row_single (n : nat) (x : F) : assign_row n [x] = Returns (replicate n x).
Proof.
  unfold assign_row. destruct (decide _) as [Hn|]; [|done].
  simpl in Hn. by subst n.
Qed.

Lemma assign_row_short (n : nat) (src : list F) :
  length src ≠ n → length src ≠ 1%nat → assign_row n src = Raises ValueError.
Proof.
  intros Hn H1. unfold assign_row. rewrite decide_False by done.
  by destruct src as [|x [|y src]].
Qed.

(** A single row of coordinates is stretched over all the baselines. *)
Lemma R_cal_single (n : nat) (p : F * F) :
  R_cal (Z.of_nat n) [p] = Returns (replicate n (Vec3 p.1 p.2 (of_int 0 * p.1))).
Proof.
  unfold R_cal. destruct (Z.ltb_spec (Z.of_nat n) 0); [lia|].
  rewrite Nat2Z.id. destruct n as [|n]; [done|].
  simpl take. rewrite take_nil. simpl fmap.
  rewrite !assign_row_single. simpl. by rewrite columns_replicate.
Qed.

Lemma R_cal_short (sensor_groups : Z) (xycoords : list (F * F)) :
  (Z.of_nat (length xycoords) < sensor_groups)%Z → length xycoords ≠ 1%nat →
  R_cal sensor_groups xycoords = Raises ValueError.
Proof.
  intros Hlen H1. unfold R_cal. destruct (Z.ltb_spec sensor_groups 0); [done|].
  rewrite take_ge by lia.
  by rewrite (assign_row_short _ (xycoords.*1)) by (rewrite length_fmap; lia).
Qed.

(** X1.  [R_cal] raises, and then a [ValueError], exactly when the count of
    baselines is negative or exceeds the rows of coordinates supplied, a
    single row excepted: numpy stretches one row over all the baselines, so
    that [R_cal n [(x, y)]] returns [n] copies of the column [(x, y, 0*x)]. *)
Theorem R_cal_shape_errors (sensor_groups : Z) (xycoords : list (F * F)) :
  (∀ e, R_cal sensor_groups xycoords = Raises e ↔
        e = ValueError ∧
        (sensor_groups < 0 ∨
         Z.of_nat (length xycoords) < sensor_groups ∧ length xycoords ≠ 1%nat)%Z) ∧
  (∀ (n : nat) (p : F * F),
     R_cal (Z.of_nat n) [p]
     = Returns (replicate n (Vec3 p.1 p.2 (of_int 0 * p.1)))).
Proof.
  split; [|apply R_cal_single]. intros e. split.
  - intros He. split; [by apply R_cal_Raises in He|].
    destruct (decide (sensor_groups < 0)%Z) as [|Hsg]; [by left|right].
    destruct (decide (sensor_groups ≤ Z.of_nat (length xycoords))%Z) as [Hle|Hgt].
    { rewrite R_cal_Returns in He by lia. done. }
    split; [lia|]. intros H1.
    destruct xycoords as [|p [|q xy]]; try done.
    rewrite <- (Z2Nat.id sensor_groups), R_cal_single in He by lia. done.
  - intros (-> & [Hneg|[Hlen H1]]).
    + unfold R_cal. by destruct (Z.ltb_spec sensor_groups 0); [|lia].
    + by apply R_cal_short.
Qed.

Lemma R_cal_lookup (sensor_groups : Z) (xycoords : list (F * F)) R j p :
  R_cal sensor_groups xycoords = Returns R →
  (Z.of_nat j < sensor_groups)%Z → xycoords !! j = Some p →
  R !! j = Some (Vec3 p.1 p.2 (of_int 0 * p.1)).
Proof.
  intros HR Hj Hp.
  destruct (decide (sensor_groups ≤ Z.of_nat (length xycoords))%Z) as [Hle|Hgt].
  - rewrite R_cal_Returns in HR by lia. injection HR as <-.
    rewrite list_lookup_fmap, lookup_take_lt by lia. by rewrite Hp.
  - destruct (decide (length xycoords = 1%nat)) as [H1|H1].
    + destruct xycoords as [|q [|q' xy]]; try done.
      destruct j as [|j]; [|done]. injection Hp as ->.
      rewrite <- (Z2Nat.id sensor_groups), R_cal_single in HR by lia.
      injection HR as <-. apply lookup_replicate_2. lia.
    + rewrite R_cal_short in HR by (done || lia). done.
Qed.
End GeometryShapes.

Lemma getitem_Some {A} (l : list A) (i : nat) (a : A) :
  l !! i = Some a → getitem l i = Returns a.
Proof. apply getitem_Returns. Qed.

Lemma mapM_total {A B} (f : A → outcome B) (l : list A) :
  (∀ a, a ∈ l → ∃ b, f a = Returns b) → ∃ k, mapM f l = Returns k.
Proof.
  induction l as [|a l IH]; intros Hf; simpl; [by eexists|].
  destruct (Hf a) as (b & ->); [by left|].
  destruct IH as (k & ->); [intros a' Ha'; apply Hf; by right|].
  by eexists.
Qed.

Section BVectorFacts.
Context {F : Type} `{!Arith F}.

(** [b_vector] returns only where every baseline it visits has its
    geometry and the Candidate an entry for it. *)
Lemma b_vector_inv (m : nat) (j : list Z) (R : list (vec3 F)) (n0 K b : list F)
    (i : nat) :
  b_vector (seq 0 m) j R n0 K = Returns b → (i < m)%nat →
  ∃ Ri ni Ki ji,
    R !! i = Some Ri ∧ n0 !! i = Some ni ∧ K !! i = Some Ki ∧ j !! i = Some ji.
Proof.
  unfold b_vector. rewrite mapM_Returns. intros HF Hi.
  destruct (Forall2_lookup_l _ _ _ i i HF) as (x & _ & Hfx).
  { by apply lookup_seq_lt. }
  rewrite (getitem_Some (seq 0 m) i i) in Hfx by (by apply lookup_seq_lt).
  cbn [mbind outcome_bind] in Hfx. unfold nvec_j, p0_jk in Hfx.
  destruct (R !! i) as [Ri|] eqn:HRi;
    [rewrite (getitem_Some _ _ _ HRi) in Hfx
    |unfold getitem in Hfx; by rewrite HRi in Hfx].
  cbn [mbind outcome_bind] in Hfx.
  destruct (j !! i) as [ji|] eqn:Hji;
    [rewrite (getitem_Some _ _ _ Hji) in Hfx
    |unfold getitem in Hfx; by rewrite Hji in Hfx].
  cbn [mbind outcome_bind] in Hfx.
  destruct (n0 !! i) as [ni|] eqn:Hni;
    [rewrite (getitem_Some _ _ _ Hni) in Hfx
    |unfold getitem in Hfx; by rewrite Hni in Hfx].
  cbn [mbind outcome_bind] in Hfx.
  destruct (K !! i) as [Ki|] eqn:HKi;
    [|unfold getitem in Hfx; by rewrite HKi in Hfx].
  by exists Ri, ni, Ki, ji.
Qed.

(** [b_vector] returns when the Candidate and the geometry cover the
    baselines it visits. *)
Lemma b_vector_total (m : nat) (j : list Z) (R : list (vec3 F)) (n0 K : list F) :
  (m ≤ length j)%nat → (m ≤ length R)%nat →
  (m ≤ length n0)%nat → (m ≤ length K)%nat →
  ∃ b, b_vector (seq 0 m) j R n0 K = Returns b ∧ length b = m.
Proof.
  intros Hj HR Hn0 HK. unfold b_vector.
  destruct (mapM_total
    (λ i, Ii ← getitem (seq 0 m) i; n ← nvec_j Ii R; k ← getitem j i;
          p ← p0_jk Ii k R n0 K; Returns (fopp (dot3 n p))) (seq 0 m))
    as (b & Hb).
  { intros i Hi. apply elem_of_seq in Hi.
    destruct (lookup_lt_is_Some_2 j i) as (ji & Hji); [lia|].
    destruct (lookup_lt_is_Some_2 R i) as (Ri & HRi); [lia|].
    destruct (lookup_lt_is_Some_2 n0 i) as (ni & Hni); [lia|].
    destruct (lookup_lt_is_Some_2 K i) as (Ki & HKi); [lia|].
    rewrite (getitem_Some (seq 0 m) i i) by (apply lookup_seq_lt; lia).
    cbn [mbind outcome_bind]. unfold nvec_j, p0_jk.
    rewrite (getitem_Some _ _ _ HRi). cbn [mbind outcome_bind].
    rewrite (getitem_Some _ _ _ Hji). cbn [mbind outcome_bind].
    rewrite (getitem_Some _ _ _ Hni). cbn [mbind outcome_bind].
    rewrite (getitem_Some _ _ _ HKi). cbn [mbind outcome_bind].
    by eexists. }
  exists b. split; [exact Hb|].
  apply mapM_Returns in Hb. rewrite <- (Forall2_length _ _ _ Hb). apply length_seq.
Qed.
End BVectorFacts.

Section GeometryReal.
Import Real.
Local Open Scope R_scope.

Lemma norm3_sqr (v : vec3 R) : norm3 v * norm3 v = sumsq3 v.
Proof. apply sqrt_sqrt, sumsq3_nonneg. Qed.

Lemma norm3_pos (v : vec3 R) : norm3 v ≠ 0 → 0 < norm3 v.
Proof. pose proof (norm3_nonneg v). lra. Qed.

Lemma linCoeff_R (v : vec3 R) : norm3 v ≠ 0 → sumsq3 v / norm3 v = norm3 v.
Proof. intros Hn. rewrite <- norm3_sqr. by field. Qed.

Lemma linCoeff_cal_lookup (R0 : list (vec3 R)) (j : nat) (v : vec3 R) :
  R0 !! j = Some v → norm3 v ≠ 0 → linCoeff_cal R0 !! j = Some (norm3 v).
Proof.
  intros Hj Hn. unfold linCoeff_cal. rewrite list_lookup_fmap, Hj.
  cbn [fmap option_fmap option_map]. f_equal. exact (linCoeff_R v Hn).
Qed.

(** X2.  In exact arithmetic the coefficient [K_j] that [linCoeff_cal]
    computes for a baseline is its length: the Geometry Builder returns, for
    every row [(x, y)] of coordinates other than the origin, the baseline
    [(x, y, 0)] and [K_j = sqrt(x^2 + y^2) > 0]. *)
Theorem geometry_builder_coefficient_is_length (sensor_groups : Z)
    (xycoords : list (R * R)) (R0 : list (vec3 R)) (K : list R)
    (j : nat) (x y : R) :
  geometry_builder sensor_groups xycoords = Returns (R0, K) →
  (Z.of_nat j < sensor_groups)%Z → xycoords !! j = Some (x, y) →
  x ≠ 0 ∨ y ≠ 0 →
  R0 !! j = Some (Vec3 x y 0) ∧ K !! j = Some (sqrt (x² + y²)) ∧
  0 < sqrt (x² + y²).
Proof.
  unfold geometry_builder. rewrite bind_Returns.
  intros (R1 & HR & [= <- <-]) Hj Hxy Hnz.
  pose proof (R_cal_lookup _ _ _ _ _ HR Hj Hxy) as Hcol. cbn [fst snd] in Hcol.
  change (R1 !! j = Some (Vec3 x y (0 * x))) in Hcol. rewrite Rmult_0_l in Hcol.
  assert (0 < x² + y²) as Hpos.
  { pose proof (Rle_0_sqr x). pose proof (Rle_0_sqr y).
    destruct Hnz as [Hx|Hy]; [pose proof (Rsqr_pos_lt x Hx)|pose proof (Rsqr_pos_lt y Hy)]; lra. }
  assert (norm3 (Vec3 x y 0) = sqrt (x² + y²)) as Hnorm.
  { unfold norm3. rewrite sumsq3_R. cbn [vx vy vz fsqrt arith].
    f_equal. rewrite Rsqr_0. lra. }
  pose proof (sqrt_lt_R0 _ Hpos) as Hsq.
  split; [done|]. split; [|done].
  rewrite <- Hnorm. apply linCoeff_cal_lookup; [done|]. rewrite Hnorm. lra.
Qed.

Lemma geometry_builder_coefficient_is_length_witness :
  ∃ R0 K, geometry_builder 1 [(3, 4)] = Returns (R0, K) ∧
          R0 !! 0%nat = Some (Vec3 3 4 0) ∧ K !! 0%nat = Some (sqrt (3² + 4²)).
Proof.
  eexists _, _. split; [reflexivity|].
  refine (let H := geometry_builder_coefficient_is_length 1 [(3, 4)] _ _ 0 3 4
                     eq_refl ltac:(lia) eq_refl ltac:(left; lra) in
          conj (proj1 H) (proj1 (proj2 H))).
Defined.

Lemma unit_normal (v : vec3 R) :
  norm3 v ≠ 0 →
  norm3 (Vec3 (vx v / norm3 v) (vy v / norm3 v) (vz v / norm3 v)) = 1.
Proof.
  intros Hn. unfold norm3 at 1. rewrite sumsq3_R. cbn [vx vy vz].
  replace ((vx v / norm3 v)² + (vy v / norm3 v)² + (vz v / norm3 v)²)
    with (sumsq3 v / (norm3 v * norm3 v)).
  - rewrite norm3_sqr. assert (sumsq3 v ≠ 0) as Hs.
    { rewrite <- norm3_sqr. by apply Rmult_integral_contrapositive. }
    replace (sumsq3 v / sumsq3 v) with 1 by (by field). apply sqrt_1.
  - rewrite sumsq3_R. unfold Rsqr. by field.
Qed.

(** X3.  The rows of [W_matrix] are the vectors [nvec_j] returns, and in
    exact arithmetic each one built from a baseline of non-zero length is a
    unit vector. *)
Theorem W_matrix_rows_unit (R0 : list (vec3 R)) (m i : nat) (Ri : vec3 R) :
  (i < m)%nat → R0 !! i = Some Ri → norm3 Ri ≠ 0 →
  ∃ w, W_matrix R0 m !! i = Some w ∧ nvec_j i R0 = Returns w ∧ norm3 w = 1.
Proof.
  intros Hi HRi Hn. eexists. split; [|split].
  - unfold W_matrix. rewrite list_lookup_fmap, lookup_take_lt, HRi by done.
    reflexivity.
  - unfold nvec_j. by rewrite (getitem_Some _ _ _ HRi).
  - by apply unit_normal.
Qed.

Lemma W_matrix_rows_unit_witness :
  ∃ w, W_matrix [Vec3 3 4 0] 1 !! 0%nat = Some w ∧
       nvec_j 0 [Vec3 3 4 0] = Returns w ∧ norm3 w = 1.
Proof.
  apply (W_matrix_rows_unit [Vec3 3 4 0] 1 0 (Vec3 3 4 0)); [lia|done|].
  intros H0. unfold norm3 in H0. apply sqrt_eq_0 in H0.
  - rewrite sumsq3_R in H0. cbn [vx vy vz] in H0. unfold Rsqr in H0. lra.
  - apply sumsq3_nonneg.
Defined.

Lemma plane_offset (v : vec3 R) (a k : R) :
  norm3 v ≠ 0 →
  - dot3 (Vec3 (vx v / norm3 v) (vy v / norm3 v) (vz v / norm3 v))
         (scale3 (a / k / norm3 v) v) = - (a / k).
Proof.
  intros Hn. unfold dot3, scale3. cbn [vx vy vz fmul fadd fopp arith].
  generalize (a / k). intros q.
  replace (vx v / norm3 v * (q / norm3 v * vx v)
           + vy v / norm3 v * (q / norm3 v * vy v)
           + vz v / norm3 v * (q / norm3 v * vz v))
    with (q * (sumsq3 v / (norm3 v * norm3 v))).
  - rewrite norm3_sqr. assert (sumsq3 v ≠ 0) as Hs.
    { rewrite <- norm3_sqr. by apply Rmult_integral_contrapositive. }
    by field.
  - rewrite sumsq3_R. unfold Rsqr. by field.
Qed.

(** The entry of [b_vector] for baseline [i]. *)
Lemma b_vector_lookup (m : nat) (j : list Z) (R0 : list (vec3 R)) (n0 K b : list R)
    (i : nat) (Ri : vec3 R) (ni Ki : R) (ji : Z) :
  b_vector (seq 0 m) j R0 n0 K = Returns b →
  (i < m)%nat → R0 !! i = Some Ri → n0 !! i = Some ni → K !! i = Some Ki →
  j !! i = Some ji → norm3 Ri ≠ 0 →
  b !! i = Some (- ((ni + 1 - IZR ji) / Ki)).
Proof.
  unfold b_vector. rewrite mapM_Returns. intros HF Hi HRi Hni HKi Hji Hn.
  destruct (Forall2_lookup_l _ _ _ i i HF) as (x & Hx & Hfx).
  { by apply lookup_seq_lt. }
  rewrite Hx. f_equal.
  rewrite (getitem_Some (seq 0 m) i i) in Hfx by (by apply lookup_seq_lt).
  cbn [mbind outcome_bind] in Hfx. unfold nvec_j, p0_jk in Hfx.
  rewrite (getitem_Some _ _ _ HRi) in Hfx. cbn [mbind outcome_bind] in Hfx.
  rewrite (getitem_Some _ _ _ Hji) in Hfx. cbn [mbind outcome_bind] in Hfx.
  rewrite (getitem_Some _ _ _ Hni) in Hfx. cbn [mbind outcome_bind] in Hfx.
  rewrite (getitem_Some _ _ _ HKi) in Hfx. cbn [mbind outcome_bind] in Hfx.
  injection Hfx as <-. exact (plane_offset Ri (ni + 1 - IZR ji) Ki Hn).
Qed.

Lemma b_vector_length (I : list nat) (j : list Z) (R0 : list (vec3 R))
    (n0 K b : list R) :
  b_vector I j R0 n0 K = Returns b → length b = length I.
Proof.
  unfold b_vector. rewrite mapM_Returns. intros HF.
  by rewrite (Forall2_length _ _ _ HF).
Qed.

(** X4.  [b_vector] of a Candidate over the first [m] baselines returns
    whenever the Candidate and the geometry have [m] entries, and in exact
    arithmetic its entry for a baseline of non-zero length is
    [-(n0_i + 1 - j_i) / K_i]: the normal and the displacement point of
    [nvec_j] and [p0_jk] are parallel, so their product is the signed
    distance of plane [j_i] from the origin. *)
Theorem b_vector_entries (m : nat) (j : list Z) (R0 : list (vec3 R))
    (n0 K : list R) :
  (m ≤ length j)%nat → (m ≤ length R0)%nat →
  (m ≤ length n0)%nat → (m ≤ length K)%nat →
  ∃ b, b_vector (seq 0 m) j R0 n0 K = Returns b ∧ length b = m ∧
       ∀ i Ri ni Ki ji,
         (i < m)%nat → R0 !! i = Some Ri → n0 !! i = Some ni →
         K !! i = Some Ki → j !! i = Some ji → norm3 Ri ≠ 0 →
         b !! i = Some (- ((ni + 1 - IZR ji) / Ki)).
Proof.
  intros Hj HR Hn0 HK.
  destruct (b_vector_total m j R0 n0 K Hj HR Hn0 HK) as (b & Hb & Hlen).
  exists b. split; [exact Hb|]. split; [exact Hlen|].
  intros i Ri ni Ki ji. by apply b_vector_lookup.
Qed.

Lemma b_vector_entries_witness :
  ∃ b, b_vector (seq 0 1) [2%Z] [Vec3 3 4 0] [10] [5] = Returns b ∧
       b !! 0%nat = Some (- ((10 + 1 - 2) / 5)).
Proof.
  destruct (b_vector_entries 1 [2%Z] [Vec3 3 4 0] [10] [5])
    as (b & Hb & _ & Hentries); [simpl; lia..|].
  exists b. split; [exact Hb|].
  apply (Hentries 0%nat (Vec3 3 4 0) 10 5 2%Z); [lia|done..|].
  intros H0. unfold norm3 in H0. apply sqrt_eq_0 in H0.
  - rewrite sumsq3_R in H0. cbn [vx vy vz] in H0. unfold Rsqr in H0. lra.
  - apply sumsq3_nonneg.
Defined.
End GeometryReal.

(** ** The linear system *)

Section SolverReal.
Import Real.
Local Open Scope R_scope.
Variable pinv : list (vec3 R) → outcome (list (vec3 R)).

Lemma sum_sqr_nonneg (l : list R) : 0 <= foldr Rplus 0 ((λ c, c²) <$> l).
Proof.
  induction l as [|c l IH]; [simpl; lra|].
  rewrite fmap_cons. cbn [foldr]. pose proof (Rle_0_sqr c). lra.
Qed.

Lemma sum_sqr_zero (l : list R) :
  foldr Rplus 0 ((λ c, c²) <$> l) = 0 ↔ Forall (λ c, c = 0) l.
Proof.
  induction l as [|c l IH].
  - split; [constructor|done].
  - rewrite fmap_cons. cbn [foldr].
    pose proof (Rle_0_sqr c). pose proof (sum_sqr_nonneg l). split.
    + intros Hs. constructor; [apply Rsqr_0_uniq; lra|apply IH; lra].
    + intros HF. inversion HF as [|?? -> HF']; subst.
      apply IH in HF'. rewrite HF', Rsqr_0. lra.
Qed.

Lemma norm_list_zero (l : list R) : norm_list l = 0 ↔ Forall (λ c, c = 0) l.
Proof.
  rewrite norm_list_R, <- sum_sqr_zero. split.
  - intros Hs. apply sqrt_eq_0; [apply sum_sqr_nonneg|done].
  - intros ->. apply sqrt_0.
Qed.

Lemma zip_minus_zero (l k : list R) :
  length l = length k →
  Forall (λ c, c = 0) (zip_with Rminus l k) ↔ l = k.
Proof.
  revert k. induction l as [|a l IH]; intros [|c k] Hlen; try done.
  simpl in Hlen. cbn [zip_with]. rewrite Forall_cons, IH by lia. split.
  - intros [Hac ->]. f_equal. lra.
  - intros [= -> ->]. split; [lra|done].
Qed.

(** The check vector of a returned pair. *)
Lemma solver_check (W : list (vec3 R)) (b : list R) (x : vec3 R) (r : R) :
  mooore_penrose_solution pinv W b = Returns (x, r) → length b = length W →
  r = norm_list (zip_with Rminus (mat_vec3 W x) b).
Proof.
  intros Hsol Hlen.
  apply solver_Returns in Hsol as (Wpinv & check & _ & _ & Hcheck & ->).
  rewrite broadcast2_same in Hcheck
    by (unfold mat_vec3; rewrite length_fmap; congruence).
  by injection Hcheck as <-.
Qed.

(** A Solution returned with residual 0 solves the system. *)
Lemma solver_exact (W : list (vec3 R)) (b : list R) (x : vec3 R) :
  mooore_penrose_solution pinv W b = Returns (x, 0) → length b = length W →
  mat_vec3 W x = b.
Proof.
  intros Hsol Hlen. pose proof (solver_check _ _ _ _ Hsol Hlen) as Hr.
  symmetry in Hr. apply norm_list_zero in Hr.
  apply zip_minus_zero in Hr; [done|].
  unfold mat_vec3. rewrite length_fmap. congruence.
Qed.

(** A vector that solves the system and is what the pseudo-inverse gives
    is returned with residual 0. *)
Lemma solver_Returns_exact (W Wpinv : list (vec3 R)) (b : list R) (x : vec3 R) :
  pinv W = Returns Wpinv → pinv_dot Wpinv b = Returns x → mat_vec3 W x = b →
  mooore_penrose_solution pinv W b = Returns (x, 0).
Proof.
  intros HW Hx HWx. apply solver_Returns.
  exists Wpinv, (zip_with Rminus (mat_vec3 W x) b).
  split; [done|]. split; [done|]. split.
  - apply broadcast2_same. by rewrite HWx.
  - symmetry. apply norm_list_zero. apply zip_minus_zero; [|done].
    by rewrite HWx.
Qed.

(** X5.  In exact arithmetic the residual [mooore_penrose_solution]
    returns for a system of as many equations as [W] has rows is never
    negative, and it is zero exactly when the Solution returned with it
    solves the system, [W x = b]: every plane of the Candidate passes
    through [x]. *)
Theorem residual_zero_iff_solved (W : list (vec3 R)) (b : list R)
    (x : vec3 R) (r : R) :
  mooore_penrose_solution pinv W b = Returns (x, r) → length b = length W →
  0 <= r ∧ (r = 0 ↔ mat_vec3 W x = b).
Proof.
  intros Hsol Hlen. rewrite (solver_check _ _ _ _ Hsol Hlen).
  assert (length (mat_vec3 W x) = length b) as Hshape
    by (unfold mat_vec3; rewrite length_fmap; congruence).
  split.
  - rewrite norm_list_R. apply sqrt_pos.
  - rewrite norm_list_zero. by apply zip_minus_zero.
Qed.

(** X6.  No consistent system is pruned: where numpy's pseudo-inverse
    satisfies the first Penrose identity [W Wpinv W = W], a right-hand side
    [b = W y] that has a solution at all is solved by the Solution
    returned, with residual exactly 0 in exact arithmetic, below the
    tolerance. *)
Theorem consistent_system_zero_residual (W Wpinv : list (vec3 R)) (y : vec3 R) :
  pinv W = Returns Wpinv → length Wpinv = length W →
  (∀ z x', pinv_dot Wpinv (mat_vec3 W z) = Returns x' →
           mat_vec3 W x' = mat_vec3 W z) →
  ∃ x, mooore_penrose_solution pinv W (mat_vec3 W y) = Returns (x, 0) ∧
       mat_vec3 W x = mat_vec3 W y ∧
       fltb 0 mp_tol = true.
Proof.
  intros HW Hshape Hpenrose.
  assert (length (mat_vec3 W y) = length W) as Hlen
    by (unfold mat_vec3; by rewrite length_fmap).
  destruct (pinv_dot Wpinv (mat_vec3 W y)) as [x|] eqn:Hx;
    [|unfold pinv_dot in Hx; rewrite decide_True in Hx by congruence; done].
  pose proof (Hpenrose y x Hx) as HWx.
  exists x. split; [|split; [done|]].
  - by apply (solver_Returns_exact W Wpinv).
  - apply fltb_R. unfold mp_tol. cbn. lra.
Qed.
End SolverReal.

Section SolverRealExamples.
Import Real.
Local Open Scope R_scope.

Lemma residual_zero_iff_solved_witness :
  ∃ x r,
    mooore_penrose_solution pinv_planar [Vec3 1 0 0; Vec3 0 1 0] [3; 4]
    = Returns (x, r) ∧ 0 <= r ∧ (r = 0 ↔ mat_vec3 [Vec3 1 0 0; Vec3 0 1 0] x = [3; 4]).
Proof.
  eexists _, _.
  match goal with
  | |- ?H ∧ _ => assert H as Hsol by reflexivity
  end.
  split; [exact Hsol|].
  exact (residual_zero_iff_solved pinv_planar _ _ _ _ Hsol eq_refl).
Defined.

Lemma consistent_system_zero_residual_witness :
  ∃ x, mooore_penrose_solution pinv_planar [Vec3 1 0 0; Vec3 0 1 0]
         (mat_vec3 [Vec3 1 0 0; Vec3 0 1 0] (Vec3 3 4 5)) = Returns (x, 0) ∧
       mat_vec3 [Vec3 1 0 0; Vec3 0 1 0] x
       = mat_vec3 [Vec3 1 0 0; Vec3 0 1 0] (Vec3 3 4 5) ∧
       fltb 0 mp_tol = true.
Proof.
  apply (consistent_system_zero_residual pinv_planar [Vec3 1 0 0; Vec3 0 1 0]
           _ (Vec3 3 4 5) eq_refl eq_refl).
  intros z x' Hx'.
  rewrite (pinv_planar_left_inverse [Vec3 1 0 0; Vec3 0 1 0] _ z) in Hx'.
  - injection Hx' as <-. unfold mat_vec3, dot3. simpl. f_equal; [|f_equal]; lra.
  - repeat constructor.
  - rewrite !np_sum_R. simpl. lra.
  - reflexivity.
Defined.
End SolverRealExamples.

(** ** Lattice bounds and the planes they index *)


Section LatticeReal.
Import Real.
Local Open Scope R_scope.

Lemma Int_part_IZR (z : Z) : Int_part (IZR z) = z.
Proof. symmetry. apply Int_part_spec. lra. Qed.

Lemma trunc_IZR (z : Z) : trunc (IZR z) = z.
Proof.
  unfold trunc. destruct (decide (0 <= IZR z)); [apply Int_part_IZR|].
  rewrite <- opp_IZR, Int_part_IZR. lia.
Qed.

Lemma Int_part_nonneg (x : R) : 0 <= x → (0 ≤ Int_part x)%Z.
Proof.
  intros Hx. destruct (base_Int_part x) as [_ Hlo].
  assert (-1 < IZR (Int_part x)) as H1 by lra.
  apply lt_IZR in H1. lia.
Qed.

Lemma n0_cal_lookup (K : list R) (i : nat) (k : R) :
  K !! i = Some k → n0_cal K !! i = Some (IZR (Int_part (2 * k))).
Proof. intros HK. unfold n0_cal. by rewrite list_lookup_fmap, HK. Qed.

Lemma offsets_lattice (K : list R) (i : nat) (k : R) :
  K !! i = Some k →
  offsets (k_length_cal (n0_cal K)) i
  = Returns (seqZ 1 (2 * Int_part (2 * k) + 1)).
Proof.
  intros HK. unfold offsets, k_length_cal.
  rewrite (getitem_Some _ i (2 * IZR (Int_part (2 * k)) + 1)).
  - cbn [mbind outcome_bind to_int arith].
    replace (2 * IZR (Int_part (2 * k)) + 1)
      with (IZR (2 * Int_part (2 * k) + 1)) by (rewrite plus_IZR, mult_IZR; lra).
    rewrite trunc_IZR. cbn [mbind outcome_bind]. by rewrite py_range_1.
  - by rewrite list_lookup_fmap, (n0_cal_lookup _ _ _ HK).
Qed.

(** X7.  The lattice bounds of the script: for a coefficient [K_i >= 0]
    the base number is the integer [n = floor(2 K_i) >= 0], and the plane
    indices enumerated for the baseline are [1, ..., 2n + 1], an odd number
    of them and at least one, so that the plane number [n0_i + 1 - k] of
    [p0_jk] runs over exactly the integers from [-n] to [n]. *)
Theorem lattice_offsets (K : list R) (i : nat) (k : R) :
  K !! i = Some k → 0 <= k →
  ∃ n : Z,
    (0 ≤ n)%Z ∧ IZR n <= 2 * k < IZR n + 1 ∧
    n0_cal K !! i = Some (IZR n) ∧
    offsets (k_length_cal (n0_cal K)) i = Returns (seqZ 1 (2 * n + 1)) ∧
    ∀ p : Z, (- n ≤ p ≤ n)%Z ↔ ∃ o, o ∈ seqZ 1 (2 * n + 1) ∧ p = (n + 1 - o)%Z.
Proof.
  intros HK Hk. exists (Int_part (2 * k)).
  destruct (base_Int_part (2 * k)) as [Hhi Hlo].
  split; [apply Int_part_nonneg; lra|]. split; [lra|].
  split; [by apply n0_cal_lookup|]. split; [by apply offsets_lattice|].
  intros p. split.
  - intros Hp. exists (Int_part (2 * k) + 1 - p)%Z. split; [|lia].
    apply elem_of_seqZ. lia.
  - intros (o & Ho & ->). apply elem_of_seqZ in Ho. lia.
Qed.

Lemma lattice_offsets_witness :
  ∃ n : Z,
    (0 ≤ n)%Z ∧ IZR n <= 2 * 1 < IZR n + 1 ∧
    n0_cal [1] !! 0%nat = Some (IZR n) ∧
    offsets (k_length_cal (n0_cal [1])) 0 = Returns (seqZ 1 (2 * n + 1)) ∧
    ∀ p : Z, (- n ≤ p ≤ n)%Z ↔ ∃ o, o ∈ seqZ 1 (2 * n + 1) ∧ p = (n + 1 - o)%Z.
Proof. apply (lattice_offsets [1] 0 1 eq_refl). lra. Defined.

(** X8.  Every plane the search enumerates lies within distance 2 of the
    origin: in exact arithmetic, with the script's lattice bounds
    [n0 = floor(2 K)], the entry of [b_vector] for a baseline of non-zero
    length with [K_i > 0] and a plane index among the offsets enumerated
    for it is [-p / K_i] for an integer [p] with [|p| <= floor(2 K_i)],
    hence at most 2 in absolute value. *)
Theorem b_vector_within_two (m : nat) (j : list Z) (R0 : list (vec3 R))
    (K b : list R) (ks : list Z) (i : nat) (Ri : vec3 R) (Ki : R) (ji : Z) :
  b_vector (seq 0 m) j R0 (n0_cal K) K = Returns b →
  offsets (k_length_cal (n0_cal K)) i = Returns ks →
  (i < m)%nat → R0 !! i = Some Ri → norm3 Ri ≠ 0 →
  K !! i = Some Ki → 0 < Ki → j !! i = Some ji → ji ∈ ks →
  ∃ p : Z, b !! i = Some (- (IZR p / Ki)) ∧
           (Z.abs p ≤ Int_part (2 * Ki))%Z ∧ Rabs (- (IZR p / Ki)) <= 2.
Proof.
  intros Hb Hks Hi HRi Hn HKi Hpos Hji Hin.
  rewrite (offsets_lattice _ _ _ HKi) in Hks. injection Hks as <-.
  apply elem_of_seqZ in Hin.
  pose proof (b_vector_lookup _ _ _ _ _ _ _ _ _ _ _ Hb Hi HRi
                (n0_cal_lookup _ _ _ HKi) HKi Hji Hn) as Hbi.
  exists (Int_part (2 * Ki) + 1 - ji)%Z. split; [|split].
  - rewrite Hbi. do 3 f_equal. rewrite minus_IZR, plus_IZR. lra.
  - lia.
  - destruct (base_Int_part (2 * Ki)) as [Hhi _].
    set (p := (Int_part (2 * Ki) + 1 - ji)%Z).
    assert (Z.abs p ≤ Int_part (2 * Ki))%Z as Hp by lia.
    rewrite Rabs_Ropp. unfold Rdiv. rewrite Rabs_mult, Rabs_inv.
    rewrite (Rabs_right Ki) by lra.
    apply Rmult_le_reg_r with Ki; [done|].
    rewrite Rmult_assoc, Rinv_l, Rmult_1_r by lra.
    rewrite <- abs_IZR. apply IZR_le in Hp. lra.
Qed.

Lemma b_vector_within_two_witness :
  ∃ b p, b_vector (seq 0 1) [1%Z] [Vec3 3 4 0] (n0_cal [5]) [5] = Returns b ∧
         b !! 0%nat = Some (- (IZR p / 5)) ∧ Rabs (- (IZR p / 5)) <= 2.
Proof.
  destruct (b_vector_total 1 [1%Z] [Vec3 3 4 0] (n0_cal [5]) [5])
    as (b & Hb & _); [simpl; lia..|].
  assert (norm3 (Vec3 3 4 0) ≠ 0) as Hn.
  { intros H0. unfold norm3 in H0. apply sqrt_eq_0 in H0.
    - rewrite sumsq3_R in H0. cbn [vx vy vz] in H0. unfold Rsqr in H0. lra.
    - apply sumsq3_nonneg. }
  assert (1%Z ∈ seqZ 1 (2 * Int_part (2 * 5) + 1)) as Hin.
  { apply elem_of_seqZ. pose proof (Int_part_nonneg (2 * 5) ltac:(lra)). lia. }
  destruct (b_vector_within_two 1 [1%Z] [Vec3 3 4 0] [5] b _ 0 (Vec3 3 4 0) 5 1
              Hb (offsets_lattice [5] 0 5 eq_refl) ltac:(lia) eq_refl Hn eq_refl
              ltac:(lra) eq_refl Hin) as (p & Hp & _ & Hle).
  by exists b, p.
Defined.
End LatticeReal.

Section IntegersReal.
Import Real.
Local Open Scope R_scope.
Variable pinv : list (vec3 R) → outcome (list (vec3 R)).

Lemma dot3_normal (v x : vec3 R) :
  norm3 v ≠ 0 →
  dot3 (Vec3 (vx v / norm3 v) (vy v / norm3 v) (vz v / norm3 v)) x
  = dot3 v x / norm3 v.
Proof. intros Hn. unfold dot3. cbn [vx vy vz fmul fadd arith]. by field. Qed.

(** X9.  Why the projections are called integers: in exact arithmetic,
    with the coefficients of [linCoeff_cal] and the script's base numbers
    [n0 = floor(2 K)], a Solution [x] that [mooore_penrose_solution]
    returns with residual 0 for the [b_vector] of Candidate [j] projects on
    every baseline [R_i] of non-zero length among those of the system to an
    integer, [R_i . x = j_i - floor(2 |R_i|) - 1]: the entry of
    [intersections_integers] for that baseline. *)
Theorem exact_solution_integer_projections (R0 : list (vec3 R)) (m : nat)
    (j : list Z) (b : list R) (x : vec3 R) (i : nat) (Ri : vec3 R) (ji : Z) :
  b_vector (seq 0 m) j R0 (n0_cal (linCoeff_cal R0)) (linCoeff_cal R0)
  = Returns b →
  mooore_penrose_solution pinv (W_matrix R0 m) b = Returns (x, 0) →
  (i < m)%nat → R0 !! i = Some Ri → j !! i = Some ji → norm3 Ri ≠ 0 →
  projections R0 [x] !! i = Some [IZR (ji - Int_part (2 * norm3 Ri) - 1)].
Proof.
  intros Hb Hsol Hi HRi Hji Hn.
  assert (length b = m) as Hlenb
    by (rewrite (b_vector_length _ _ _ _ _ _ Hb); apply length_seq).
  assert (m ≤ length R0)%nat as HlenR.
  { destruct (b_vector_inv m j R0 _ _ b (m - 1) Hb) as (Rl & _ & _ & _ & Hl & _);
      [lia|]. apply lookup_lt_Some in Hl. lia. }
  assert (length (W_matrix R0 m) = m) as HlenW.
  { unfold W_matrix. rewrite length_fmap, length_take. lia. }
  assert (mat_vec3 (W_matrix R0 m) x = b) as HWx
    by (apply (solver_exact pinv); [done|congruence]).
  pose proof (linCoeff_cal_lookup _ _ _ HRi Hn) as HKi.
  pose proof (b_vector_lookup _ _ _ _ _ _ _ _ _ _ _ Hb Hi HRi
                (n0_cal_lookup _ _ _ HKi) HKi Hji Hn) as Hbi.
  rewrite <- HWx in Hbi. unfold mat_vec3, W_matrix in Hbi.
  rewrite !list_lookup_fmap, lookup_take_lt, HRi in Hbi by done.
  cbn [fmap option_fmap option_map] in Hbi. injection Hbi as Hbi.
  assert (dot3 Ri x / norm3 Ri
          = - ((IZR (Int_part (2 * norm3 Ri)) + 1 - IZR ji) / norm3 Ri)) as Hd
    by (rewrite <- dot3_normal by done; exact Hbi).
  clear Hbi. rename Hd into Hbi.
  unfold projections. rewrite list_lookup_fmap, HRi.
  cbn [fmap option_fmap option_map list_fmap]. do 2 f_equal.
  rewrite !minus_IZR. pose proof (norm3_pos _ Hn) as Hpos.
  apply (Rmult_eq_compat_r (norm3 Ri)) in Hbi.
  unfold Rdiv in Hbi. rewrite Rmult_assoc, Rinv_l, Rmult_1_r in Hbi by done.
  rewrite Hbi. by field.
Qed.
End IntegersReal.

Section IntegersExample.
Import Real.
Local Open Scope R_scope.

Lemma exact_solution_integer_projections_witness :
  ∃ b x,
    b_vector (seq 0 2) [1; 1]%Z [Vec3 1 0 0; Vec3 0 1 0]
      (n0_cal (linCoeff_cal [Vec3 1 0 0; Vec3 0 1 0]))
      (linCoeff_cal [Vec3 1 0 0; Vec3 0 1 0]) = Returns b ∧
    mooore_penrose_solution pinv_planar (W_matrix [Vec3 1 0 0; Vec3 0 1 0] 2) b
    = Returns (x, 0) ∧
    projections [Vec3 1 0 0; Vec3 0 1 0] [x] !! 0%nat
    = Some [IZR (1 - Int_part (2 * norm3 (Vec3 1 0 0)) - 1)].
Proof.
  set (R0 := [Vec3 1 0 0; Vec3 0 1 0]).
  destruct (b_vector_total 2 [1; 1]%Z R0 (n0_cal (linCoeff_cal R0))
              (linCoeff_cal R0)) as (b & Hb & Hlen); [simpl; lia..|].
  destruct b as [|b0 [|b1 [|? ?]]]; try done.
  assert (sqrt (1 * 1 + 0 * 0 + 0 * 0) = 1) as H1
    by (replace (1 * 1 + 0 * 0 + 0 * 0) with 1 by lra; apply sqrt_1).
  assert (sqrt (0 * 0 + 1 * 1 + 0 * 0) = 1) as H2
    by (replace (0 * 0 + 1 * 1 + 0 * 0) with 1 by lra; apply sqrt_1).
  assert (norm3 (Vec3 1 0 0) = 1) as Hn1 by exact H1.
  assert (norm3 (Vec3 0 1 0) = 1) as Hn2 by exact H2.
  assert (W_matrix R0 2 = [Vec3 1 0 0; Vec3 0 1 0]) as HW.
  { unfold W_matrix, R0. simpl take. rewrite !fmap_cons, fmap_nil.
    cbv zeta. rewrite Hn1, Hn2. cbn [vx vy vz fdiv arith].
    f_equal; [|f_equal]; f_equal; lra. }
  assert ([b0; b1] = mat_vec3 [Vec3 1 0 0; Vec3 0 1 0] (Vec3 b0 b1 0)) as Hby.
  { unfold mat_vec3, dot3. simpl. f_equal; [|f_equal]; lra. }
  assert (mooore_penrose_solution pinv_planar [Vec3 1 0 0; Vec3 0 1 0]
            (mat_vec3 [Vec3 1 0 0; Vec3 0 1 0] (Vec3 b0 b1 0))
          = Returns (Vec3 b0 b1 0, 0)) as Hsol.
  { apply (solver_Returns_exact pinv_planar _ _ _ _ eq_refl).
    - apply pinv_planar_left_inverse; [repeat constructor| |reflexivity].
      rewrite !np_sum_R. simpl. lra.
    - reflexivity. }
  rewrite <- Hby, <- HW in Hsol.
  exists [b0; b1], (Vec3 b0 b1 0). split; [exact Hb|]. split; [exact Hsol|].
  apply (exact_solution_integer_projections pinv_planar R0 2 [1; 1]%Z
           [b0; b1] (Vec3 b0 b1 0) 0 (Vec3 1 0 0) 1 Hb Hsol); [lia|done|done|].
  rewrite Hn1. lra.
Defined.
End IntegersExample.

(** ** The sequential loop *)

Lemma foldl_apply_write_perm {F} (ws ws' : list (write F)) :
  ws ≡ₚ ws' → NoDup (slot <$> ws) →
  ∀ s, foldl apply_write s ws = foldl apply_write s ws'.
Proof.
  induction 1 as [|w ws ws' Hperm IH|w1 w2 ws|ws ws' ws'' H1 IH1 H2 IH2];
    intros Hnd s.
  - done.
  - rewrite fmap_cons, NoDup_cons in Hnd. simpl. apply IH, Hnd.
  - rewrite !fmap_cons, !NoDup_cons, not_elem_of_cons in Hnd.
    destruct Hnd as ((Hne & _) & _). simpl.
    by rewrite apply_write_commute by congruence.
  - rewrite IH1 by done. apply IH2. by rewrite <- H1.
Qed.

Lemma foldl_apply_write_length {F} (ws : list (write F)) (s : buffers F) :
  length (intersection_line_set (foldl apply_write s ws))
  = length (intersection_line_set s) ∧
  length (pinv_norm_set (foldl apply_write s ws)) = length (pinv_norm_set s).
Proof.
  revert s. induction ws as [|w ws IH]; intros s; [done|]. simpl.
  destruct (IH (apply_write s w)) as [-> ->]. apply apply_write_length.
Qed.

Lemma foldl_apply_write_frame {F} (ws : list (write F)) (s : buffers F) (q : nat) :
  ((false, q) ∉ slot <$> ws →
   intersection_line_set (foldl apply_write s ws) !! q
   = intersection_line_set s !! q) ∧
  ((true, q) ∉ slot <$> ws →
   pinv_norm_set (foldl apply_write s ws) !! q = pinv_norm_set s !! q).
Proof.
  revert s. induction ws as [|w ws IH]; intros s; [done|].
  rewrite fmap_cons, !not_elem_of_cons. simpl.
  destruct (IH (apply_write s w)) as [IHl IHn]. split.
  - intros [Hne Hq]. rewrite IHl by done.
    destruct w as [n r|n x]; simpl; [done|].
    apply list_lookup_insert_ne. simpl in Hne. congruence.
  - intros [Hne Hq]. rewrite IHn by done.
    destruct w as [n r|n x]; simpl; [|done].
    apply list_lookup_insert_ne. simpl in Hne. congruence.
Qed.

Section PtrFacts.
Context {F : Type} `{!Arith F}.
Variables W Wpinv : list (vec3 F).
Variable b_set : list (list F).

(** Stores that all go through make the sequential call return. *)
Lemma ptr_of_writes (ind_range : list Z) :
  ∀ s ws,
    Forall2 (resolves W Wpinv b_set (length (intersection_line_set s))
                      (length (pinv_norm_set s)))
            (thread_of ind_range) ws →
    mooore_penrose_solution_ptr W Wpinv b_set s ind_range
    = Returns (foldl apply_write s ws).
Proof.
  induction ind_range as [|ind rest IH]; intros s ws Hws.
  - inversion Hws; subst. done.
  - change (thread_of (ind :: rest))
      with (StoreNorm ind :: StoreLine ind :: thread_of rest) in Hws.
    inversion Hws as [|? w1 ? ws1 Hw1 Hws1]; subst.
    inversion Hws1 as [|? w2 ? ws2 Hw2 Hws2]; subst.
    cbn [mooore_penrose_solution_ptr]. rewrite ptr_body_stores.
    rewrite exec_store_resolve. unfold resolves in Hw1, Hw2. rewrite Hw1.
    cbn [mbind outcome_bind]. rewrite exec_store_resolve.
    destruct (apply_write_length s w1) as [Hl1 Hn1].
    destruct (apply_write_length (apply_write s w1) w2) as [Hl2 Hn2].
    rewrite Hl1, Hn1, Hw2. cbn [mbind outcome_bind foldl].
    apply IH. by rewrite Hl2, Hn2, Hl1, Hn1.
Qed.

Lemma elem_of_slots (l : list Z) (c : bool) (q : nat) :
  Forall (λ ind, 0 ≤ ind) l →
  (c, q) ∈ (ind ← l; [(true, Z.to_nat ind); (false, Z.to_nat ind)]) →
  Z.of_nat q ∈ l.
Proof.
  intros Hpos Hin. apply list_elem_of_bind in Hin as (ind & Hq & Hind).
  rewrite Forall_forall in Hpos. pose proof (Hpos _ Hind) as H0.
  rewrite !elem_of_cons, elem_of_nil in Hq.
  destruct Hq as [[= -> ->]|[[= -> ->]|[]]]; by rewrite Z2Nat.id.
Qed.

(** X10.  [mooore_penrose_solution_ptr] writes the slots of its index
    range and nothing else: a call over non-negative indices that returns
    leaves both buffers at their lengths and every slot whose index is not
    in [ind_range] as it was. *)
Theorem ptr_writes_only_its_range (ind_range : list Z) (s s' : buffers F) :
  Forall (λ ind, 0 ≤ ind) ind_range →
  mooore_penrose_solution_ptr W Wpinv b_set s ind_range = Returns s' →
  length (intersection_line_set s') = length (intersection_line_set s) ∧
  length (pinv_norm_set s') = length (pinv_norm_set s) ∧
  ∀ q : nat, Z.of_nat q ∉ ind_range →
    intersection_line_set s' !! q = intersection_line_set s !! q ∧
    pinv_norm_set s' !! q = pinv_norm_set s !! q.
Proof.
  intros Hpos Hptr. destruct (ptr_Returns _ _ _ _ _ _ Hptr) as (ws & Hws & ->).
  destruct (foldl_apply_write_length ws s) as [Hl Hn].
  split; [done|]. split; [done|]. intros q Hq.
  pose proof (resolves_slots _ _ _ _ _ _ _ Hpos Hws) as Hslots.
  destruct (foldl_apply_write_frame ws s q) as [Hfl Hfn].
  rewrite Hslots in Hfl, Hfn.
  split; [apply Hfl|apply Hfn]; intros Hin; by apply Hq, (elem_of_slots _ _ _ Hpos Hin).
Qed.

(** X11.  The rounds of [mooore_penrose_solution_ptr] do not depend on
    one another: over distinct non-negative indices, a call that returns
    leaves the same buffers as the call over any reordering of its index
    range, which returns too. *)
Theorem ptr_order_irrelevant (l l' : list Z) (s s' : buffers F) :
  Forall (λ ind, 0 ≤ ind) l → NoDup l → l ≡ₚ l' →
  mooore_penrose_solution_ptr W Wpinv b_set s l = Returns s' →
  mooore_penrose_solution_ptr W Wpinv b_set s l' = Returns s'.
Proof.
  intros Hpos Hnd Hperm Hptr.
  destruct (ptr_Returns _ _ _ _ _ _ Hptr) as (ws & Hws & ->).
  assert (thread_of l ≡ₚ thread_of l') as Hthreads
    by (unfold thread_of; by rewrite Hperm).
  destruct (Permutation_Forall2 Hthreads Hws) as (ws' & Hperm' & Hws').
  rewrite (ptr_of_writes _ _ _ Hws'). f_equal. symmetry.
  apply foldl_apply_write_perm; [done|].
  rewrite (resolves_slots _ _ _ _ _ _ _ Hpos Hws). by apply NoDup_slots.
Qed.
End PtrFacts.

Section PtrExamples.
Import PrimFloat.

Lemma ptr_writes_only_its_range_witness :
  ∃ s',
    mooore_penrose_solution_ptr [Vec3 1 0 0; Vec3 0 1 0]%float
      [Vec3 1 0 0; Vec3 0 1 0]%float [[1; 2]; [3; 4]; [5; 6]]%float
      (Buffers (replicate 3 (Vec3 7 7 7)) (replicate 3 7))%float [2; 0]
    = Returns s' ∧
    intersection_line_set s' !! 1%nat = Some (Vec3 7 7 7)%float ∧
    pinv_norm_set s' !! 1%nat = Some 7%float.
Proof.
  eexists.
  match goal with
  | |- ?H ∧ _ => assert H as Hptr by (vm_compute; reflexivity)
  end.
  split; [exact Hptr|].
  assert (Forall (λ ind, 0 ≤ ind) [2; 0]) as Hpos
    by (repeat (apply Forall_cons_2; [lia|]); apply Forall_nil_2).
  destruct (ptr_writes_only_its_range _ _ _ [2; 0] _ _ Hpos Hptr)
    as (_ & _ & Hframe).
  apply (Hframe 1%nat). rewrite !elem_of_cons, elem_of_nil. lia.
Defined.

Lemma ptr_order_irrelevant_witness :
  ∃ s',
    mooore_penrose_solution_ptr [Vec3 1 0 0; Vec3 0 1 0]%float
      [Vec3 1 0 0; Vec3 0 1 0]%float [[1; 2]; [3; 4]; [5; 6]]%float
      (Buffers (replicate 3 (Vec3 7 7 7)) (replicate 3 7))%float [2; 0]
    = Returns s' ∧
    mooore_penrose_solution_ptr [Vec3 1 0 0; Vec3 0 1 0]%float
      [Vec3 1 0 0; Vec3 0 1 0]%float [[1; 2]; [3; 4]; [5; 6]]%float
      (Buffers (replicate 3 (Vec3 7 7 7)) (replicate 3 7))%float [0; 2]
    = Returns s'.
Proof.
  eexists.
  match goal with
  | |- ?H ∧ _ => assert H as Hptr by (vm_compute; reflexivity)
  end.
  split; [exact Hptr|].
  apply (ptr_order_irrelevant _ _ _ [2; 0] [0; 2] _ _); [| | |exact Hptr].
  - repeat (apply Forall_cons_2; [lia|]). apply Forall_nil_2.
  - apply NoDup_cons. split; [|apply NoDup_singleton].
    rewrite list_elem_of_singleton. lia.
  - apply Permutation_swap.
Defined.
End PtrExamples.

(** ** The thread pool *)

Section PoolTermination.
Context {F : Type} `{!Arith F}.
Variables W Wpinv : list (vec3 F).
Variable b_set : list (list F).

Lemma exec_store_length (o : store) (s s' : buffers F) :
  exec_store W Wpinv b_set o s = Returns s' →
  length (intersection_line_set s') = length (intersection_line_set s) ∧
  length (pinv_norm_set s') = length (pinv_norm_set s).
Proof.
  rewrite exec_store_resolve, bind_Returns. intros (w & _ & [= <-]).
  apply apply_write_length.
Qed.

Lemma pool_steps_length c c' :
  rtc (pool_step W Wpinv b_set) c c' →
  length (intersection_line_set c'.2) = length (intersection_line_set c.2) ∧
  length (pinv_norm_set c'.2) = length (pinv_norm_set c.2).
Proof.
  induction 1 as [|c1 c2 c3 Hstep _ IH]; [done|].
  destruct IH as [-> ->].
  destruct Hstep as [pre o rest post s s' Hexec|pre o rest post s e Hexec];
    [|done]. by apply exec_store_length in Hexec.
Qed.

(** The pool always runs to the end: a store goes through or ends its
    thread. *)
Lemma pool_terminates (n : nat) :
  ∀ threads s, length (concat threads) = n →
    ∃ threads' s', rtc (pool_step W Wpinv b_set) (threads, s) (threads', s')
                   ∧ joined threads'.
Proof.
  induction n as [n IH] using lt_wf_ind. intros threads s Hlen.
  destruct (joined_or_pick threads) as [Hj|(pre & o & rest & post & ->)].
  - exists threads, s. split; [apply rtc_refl|done].
  - destruct (concat_pick pre post o rest) as (Hc & Hc' & Hc'').
    destruct (exec_store W Wpinv b_set o s) as [s1|e] eqn:Hexec.
    + destruct (IH (length (concat (pre ++ rest :: post)))) with
        (threads := pre ++ rest :: post) (s := s1)
        as (threads' & s' & Hrun & Hj); [|done|].
      * rewrite <- Hlen, Hc, Hc', !length_app. simpl. rewrite !length_app. lia.
      * exists threads', s'. split; [|done].
        eapply rtc_l; [|exact Hrun]. by constructor.
    + destruct (IH (length (concat (pre ++ [] :: post)))) with
        (threads := pre ++ [] :: post) (s := s)
        as (threads' & s' & Hrun & Hj); [|done|].
      * rewrite <- Hlen, Hc, Hc'', !length_app. simpl. rewrite !length_app. lia.
      * exists threads', s'. split; [|done].
        eapply rtc_l; [|exact Hrun]. by econstructor.
Qed.
End PoolTermination.

Lemma spawn_for_length (n : nat) (subset niter j : Z) :
  length (spawn_for n subset niter j) = n.
Proof. revert j. induction n as [|n IH]; intros j; simpl; [done|]. by rewrite IH. Qed.

Lemma spawn_for_lookup (n : nat) (subset niter j : Z) (t : nat) :
  (t < n)%nat →
  spawn_for n subset niter j !! t = Some (job_range subset niter (j + Z.of_nat t)).
Proof.
  revert j t. induction n as [|n IH]; intros j [|t] Ht; try lia.
  - simpl. by rewrite Z.add_0_r.
  - simpl. rewrite IH by lia. do 2 f_equal. lia.
Qed.

Lemma spawn_while_stop (fuel : nat) (pnum subset niter j : Z) :
  niter ≤ j * subset → spawn_while fuel pnum subset niter j = Some [].
Proof.
  intros Hj. destruct fuel; simpl;
    by destruct (Z.ltb_spec (j * subset) niter); [lia|].
Qed.

(** Without a worker to start, the loop never gets past job 0. *)
Lemma spawn_while_spins (fuel : nat) (pnum subset niter : Z) :
  pnum ≤ 0 → 1 ≤ niter → spawn_while fuel pnum subset niter 0 = None.
Proof.
  intros Hp Hn.
  induction fuel as [|fuel IH]; cbn [spawn_while]; rewrite Z.mul_0_l.
  - by destruct (Z.ltb_spec 0 niter); [|lia].
  - destruct (Z.ltb_spec 0 niter); [|lia].
    rewrite Z2Nat.nonpos by done. change (0 + Z.of_nat 0) with 0. by rewrite IH.
Qed.

Lemma par_subset_negative (niter pnum : Z) :
  pnum < 0 → 1 ≤ niter < 2 ^ 63 → ∃ subset, par_subset niter pnum = Returns subset.
Proof.
  intros Hp Hn. unfold par_subset.
  destruct (Z.eqb_spec pnum 0) as [|_]; [lia|].
  destruct (Z.eqb_spec (niter mod pnum) 0) as [Hmod|_]; [|eauto].
  unfold int_true_div.
  assert (1 ≤ Z.abs (niter / pnum) ≤ niter) as Hq.
  { pose proof (Z.div_mod niter pnum ltac:(lia)) as Hdm. rewrite Hmod in Hdm. nia. }
  destruct (round53_bounds (Z.abs (niter / pnum))) as [Hlo Hhi]; [lia|].
  assert (2 ^ 64 < 2 ^ 1024) by (apply Z.pow_lt_mono_r; lia).
  assert (2 ^ 64 = 2 * 2 ^ 63) as Hpow by (by rewrite <- Z.pow_succ_r).
  destruct (Z.leb_spec (2 ^ 1024) (round53 (Z.abs (niter / pnum)))); [lia|].
  eauto.
Qed.

(** With fewer than 2^53 Candidates the chunk length is the quotient
    rounded up, exactly. *)
Lemma par_subset_ceil (niter pnum : Z) :
  1 ≤ pnum → 1 ≤ niter < 2 ^ 53 →
  ∃ subset, par_subset niter pnum = Returns subset ∧
            (subset - 1) * pnum < niter ≤ subset * pnum.
Proof.
  intros Hp Hn. unfold par_subset.
  destruct (Z.eqb_spec pnum 0) as [|_]; [lia|].
  pose proof (Z.div_mod niter pnum ltac:(lia)) as Hdm.
  pose proof (Z.mod_pos_bound niter pnum ltac:(lia)) as Hmod.
  destruct (Z.eqb_spec (niter mod pnum) 0) as [Hz|Hnz].
  - unfold int_true_div.
    assert (1 ≤ niter / pnum ≤ niter) as Hq by nia.
    rewrite Z.abs_eq, round53_small, Z.sgn_pos by lia.
    assert (2 ^ 53 < 2 ^ 1024) by (apply Z.pow_lt_mono_r; lia).
    destruct (Z.leb_spec (2 ^ 1024) (niter / pnum)); [lia|].
    exists (1 * (niter / pnum)). split; [done|]. nia.
  - exists (niter / pnum + 1). split; [done|]. nia.
Qed.

Section ParallelEdges.
Context {F : Type} `{!Arith F}.
Variable pinv : list (vec3 F) → outcome (list (vec3 F)).

(** X12.  A worker's exception never reaches the caller: for at least one
    worker, [mooore_penrose_solution_par] returns, whatever [b_set] and the
    buffers are, also where the sequential loop over the same Candidates
    raises: a thread whose store raises ends there, the others go on, and
    the call returns with buffers of unchanged length. *)
Theorem worker_exceptions_are_lost (W Wpinv : list (vec3 F))
    (b_set : list (list F)) (pnum niter : Z) (s : buffers F) :
  1 ≤ pnum → 0 ≤ niter < 2 ^ 63 → pinv W = Returns Wpinv →
  (∃ s', mooore_penrose_solution_par pinv W b_set pnum niter s (Returns s')) ∧
  (∀ res, mooore_penrose_solution_par pinv W b_set pnum niter s res →
          ∃ s', res = Returns s' ∧
                length (intersection_line_set s') = length (intersection_line_set s) ∧
                length (pinv_norm_set s') = length (pinv_norm_set s)).
Proof.
  intros Hp Hn HW. unfold mooore_penrose_solution_par. rewrite HW.
  destruct (par_jobs_spec pnum niter Hp Hn) as [[jobs Hjobs] Hall]. split.
  - destruct (pool_terminates W Wpinv b_set _ (thread_of <$> jobs) s eq_refl)
      as (threads' & s' & Hrun & Hj).
    exists s', (Z.to_nat niter), (Returns jobs). split; [done|].
    exists s'. split; [done|]. by exists threads'.
  - intros res (fuel & r & Hr & Hres).
    destruct (Hall _ _ Hr) as (jobs' & -> & _).
    destruct Hres as (s' & -> & threads' & Hrun & _).
    exists s'. split; [done|]. exact (pool_steps_length _ _ _ _ _ Hrun).
Qed.

(** X13.  The worker count is not checked: with [pnum = 0] the call
    raises [ZeroDivisionError] (from [niter % pnum], once the
    pseudo-inverse is computed), and with a negative [pnum] and at least
    one Candidate it never returns: no thread is started, [job_id] stays 0
    and the [while] loop does not end. *)
Theorem worker_count_unchecked (W Wpinv : list (vec3 F))
    (b_set : list (list F)) (pnum niter : Z) (s : buffers F) :
  pinv W = Returns Wpinv → pnum ≤ 0 → 1 ≤ niter < 2 ^ 63 →
  ∀ res, mooore_penrose_solution_par pinv W b_set pnum niter s res ↔
         pnum = 0 ∧ res = Raises ZeroDivisionError.
Proof.
  intros HW Hp Hn res. unfold mooore_penrose_solution_par, par_jobs. rewrite HW.
  destruct (decide (pnum = 0)) as [->|Hnz].
  - simpl. split.
    + intros (fuel & r & Hr & Hres). injection Hr as <-. by simpl in Hres.
    + intros [_ ->]. by exists 0%nat, (Raises ZeroDivisionError).
  - destruct (par_subset_negative niter pnum) as (subset & ->); [lia|done|].
    split; [|by intros [? _]].
    intros (fuel & r & Hr & _). rewrite spawn_while_spins in Hr by lia. done.
Qed.
End ParallelEdges.

(** X14.  With at least one Candidate, fewer than 2^53 of them, the loop
    of [mooore_penrose_solution_par] ends after one round: exactly [pnum]
    threads are started, [subset] being the quotient [niter / pnum]
    rounded up, and thread [t] is handed the indices from
    [min(t*subset, niter)] up to [min((t+1)*subset, niter)], at most
    [subset] of them and none at all for the last threads when [pnum] does
    not go into [niter] evenly. *)
Theorem par_starts_pnum_threads (pnum niter : Z) :
  1 ≤ pnum → 1 ≤ niter < 2 ^ 53 →
  ∃ subset jobs,
    par_subset niter pnum = Returns subset ∧
    (subset - 1) * pnum < niter ≤ subset * pnum ∧
    (∀ fuel r, par_jobs fuel pnum niter = Some r → r = Returns jobs) ∧
    par_jobs 1 pnum niter = Some (Returns jobs) ∧
    length jobs = Z.to_nat pnum ∧
    ∀ t, 0 ≤ t < pnum →
      jobs !! Z.to_nat t
      = Some (py_range (Z.min (t * subset) niter) (Z.min ((t + 1) * subset) niter)).
Proof.
  intros Hp Hn.
  destruct (par_subset_ceil niter pnum Hp Hn) as (subset & Hsub & Hceil).
  exists subset, (spawn_for (Z.to_nat pnum) subset niter 0).
  assert (0 ≤ subset) as Hs0 by nia.
  assert (∀ fuel, spawn_while (S fuel) pnum subset niter 0
                  = Some (spawn_for (Z.to_nat pnum) subset niter 0)) as Hloop.
  { intros fuel. cbn [spawn_while]. rewrite Z.mul_0_l.
    destruct (Z.ltb_spec 0 niter); [|lia].
    rewrite spawn_while_stop by (rewrite Z2Nat.id; lia).
    simpl. by rewrite app_nil_r. }
  split; [done|]. split; [done|]. split; [|split; [|split]].
  - intros fuel r. unfold par_jobs. rewrite Hsub.
    destruct fuel as [|fuel].
    + cbn [spawn_while]. rewrite Z.mul_0_l.
      by destruct (Z.ltb_spec 0 niter); [|lia].
    + rewrite Hloop. by intros [= <-].
  - unfold par_jobs. by rewrite Hsub, Hloop.
  - apply spawn_for_length.
  - intros t Ht. rewrite spawn_for_lookup by lia.
    rewrite Z.add_0_l, Z2Nat.id by lia.
    by rewrite (job_range_seqZ subset niter Hs0 t) by lia.
Qed.

Section ParallelEdgeExamples.
Import PrimFloat.

Lemma worker_exceptions_are_lost_witness :
  mooore_penrose_solution_ptr [Vec3 1 0 0; Vec3 0 1 0]%float
    [Vec3 1 0 0; Vec3 0 1 0]%float [[1; 2]]%float
    (Buffers (replicate 2 (Vec3 7 7 7)) (replicate 2 7))%float (py_range 0 2)
  = Raises IndexError ∧
  ∃ s', mooore_penrose_solution_par pinv_planar [Vec3 1 0 0; Vec3 0 1 0]%float
          [[1; 2]]%float 2 2
          (Buffers (replicate 2 (Vec3 7 7 7)) (replicate 2 7))%float (Returns s').
Proof.
  split; [vm_compute; reflexivity|].
  assert (pinv_planar [Vec3 1 0 0; Vec3 0 1 0]%float
          = Returns [Vec3 1 0 0; Vec3 0 1 0]%float) as HW
    by (vm_compute; reflexivity).
  exact (proj1 (worker_exceptions_are_lost pinv_planar _ _ [[1; 2]]%float 2 2
                  (Buffers (replicate 2 (Vec3 7 7 7)) (replicate 2 7))%float
                  ltac:(lia) ltac:(lia) HW)).
Defined.

Lemma worker_count_unchecked_witness :
  mooore_penrose_solution_par pinv_planar [Vec3 1 0 0; Vec3 0 1 0]%float
    [[1; 2]]%float (-1) 1 (Buffers [Vec3 7 7 7] [7])%float
    (Returns (Buffers [Vec3 1 2 0] [0])%float) ↔
  (-1 = 0 ∧ Returns (Buffers [Vec3 1 2 0] [0])%float = Raises ZeroDivisionError).
Proof.
  assert (pinv_planar [Vec3 1 0 0; Vec3 0 1 0]%float
          = Returns [Vec3 1 0 0; Vec3 0 1 0]%float) as HW
    by (vm_compute; reflexivity).
  exact (worker_count_unchecked pinv_planar _ _ [[1; 2]]%float (-1) 1
           (Buffers [Vec3 7 7 7] [7])%float HW ltac:(lia) ltac:(lia)
           (Returns (Buffers [Vec3 1 2 0] [0])%float)).
Defined.
End ParallelEdgeExamples.

Lemma par_starts_pnum_threads_witness :
  ∃ subset jobs,
    par_subset 5 4 = Returns subset ∧
    (subset - 1) * 4 < 5 ≤ subset * 4 ∧
    (∀ fuel r, par_jobs fuel 4 5 = Some r → r = Returns jobs) ∧
    par_jobs 1 4 5 = Some (Returns jobs) ∧
    length jobs = Z.to_nat 4 ∧
    ∀ t, 0 ≤ t < 4 →
      jobs !! Z.to_nat t
      = Some (py_range (Z.min (t * subset) 5) (Z.min ((t + 1) * subset) 5)).
Proof. apply (par_starts_pnum_threads 4 5); lia. Defined.

(** ** Pruning *)

Lemma take_indices_out_of_range {A} (l : list A) (idx : list nat) (i : nat) :
  i ∈ idx → (length l ≤ i)%nat → take_indices l idx = Raises IndexError.
Proof.
  intros Hi Hlen. destruct (take_indices l idx) as [sel|e] eqn:Hsel.
  - apply take_indices_Returns in Hsel.
    apply list_elem_of_lookup in Hi as [p Hp].
    destruct (Forall2_lookup_l _ _ _ _ _ Hsel Hp) as (a & _ & Ha).
    apply lookup_lt_Some in Ha. lia.
  - by apply take_indices_Raises in Hsel as ->.
Qed.

Lemma np_where_lt (m : list bool) (i : nat) : i ∈ np_where m → (i < length m)%nat.
Proof. rewrite elem_of_np_where. apply lookup_lt_Some. Qed.

Section PruningFields.
Context {F : Type} `{!Arith F}.
Local Open Scope arith_scope.

(** The mask [intersections_cal] hands to [np.where]. *)
Lemma intersections_cal_inv (pinv_norm : list F) (PERMS_J : list (list Z))
    (line R : list (vec3 F)) (kwargs : gmap string (list F)) res :
  intersections_cal pinv_norm PERMS_J line R kwargs = Returns res ↔
  ∃ mask sel,
    match kwargs !! "norm" with
    | Some norm => seed_mask pinv_norm norm = Returns mask
    | None => mask = residual_mask pinv_norm
    end ∧
    take_indices PERMS_J (np_where mask) = Returns (permutations res) ∧
    take_indices line (np_where mask) = Returns sel ∧
    res = Intersections (np_where mask) (length (np_where mask))
            (permutations res) (projections R sel).
Proof.
  unfold intersections_cal. rewrite bind_Returns. split.
  - intros (idx & Hidx & Hrest).
    apply bind_Returns in Hrest as (perms & Hperms & Hrest).
    apply bind_Returns in Hrest as (sel & Hsel & [= <-]). simpl.
    destruct (kwargs !! "norm") as [norm|].
    + apply fmap_Returns in Hidx as (mask & Hmask & ->). by exists mask, sel.
    + injection Hidx as <-. by exists (residual_mask pinv_norm), sel.
  - intros (mask & sel & Hmask & Hperms & Hsel & ->). simpl in *.
    exists (np_where mask). split.
    + destruct (kwargs !! "norm") as [norm|]; [by rewrite Hmask|by subst].
    + rewrite Hperms. simpl. by rewrite Hsel.
Qed.

Lemma seed_mask_length (pinv_norm norm : list F) (mask : list bool) :
  length norm = length pinv_norm → seed_mask pinv_norm norm = Returns mask →
  length mask = length pinv_norm.
Proof.
  intros Hlen. rewrite seed_mask_same by done. intros [= <-].
  rewrite length_zip_with. lia.
Qed.

(** X15.  The dictionary of [intersections_cal]: on buffers of one shape
    ([PERMS_J] and [intersection_line] with an entry for every residual,
    and ['norm'], where given, as long as [pinv_norm]) the call returns;
    ['indexes'] increases strictly, ['number'] is its length, and
    ['permutations'] and the columns of ['integers'] follow it entry by
    entry: at position [p] stand the Candidate of the index [indexes[p]]
    and, in the row of baseline [j], the projection [R_j . x] of its
    Solution point. *)
Theorem intersections_cal_fields (pinv_norm : list F) (PERMS_J : list (list Z))
    (line R : list (vec3 F)) (kwargs : gmap string (list F)) :
  (length pinv_norm ≤ length PERMS_J)%nat →
  (length pinv_norm ≤ length line)%nat →
  (∀ norm, kwargs !! "norm" = Some norm → length norm = length pinv_norm) →
  ∃ res,
    intersections_cal pinv_norm PERMS_J line R kwargs = Returns res ∧
    StronglySorted lt (indexes res) ∧
    number res = length (indexes res) ∧
    length (permutations res) = number res ∧
    length (integers res) = length R ∧
    ∀ p i, indexes res !! p = Some i →
      ∃ cand x,
        PERMS_J !! i = Some cand ∧ line !! i = Some x ∧
        permutations res !! p = Some cand ∧
        ∀ j Rj, R !! j = Some Rj →
          ∃ row, integers res !! j = Some row ∧ length row = number res ∧
                 row !! p = Some (dot3 Rj x).
Proof.
  intros HP Hl Hnorm.
  assert (∃ mask, match kwargs !! "norm" with
                  | Some norm => seed_mask pinv_norm norm = Returns mask
                  | None => mask = residual_mask pinv_norm
                  end ∧ length mask = length pinv_norm) as (mask & Hmask & Hlen).
  { destruct (kwargs !! "norm") as [norm|] eqn:Hk.
    - pose proof (Hnorm norm eq_refl) as Hn.
      exists (zip_with (λ r n, fltb r mp_tol && fleb n (of_int 2)
                               && negb (feqb n (of_int 0))) pinv_norm norm).
      split; [by apply seed_mask_same|]. rewrite length_zip_with. lia.
    - exists (residual_mask pinv_norm). split; [done|].
      unfold residual_mask. by rewrite length_fmap. }
  assert (Forall (λ i, (i < length pinv_norm)%nat) (np_where mask)) as Hidx.
  { apply Forall_forall. intros i Hi. apply np_where_lt in Hi. lia. }
  destruct (take_indices_total PERMS_J (np_where mask)) as (perms & Hperms).
  { eapply Forall_impl; [exact Hidx|]. simpl. lia. }
  destruct (take_indices_total line (np_where mask)) as (sel & Hsel).
  { eapply Forall_impl; [exact Hidx|]. simpl. lia. }
  exists (Intersections (np_where mask) (length (np_where mask)) perms
            (projections R sel)).
  split; [apply intersections_cal_inv; by exists mask, sel|]. simpl.
  split; [apply np_where_sorted|]. split; [done|].
  split; [by apply take_indices_length in Hperms|].
  split; [unfold projections; by rewrite length_fmap|].
  intros p i Hp.
  destruct (lookup_lt_is_Some_2 perms p) as (cand & Hcand).
  { rewrite (take_indices_length _ _ _ Hperms). by eapply lookup_lt_Some. }
  destruct (lookup_lt_is_Some_2 sel p) as (x & Hx).
  { rewrite (take_indices_length _ _ _ Hsel). by eapply lookup_lt_Some. }
  pose proof Hcand as Hcand'. pose proof Hx as Hx'.
  apply (take_indices_lookup _ _ _ _ _ Hperms) in Hcand' as (i1 & Hi1 & HPi).
  apply (take_indices_lookup _ _ _ _ _ Hsel) in Hx' as (i2 & Hi2 & Hli).
  assert (i1 = i) as -> by congruence. assert (i2 = i) as -> by congruence.
  exists cand, x. split_and!; [done..|].
  intros j Rj HRj. exists (dot3 Rj <$> sel). unfold projections.
  rewrite list_lookup_fmap, HRj. split; [done|].
  rewrite length_fmap, list_lookup_fmap, Hx.
  split; [by apply take_indices_length in Hsel|done].
Qed.

(** X16.  A residual below the tolerance in a slot that [PERMS_J] has no
    Candidate for (a slot of the buffers beyond the Candidates listed)
    makes [intersections_cal], called without ['norm'], raise
    [IndexError]. *)
Theorem intersections_cal_slot_without_candidate (pinv_norm : list F)
    (PERMS_J : list (list Z)) (line R : list (vec3 F))
    (kwargs : gmap string (list F)) (i : nat) (r : F) :
  kwargs !! "norm" = None →
  pinv_norm !! i = Some r → fltb r tenth = true → (length PERMS_J ≤ i)%nat →
  intersections_cal pinv_norm PERMS_J line R kwargs = Raises IndexError.
Proof.
  intros Hk Hr Hlt Hlen. unfold intersections_cal. rewrite Hk.
  cbn [mbind outcome_bind].
  rewrite (take_indices_out_of_range PERMS_J _ i); [done| |done].
  apply elem_of_residual_where. eauto.
Qed.

(** X17.  The keyword ['norm'] only removes: for the same residuals and a
    ['norm'] of their length, every index [intersections_cal] selects with
    the keyword is selected without it, so that ['number'] with the keyword
    is at most ['number'] without it. *)
Theorem intersections_cal_norm_only_removes (pinv_norm norm : list F)
    (PERMS_J : list (list Z)) (line R : list (vec3 F))
    (kwargs : gmap string (list F)) (res res' : intersections F) :
  length norm = length pinv_norm →
  intersections_cal pinv_norm PERMS_J line R (<["norm" := norm]> kwargs)
  = Returns res →
  intersections_cal pinv_norm PERMS_J line R (delete "norm" kwargs)
  = Returns res' →
  indexes res ⊆ indexes res' ∧ (number res ≤ number res')%nat.
Proof.
  intros Hlen Hres Hres'.
  apply intersections_cal_inv in Hres as (mask & sel & Hmask & _ & _ & ->).
  apply intersections_cal_inv in Hres' as (mask' & sel' & Hmask' & _ & _ & ->).
  rewrite lookup_insert_eq in Hmask. rewrite lookup_delete_eq in Hmask'.
  subst mask'. simpl.
  assert (np_where mask ⊆ np_where (residual_mask pinv_norm)) as Hsub.
  { intros i Hi.
    apply (elem_of_seed_where pinv_norm norm mask i (eq_sym Hlen) Hmask) in Hi
      as (r & n & Hr & _ & Hlt & _).
    apply elem_of_residual_where. eauto. }
  split; [done|]. apply submseteq_length, NoDup_submseteq; [|done].
  apply np_where_NoDup.
Qed.
End PruningFields.

Section PruningExamples.
Import PrimFloat.

Lemma intersections_cal_fields_witness :
  ∃ res,
    intersections_cal [0; 1; 0]%float [[1; 1; 1]; [1; 1; 2]; [1; 2; 1]]
      [Vec3 1 2 0; Vec3 3 4 0; Vec3 5 6 0]%float [Vec3 1 0 0; Vec3 0 1 0]%float ∅
    = Returns res ∧
    indexes res = [0; 2]%nat ∧ number res = 2%nat ∧
    permutations res = [[1; 1; 1]; [1; 2; 1]] ∧
    integers res = [[1; 5]; [2; 6]]%float ∧
    StronglySorted lt (indexes res).
Proof.
  destruct (intersections_cal_fields [0; 1; 0]%float
              [[1; 1; 1]; [1; 1; 2]; [1; 2; 1]]
              [Vec3 1 2 0; Vec3 3 4 0; Vec3 5 6 0]%float
              [Vec3 1 0 0; Vec3 0 1 0]%float ∅)
    as (res & Hres & Hsorted & _); [simpl; lia|simpl; lia|done|].
  exists res.
  assert (intersections_cal [0; 1; 0]%float [[1; 1; 1]; [1; 1; 2]; [1; 2; 1]]
            [Vec3 1 2 0; Vec3 3 4 0; Vec3 5 6 0]%float
            [Vec3 1 0 0; Vec3 0 1 0]%float ∅
          = Returns (Intersections [0; 2]%nat 2 [[1; 1; 1]; [1; 2; 1]]
                       [[1; 5]; [2; 6]]%float)) as Hval
    by (vm_compute; reflexivity).
  rewrite Hval in Hres. injection Hres as <-. by split_and!.
Defined.

Lemma intersections_cal_slot_without_candidate_witness :
  intersections_cal [1; 0]%float [[1; 1; 1]] [Vec3 1 2 0; Vec3 0 0 0]%float
    [Vec3 1 0 0]%float ∅ = Raises IndexError.
Proof.
  apply (intersections_cal_slot_without_candidate _ _ _ _ _ 1 0%float);
    [done|done|vm_compute; reflexivity|simpl; lia].
Defined.

Lemma intersections_cal_norm_only_removes_witness :
  ∃ res res',
    intersections_cal [0; 0]%float [[1; 1; 1]; [1; 1; 2]]
      [Vec3 1 0 0; Vec3 0 0 0]%float [Vec3 1 0 0]%float
      (<["norm" := [1; 0]%float]> ∅) = Returns res ∧
    intersections_cal [0; 0]%float [[1; 1; 1]; [1; 1; 2]]
      [Vec3 1 0 0; Vec3 0 0 0]%float [Vec3 1 0 0]%float
      (delete "norm" ∅) = Returns res' ∧
    indexes res ⊆ indexes res' ∧ (number res ≤ number res')%nat.
Proof.
  eexists _, _.
  match goal with
  | |- ?H1 ∧ ?H2 ∧ _ =>
      assert H1 as Hres by (vm_compute; reflexivity);
      assert H2 as Hres' by (vm_compute; reflexivity)
  end.
  split; [exact Hres|]. split; [exact Hres'|].
  exact (intersections_cal_norm_only_removes [0; 0]%float [1; 0]%float _ _ _ ∅
           _ _ eq_refl Hres Hres').
Defined.
End PruningExamples.

(** ** The cap and the ambiguity distances *)

Section ExplicitShape.
Context {F : Type} `{!Arith F} `{!Trig F}.
Local Open Scope arith_scope.

(** The difference of the two responses, sub-group by sub-group. *)
Lemma signal_difference_fmap (xy : list (F * F)) (k0 : vec3 F) (ks : list (vec3 F)) :
  signal_difference xy k0 ks
  = (λ k, (λ p, csub (cexp_phase (p.1 * vx k0 + p.2 * vy k0))
                     (cexp_phase (p.1 * vx k + p.2 * vy k))) <$> xy) <$> ks.
Proof.
  unfold signal_difference, subgroup_signal, subgroup_signal_k0, response.
  rewrite <- list_fmap_compose. apply list_fmap_ext. intros i k _. simpl.
  by rewrite zip_with_fmap_l, zip_with_fmap_r, zip_with_diag.
Qed.

Lemma ambiguity_normal_fmap (xy : list (F * F)) (k0 : vec3 F) (ks : list (vec3 F)) :
  ambiguity_normal_explicit xy k0 ks
  = (λ d, (λ z, cdiv z (cnorm d)) <$> d) <$> signal_difference xy k0 ks.
Proof.
  unfold ambiguity_normal_explicit, ambiguity_distances_explicit.
  by rewrite zip_with_fmap_r, zip_with_diag.
Qed.

Lemma explicit_Returns (line : list (vec3 F)) (ind cap : list nat)
    (xy : list (F * F)) (k0 : vec3 F) dist normal ks :
  explicit line ind cap xy k0 = Returns (dist, normal, ks) ↔
  ∃ sel, s_sel line ind cap = Returns sel ∧ ks = k_find k0 <$> sel ∧
         dist = ambiguity_distances_explicit xy k0 ks ∧
         normal = ambiguity_normal_explicit xy k0 ks.
Proof.
  unfold explicit. rewrite bind_Returns. split.
  - intros (ks' & Hks & [= <- <- <-]).
    apply k_finds_Returns in Hks as (sel & Hsel & ->). by exists sel.
  - intros (sel & Hsel & -> & -> & ->). exists (k_find k0 <$> sel).
    split; [|done]. apply k_finds_Returns. by exists sel.
Qed.
End ExplicitShape.

Section ExplicitReal.
Import Real.
Local Open Scope R_scope.

Lemma cabs2_difference_bound (a b : R) :
  0 <= cabs2 (csub (cexp_phase a) (cexp_phase b)) <= 4.
Proof.
  pose (x := -2 * PI * a). pose (y := -2 * PI * b).
  change (0 <= (cos x - cos y) * (cos x - cos y)
               + (sin x - sin y) * (sin x - sin y) <= 4).
  pose proof (sin2_cos2 x) as Hx. pose proof (sin2_cos2 y) as Hy.
  unfold Rsqr in Hx, Hy.
  generalize dependent (cos x). generalize dependent (sin x).
  generalize dependent (cos y). generalize dependent (sin y).
  intros sy cy Hy sx cx Hx.
  pose proof (Rle_0_sqr (cx + cy)) as H1. pose proof (Rle_0_sqr (sx + sy)) as H2.
  pose proof (Rle_0_sqr (cx - cy)) as H3. pose proof (Rle_0_sqr (sx - sy)) as H4.
  unfold Rsqr in H1, H2, H3, H4. split; lra.
Qed.

Lemma sum_bounded {A} (f : A → R) (c : R) (l : list A) :
  (∀ x, 0 <= f x <= c) →
  0 <= foldr Rplus 0 (f <$> l) <= c * INR (length l).
Proof.
  intros Hf. induction l as [|x l IH].
  - simpl. lra.
  - rewrite fmap_cons. cbn [foldr]. change (length (x :: l)) with (S (length l)).
    rewrite S_INR. pose proof (Hf x). lra.
Qed.

Lemma cnorm_R (d : list (complex R)) :
  cnorm d = sqrt (foldr Rplus 0 (cabs2 <$> d)).
Proof. unfold cnorm. by rewrite np_sum_R. Qed.

Lemma cabs2_nonneg (z : complex R) : 0 <= cabs2 z.
Proof. change (0 <= re z * re z + im z * im z). nra. Qed.

Lemma sum_cabs2_nonneg (d : list (complex R)) : 0 <= foldr Rplus 0 (cabs2 <$> d).
Proof.
  induction d as [|z d IH]; [simpl; lra|].
  rewrite fmap_cons. cbn [foldr]. pose proof (cabs2_nonneg z). lra.
Qed.

Lemma sum_cabs2_cdiv (d : list (complex R)) (c : R) :
  c ≠ 0 →
  foldr Rplus 0 (cabs2 <$> ((λ z, cdiv z c) <$> d))
  = foldr Rplus 0 (cabs2 <$> d) / (c * c).
Proof.
  intros Hc. induction d as [|z d IH].
  - simpl. by field.
  - rewrite !fmap_cons. cbn [foldr]. rewrite IH.
    unfold cabs2, cdiv, sq. cbn [re im fmul fadd fdiv arith]. by field.
Qed.

(** X18.  In exact arithmetic every ambiguity distance [explicit] returns
    lies between 0 and [2 sqrt(G)], [G] the number of sub-groups (each
    response entry has modulus 1), and the distance of a Solution point
    with [s_x = s_y = 0], whose direction is [k0] itself, is 0. *)
Theorem explicit_distance_bounds (line : list (vec3 R)) (ind cap : list nat)
    (xy : list (R * R)) (k0 : vec3 R) dist normal ks :
  explicit line ind cap xy k0 = Returns (dist, normal, ks) →
  Forall (λ d, 0 <= d <= 2 * sqrt (INR (length xy))) dist ∧
  ∀ p c i s, cap !! p = Some c → ind !! c = Some i → line !! i = Some s →
             vx s = 0 → vy s = 0 → dist !! p = Some 0.
Proof.
  intros Hex. apply explicit_Returns in Hex as (sel & Hsel & -> & -> & _).
  unfold ambiguity_distances_explicit. rewrite signal_difference_fmap.
  rewrite <- !list_fmap_compose. split.
  - apply Forall_fmap, Forall_forall. intros s _. unfold compose. cbn beta.
    rewrite cnorm_R, <- list_fmap_compose.
    destruct (sum_bounded
      (cabs2 ∘ (λ p : R * R,
         csub (cexp_phase (p.1 * vx k0 + p.2 * vy k0))
              (cexp_phase (p.1 * vx (k_find k0 s) + p.2 * vy (k_find k0 s)))))
      4 xy) as [Hlo Hhi].
    { intros p. apply cabs2_difference_bound. }
    split; [apply sqrt_pos|].
    replace 2 with (sqrt 4).
    + rewrite <- sqrt_mult by (apply pos_INR || lra). by apply sqrt_le_1_alt.
    + replace 4 with (2 * 2) by lra. apply sqrt_square. lra.
  - intros p c i s Hc Hi Hs Hx Hy.
    destruct (s_sel_Returns _ _ _ _ Hsel) as [_ Hlook].
    destruct (Hlook p c Hc) as (i' & s' & Hi' & Hs' & Hp).
    assert (i' = i) as -> by congruence. assert (s' = s) as -> by congruence.
    rewrite list_lookup_fmap, Hp. cbn [fmap option_fmap option_map].
    unfold compose. cbn beta. f_equal.
    rewrite cnorm_R, <- list_fmap_compose.
    replace (foldr Rplus 0 _) with 0; [apply sqrt_0|].
    symmetry. clear -Hx Hy. induction xy as [|q xy IH]; [done|].
    rewrite fmap_cons. cbn [foldr]. rewrite IH.
    unfold compose, cabs2, csub, cexp_phase, k_find, sq.
    cbn [re im vx vy]. rewrite Hx, Hy.
    change (fsub (vx k0) 0) with (vx k0 - 0).
    change (fsub (vy k0) 0) with (vy k0 - 0).
    rewrite !Rminus_0_r. cbn [fsub fmul fadd arith]. ring.
Qed.

(** X19.  In exact arithmetic the normalised difference [explicit]
    returns for an ambiguity at non-zero distance is a unit vector with one
    entry per sub-group. *)
Theorem explicit_normal_unit (line : list (vec3 R)) (ind cap : list nat)
    (xy : list (R * R)) (k0 : vec3 R) dist normal ks (p : nat) (d : R)
    (n : list (complex R)) :
  explicit line ind cap xy k0 = Returns (dist, normal, ks) →
  dist !! p = Some d → normal !! p = Some n → d ≠ 0 →
  cnorm n = 1 ∧ length n = length xy.
Proof.
  intros Hex. apply explicit_Returns in Hex as (sel & Hsel & -> & -> & ->).
  rewrite ambiguity_normal_fmap. unfold ambiguity_distances_explicit.
  rewrite !list_lookup_fmap.
  destruct (signal_difference xy k0 (k_find k0 <$> sel) !! p) as [diff|] eqn:Hdiff;
    [|done].
  cbn [fmap option_fmap option_map]. intros [= <-] [= <-] Hd. split.
  - rewrite cnorm_R, sum_cabs2_cdiv by done.
    rewrite !np_sum_R in *. rewrite sqrt_sqrt by apply sum_cabs2_nonneg.
    assert (foldr Rplus 0 (cabs2 <$> diff) ≠ 0) as Hnz.
    { intros H0. apply Hd. rewrite H0. apply sqrt_0. }
    replace (_ / _) with 1 by (by field). apply sqrt_1.
  - rewrite length_fmap. rewrite signal_difference_fmap in Hdiff.
    rewrite list_lookup_fmap in Hdiff.
    destruct (_ !! p); [|done]. injection Hdiff as <-. by rewrite length_fmap.
Qed.
End ExplicitReal.

Section CapExplicit.
Import Real.
Local Open Scope R_scope.

Lemma k_find_unit (k0 s : vec3 R) :
  planar_distance k0 s <= 1 →
  (vx (k_find k0 s))² + (vy (k_find k0 s))² + (vz (k_find k0 s))² = 1 ∧
  0 <= vz (k_find k0 s) ∧
  sqrt ((vx (k_find k0 s))² + (vy (k_find k0 s))²) = planar_distance k0 s.
Proof.
  intros Hd. rewrite planar_distance_R in Hd.
  set (dx := vx k0 - vx s) in *. set (dy := vy k0 - vy s) in *.
  change (dx² + dy² + (sqrt (1 - dx * dx - dy * dy))² = 1 ∧
          0 <= sqrt (1 - dx * dx - dy * dy) ∧
          sqrt (dx² + dy²) = sqrt (dx² + dy²)).
  assert (0 <= dx² + dy²) as Hpos
    by (pose proof (Rle_0_sqr dx); pose proof (Rle_0_sqr dy); lra).
  assert (dx² + dy² <= 1) as Hle.
  { rewrite <- (sqrt_sqrt (dx² + dy²)) by done.
    pose proof (sqrt_pos (dx² + dy²)). nra. }
  split; [|split; [apply sqrt_pos|done]].
  rewrite Rsqr_sqrt by (unfold Rsqr in Hle; lra). unfold Rsqr. lra.
Qed.

(** X20.  The cap filter makes [explicit] safe: on the positions that
    [slines_intersections] returns, for any cut-off angle, [explicit]
    returns (no [IndexError]), and in exact arithmetic every direction of
    [k_finds] is then a unit vector with a non-negative third component,
    its reconstruction argument [1 - (k0_x - s_x)^2 - (k0_y - s_y)^2] being
    non-negative, and its planar part is no longer than [sin theta]. *)
Theorem explicit_after_cap (k0 : vec3 R) (ind : list nat) (line : list (vec3 R))
    (theta : R) (xy : list (R * R)) (cap : list nat) :
  slines_intersections k0 ind line theta = Returns cap →
  ∃ dist normal ks,
    explicit line ind cap xy k0 = Returns (dist, normal, ks) ∧
    length dist = length cap ∧ length ks = length cap ∧
    Forall (λ k, (vx k)² + (vy k)² + (vz k)² = 1 ∧ 0 <= vz k ∧
                 sqrt ((vx k)² + (vy k)²) <= sin theta) ks.
Proof.
  intros Hcap. destruct (slines_intersections_elem _ _ _ _ _ Hcap) as [_ Hin].
  assert (∃ js, take_indices ind cap = Returns js ∧
                Forall (λ i, ∃ s, line !! i = Some s ∧
                                  planar_distance k0 s <= sin theta) js)
    as (js & Hjs & Hall).
  { destruct (take_indices_total ind cap) as (js & Hjs).
    - apply Forall_forall. intros p Hp. apply Hin in Hp as (i & s & Hi & _).
      by eapply lookup_lt_Some.
    - exists js. split; [done|]. apply Forall_forall. intros i Hi.
      apply list_elem_of_lookup in Hi as [q Hq].
      apply (take_indices_lookup _ _ _ _ _ Hjs) in Hq as (p & Hp & Hi).
      assert (p ∈ cap) as Hpc by (by eapply list_elem_of_lookup_2).
      apply Hin in Hpc as (i' & s & Hi' & Hs & Hle).
      assert (i' = i) as -> by congruence. eauto. }
  destruct (take_indices_total line js) as (sel & Hsel).
  { eapply Forall_impl; [exact Hall|]. intros i (s & Hs & _).
    by eapply lookup_lt_Some. }
  assert (s_sel line ind cap = Returns sel) as Hs_sel
    by (unfold s_sel; by rewrite Hjs).
  exists (ambiguity_distances_explicit xy k0 (k_find k0 <$> sel)),
         (ambiguity_normal_explicit xy k0 (k_find k0 <$> sel)),
         (k_find k0 <$> sel).
  split; [apply explicit_Returns; by exists sel|].
  destruct (s_sel_Returns _ _ _ _ Hs_sel) as [Hlen _].
  split.
  { unfold ambiguity_distances_explicit.
    by rewrite length_fmap, length_signal_difference, length_fmap. }
  split; [by rewrite length_fmap|].
  apply Forall_fmap, Forall_forall. intros s Hs.
  apply list_elem_of_lookup in Hs as [q Hq].
  apply (take_indices_lookup _ _ _ _ _ Hsel) in Hq as (i & Hi & Hli).
  rewrite Forall_forall in Hall.
  destruct (Hall i) as (s' & Hs' & Hle); [by eapply list_elem_of_lookup_2|].
  assert (s' = s) as -> by congruence.
  pose proof (SIN_bound theta) as [_ Hsin].
  destruct (k_find_unit k0 s) as (Hunit & Hz & Hplanar); [lra|].
  unfold compose. by rewrite Hplanar.
Qed.


Lemma explicit_after_cap_witness :
  ∃ cap dist normal ks,
    slines_intersections (Vec3 0 1 0) [0%nat] [Vec3 0 (6 / 10) 0] (PI / 2)
    = Returns cap ∧
    explicit [Vec3 0 (6 / 10) 0] [0%nat] cap [(1, 0)] (Vec3 0 1 0)
    = Returns (dist, normal, ks) ∧
    Forall (λ k, (vx k)² + (vy k)² + (vz k)² = 1 ∧ 0 <= vz k ∧
                 sqrt ((vx k)² + (vy k)²) <= sin (PI / 2)) ks.
Proof.
  eexists.
  match goal with
  | |- ∃ dist normal ks, ?H ∧ _ => assert H as Hcap by reflexivity
  end.
  destruct (explicit_after_cap _ _ _ _ [(1, 0)] _ Hcap)
    as (dist & normal & ks & Hex & _ & _ & Hunit).
  by exists dist, normal, ks.
Defined.


Lemma explicit_distance_bounds_witness :
  ∃ dist normal ks,
    explicit [Vec3 0 (6 / 10) 0] [0%nat] [0%nat] [(1, 0); (0, 1)] (Vec3 0 1 0)
    = Returns (dist, normal, ks) ∧
    Forall (λ d, 0 <= d <= 2 * sqrt (INR 2)) dist.
Proof.
  eexists _, _, _.
  match goal with
  | |- ?H ∧ _ => assert H as Hex by reflexivity
  end.
  split; [exact Hex|]. exact (proj1 (explicit_distance_bounds _ _ _ _ _ _ _ _ Hex)).
Defined.

Lemma explicit_normal_unit_witness :
  ∃ dist normal ks d n,
    explicit [Vec3 1 0 0] [0%nat] [0%nat] [(1 / 2, 0)] (Vec3 1 0 0)
    = Returns (dist, normal, ks) ∧
    dist !! 0%nat = Some d ∧ normal !! 0%nat = Some n ∧ d ≠ 0 ∧ cnorm n = 1.
Proof.
  eexists _, _, _, _, _.
  match goal with
  | |- ?H ∧ ?H1 ∧ ?H2 ∧ ?H3 ∧ _ =>
      assert H as Hex by reflexivity;
      assert H1 as Hd by reflexivity;
      assert H2 as Hn by reflexivity;
      assert H3 as Hnz
  end.
  { rewrite cnorm_R.
    change (sqrt ((cos (-2 * PI * (1 / 2 * 1 + 0 * 0))
                   - cos (-2 * PI * (1 / 2 * (1 - 1) + 0 * (0 - 0))))
                  * (cos (-2 * PI * (1 / 2 * 1 + 0 * 0))
                     - cos (-2 * PI * (1 / 2 * (1 - 1) + 0 * (0 - 0))))
                  + (sin (-2 * PI * (1 / 2 * 1 + 0 * 0))
                     - sin (-2 * PI * (1 / 2 * (1 - 1) + 0 * (0 - 0))))
                    * (sin (-2 * PI * (1 / 2 * 1 + 0 * 0))
                       - sin (-2 * PI * (1 / 2 * (1 - 1) + 0 * (0 - 0))))
                  + 0) ≠ 0).
    replace (-2 * PI * (1 / 2 * 1 + 0 * 0)) with (- PI) by lra.
    replace (-2 * PI * (1 / 2 * (1 - 1) + 0 * (0 - 0))) with 0 by lra.
    rewrite cos_neg, sin_neg, cos_PI, sin_PI, cos_0, sin_0.
    replace ((-1 - 1) * (-1 - 1) + (- 0 - 0) * (- 0 - 0) + 0) with 4 by lra.
    pose proof (sqrt_lt_R0 4 ltac:(lra)). lra. }
  split; [exact Hex|]. split; [exact Hd|]. split; [exact Hn|].
  split; [exact Hnz|].
  exact (proj1 (explicit_normal_unit _ _ _ _ _ _ _ _ 0 _ _ Hex Hd Hn Hnz)).
Defined.
End CapExplicit.

(** ** The search *)

Section SearchFacts.
Context {F : Type} `{!Arith F}.
Variable pinv : list (vec3 F) → outcome (list (vec3 F)).
Variables (R : list (vec3 F)) (n0 K k_length : list F).

Lemma PERMS_J3_bounds (PERMS_J : list (list Z)) :
  PERMS_J3 k_length = Returns PERMS_J →
  Forall (λ c, length c = 3%nat ∧ within_bounds k_length c) PERMS_J.
Proof.
  unfold PERMS_J3. rewrite bind_Returns. intros (k0 & Hk0 & Hrest).
  apply bind_Returns in Hrest as (k1 & Hk1 & Hrest).
  apply bind_Returns in Hrest as (k2 & Hk2 & [= <-]).
  apply offsets_Returns in Hk0 as (x0 & m0 & Hx0 & Hm0 & ->).
  apply offsets_Returns in Hk1 as (x1 & m1 & Hx1 & Hm1 & ->).
  apply offsets_Returns in Hk2 as (x2 & m2 & Hx2 & Hm2 & ->).
  destruct (triples_spec (seqZ 1 m0) (seqZ 1 m1) (seqZ 1 m2))
    as (_ & _ & Hin); [apply NoDup_seqZ..|].
  apply Forall_forall. intros c Hc.
  apply Hin in Hc as (a & b & c' & -> & Ha & Hb & Hc).
  apply elem_of_seqZ in Ha, Hb, Hc. split; [done|].
  intros [|[|[|i]]] o Ho; simplify_eq/=.
  - exists x0, m0. split_and!; [done|done|lia..].
  - exists x1, m1. split_and!; [done|done|lia..].
  - exists x2, m2. split_and!; [done|done|lia..].
Qed.

Lemma PERMS_J_stage_bounds (base : list (list Z)) (ind : list nat) (ii : nat)
    (PERMS_J : list (list Z)) :
  Forall (λ c, length c = ii ∧ within_bounds k_length c) base →
  PERMS_J_stage base ind k_length ii = Returns PERMS_J →
  Forall (λ c, length c = S ii ∧ within_bounds k_length c) PERMS_J.
Proof.
  intros Hbase Hst.
  destruct (stage_positions _ _ _ _ _ Hst) as (k & n & Hk & Hn & _ & Hat).
  apply Forall_forall. intros c Hc. apply list_elem_of_lookup in Hc as [aux Haux].
  apply Hat in Haux as (p & i & s & o & _ & Hs & Ho & _ & ->).
  rewrite Forall_forall in Hbase.
  destruct (Hbase s) as [Hlen Hwithin]; [by eapply list_elem_of_lookup_2|].
  split; [rewrite length_app; simpl; lia|].
  intros q o' Hq. destruct (decide (q < ii)%nat) as [Hlt|Hge].
  - rewrite lookup_app_l in Hq by lia. by apply Hwithin.
  - rewrite lookup_app_r in Hq by lia. rewrite Hlen in Hq.
    destruct (q - ii)%nat as [|d] eqn:Hd; [|done].
    injection Hq as <-. assert (q = ii) as -> by lia.
    by exists k, n.
Qed.

Lemma np_where_buffers (mask : list bool) (n : nat) :
  length mask = n → Forall (λ i, (i < n)%nat) (np_where mask).
Proof.
  intros <-. apply Forall_forall. intros i. apply np_where_lt.
Qed.

Lemma stage3_invariant (st : stage F) :
  stage3 pinv R n0 K k_length = Returns st → stage_invariant k_length 3 st.
Proof.
  unfold stage3. rewrite bind_Returns. intros (PERMS_J & HP & Hrest).
  apply bind_Returns in Hrest as (num & _ & Hrest).
  apply bind_Returns in Hrest as (bufs & Hbufs & Hrest).
  apply bind_Returns in Hrest as (s & Heval & Hrest).
  apply bind_Returns in Hrest as (ind & Hind & Hrest).
  apply bind_Returns in Hrest as (sel & Hsel & Hrest).
  apply bind_Returns in Hrest as (pts & _ & [= <-]).
  destruct (zero_buffers_Returns _ _ Hbufs) as [Hl Hn].
  destruct (evaluate_Returns _ _ _ _ _ _ _ _ _ _ Heval) as (Hl' & Hn' & _).
  unfold stage_invariant. simpl.
  split; [by apply PERMS_J3_bounds|]. split; [done|].
  split; [congruence|].
  unfold intersections3_ind in Hind.
  apply fmap_Returns in Hind as (mask & Hmask & ->).
  apply np_where_buffers.
  rewrite seed_mask_same in Hmask
    by (unfold intersection_line_norm; rewrite length_fmap; congruence).
  injection Hmask as <-. rewrite length_zip_with.
  unfold intersection_line_norm. rewrite length_fmap. lia.
Qed.

Lemma stage_next_invariant (ii : nat) (prev st : stage F) :
  stage_invariant k_length ii prev →
  stage_next pinv R n0 K k_length ii prev = Returns st →
  stage_invariant k_length (S ii) st.
Proof.
  intros (Hbase & _) . unfold stage_next. rewrite bind_Returns.
  intros (k & _ & Hrest).
  apply bind_Returns in Hrest as (num & _ & Hrest).
  apply bind_Returns in Hrest as (PERMS_J & HP & Hrest).
  apply bind_Returns in Hrest as (bufs & Hbufs & Hrest).
  apply bind_Returns in Hrest as (s & Heval & Hrest).
  apply bind_Returns in Hrest as (sel & Hsel & Hrest).
  apply bind_Returns in Hrest as (pts & _ & [= <-]).
  destruct (zero_buffers_Returns _ _ Hbufs) as [Hl Hn].
  destruct (evaluate_Returns _ _ _ _ _ _ _ _ _ _ Heval) as (Hl' & Hn' & _).
  unfold stage_invariant. simpl.
  split; [by eapply PERMS_J_stage_bounds|]. split; [done|].
  split; [congruence|].
  apply np_where_buffers. unfold residual_mask. by rewrite length_fmap.
Qed.

Lemma stage_loop_invariant (n : nat) :
  ∀ (a : nat) (st st' : stage F) (SV SV' : list F),
    (3 ≤ a)%nat →
    stage_invariant k_length a st →
    SV !! (a - 3)%nat
    = Some (of_int (Z.of_nat (length (stage_intersections_ind st)))) →
    stage_loop pinv R n0 K k_length (seq a n) st SV = Returns (st', SV') →
    stage_invariant k_length (a + n) st' ∧ length SV' = length SV ∧
    SV' !! (a + n - 3)%nat
    = Some (of_int (Z.of_nat (length (stage_intersections_ind st')))).
Proof.
  induction n as [|n IH]; intros a st st' SV SV' Ha Hinv HSV; simpl.
  - intros [= <- <-]. by rewrite Nat.add_0_r.
  - rewrite bind_Returns. intros (st1 & Hnext & Hrest).
    apply bind_Returns in Hrest as (SV1 & HSV1 & Hloop).
    pose proof (stage_next_invariant _ _ _ Hinv Hnext) as Hinv1.
    replace (Z.of_nat a - 2) with (Z.of_nat (a - 2)) in HSV1 by lia.
    apply setitemZ_nat in HSV1 as [Hlt ->].
    assert (3 ≤ S a)%nat as Ha1 by lia.
    assert (<[(a - 2)%nat:=of_int (Z.of_nat (length (stage_intersections_ind st1)))]>
              SV !! (S a - 3)%nat
            = Some (of_int (Z.of_nat (length (stage_intersections_ind st1)))))
      as Hpre.
    { replace (S a - 3)%nat with (a - 2)%nat by lia.
      by apply list_lookup_insert_eq. }
    destruct (IH (S a) st1 st' _ SV' Ha1 Hinv1 Hpre Hloop)
      as (Hinv' & Hlen & Hlast).
    rewrite length_insert in Hlen.
    replace (a + S n)%nat with (S a + n)%nat by lia. by split_and!.
Qed.

(** The search returns for three baselines or more, its last stage under
    the invariant of the stages. *)
Lemma search_invariant (Sn : Z) (st : stage F) (SURVIVORS : list F) :
  search pinv R n0 K k_length Sn = Returns (st, SURVIVORS) →
  3 ≤ Sn ∧ stage_invariant k_length (Z.to_nat Sn) st ∧
  length SURVIVORS = Z.to_nat (Sn - 2) ∧
  SURVIVORS !! Z.to_nat (Sn - 3)
  = Some (of_int (Z.of_nat (length (stage_intersections_ind st)))).
Proof.
  unfold search. rewrite bind_Returns. intros (st3 & Hst3 & Hrest).
  apply bind_Returns in Hrest as (SV & HSV & Hloop).
  pose proof (stage3_invariant _ Hst3) as Hinv3.
  unfold SURVIVORS_init in HSV.
  destruct (Z.ltb_spec (Sn - 2) 0) as [|Hge]; [done|].
  change 0 with (Z.of_nat 0) in HSV. apply setitemZ_nat in HSV as [Hlt ->].
  rewrite length_replicate in Hlt.
  assert (<[0%nat:=of_int (Z.of_nat (length (stage_intersections_ind st3)))]>
            (replicate (Z.to_nat (Sn - 2)) (of_int 0)) !! (3 - 3)%nat
          = Some (of_int (Z.of_nat (length (stage_intersections_ind st3)))))
    as Hpre by (by apply list_lookup_insert_eq; rewrite length_replicate).
  destruct (stage_loop_invariant _ 3 st3 st _ SURVIVORS (le_n 3) Hinv3 Hpre Hloop)
    as (Hinv & Hlen & Hlast).
  rewrite length_insert, length_replicate in Hlen.
  split; [lia|].
  replace (Z.to_nat Sn) with (3 + Z.to_nat (Sn - 3))%nat by lia.
  split; [done|]. split; [done|].
  replace (Z.to_nat (Sn - 3)) with (3 + Z.to_nat (Sn - 3) - 3)%nat at 1 by lia.
  exact Hlast.
Qed.

(** X22.  What the search returns: it returns only for [Sn >= 3]
    baselines, and then every surviving Candidate of its last stage gives
    each of the [Sn] baselines a plane index within the lattice bounds,
    [1 <= j_i <= int(k_length[i])]; the survivor indices address the
    Solution points of the last stage; and [SURVIVORS], of [Sn - 2]
    entries, ends with the number of these survivors. *)
Theorem search_survivors (Sn : Z) (st : stage F) (SURVIVORS : list F) :
  search pinv R n0 K k_length Sn = Returns (st, SURVIVORS) →
  3 ≤ Sn ∧
  Forall (λ c, length c = Z.to_nat Sn ∧ within_bounds k_length c)
         (stage_intersections st) ∧
  length (stage_intersections st) = length (stage_intersections_ind st) ∧
  Forall (λ i, (i < length (stage_intersection_line st))%nat)
         (stage_intersections_ind st) ∧
  length SURVIVORS = Z.to_nat (Sn - 2) ∧
  SURVIVORS !! Z.to_nat (Sn - 3)
  = Some (of_int (Z.of_nat (length (stage_intersections st)))).
Proof.
  intros Hsearch.
  destruct (search_invariant _ _ _ Hsearch)
    as (HSn & (Hcands & Hsel & Hshape & Hidx) & Hlen & Hlast).
  pose proof (take_indices_length _ _ _ Hsel) as Hcount.
  split; [done|]. split_and!.
  - apply Forall_forall. intros c Hc.
    rewrite Forall_forall in Hcands. apply Hcands.
    by eapply take_indices_elem.
  - done.
  - by rewrite Hshape.
  - done.
  - by rewrite Hcount.
Qed.

Lemma take_indices_nil_inv {A} (idx : list nat) (sel : list A) :
  take_indices [] idx = Returns sel → idx = [] ∧ sel = [].
Proof.
  rewrite take_indices_Returns. intros HF. by inversion HF.
Qed.

(** X23.  Once no Candidate survives, the search cannot go on for two
    stages: the stage after one without survivors, if it returns, lists no
    Candidate and has no survivor; and a stage started on an empty
    Candidate list raises [IndexError] ([np.array] of an empty list has one
    dimension, which [[ind, :]] does not fit) whenever the conversion
    [int(intersections_n * k_length[jj])] before it goes through. *)
Theorem no_survivors_dead_end (prev : stage F) (ii : nat) :
  stage_intersections_ind prev = [] →
  (∀ st, stage_next pinv R n0 K k_length ii prev = Returns st →
         stage_PERMS_J st = [] ∧ stage_intersections_ind st = [] ∧
         stage_intersections st = []) ∧
  (∀ st jj, stage_PERMS_J st = [] →
     (∀ k, k_length !! jj = Some k →
           ∃ z, to_int (fmul (of_int (Z.of_nat (length (stage_intersections_ind st)))) k)
                = Returns z) →
     stage_next pinv R n0 K k_length jj st = Raises IndexError).
Proof.
  intros Hdead. split.
  - intros st. unfold stage_next. rewrite Hdead, bind_Returns.
    intros (k & _ & Hrest).
    apply bind_Returns in Hrest as (num & _ & Hrest).
    apply bind_Returns in Hrest as (PERMS_J & HP & Hrest).
    apply bind_Returns in Hrest as (bufs & _ & Hrest).
    apply bind_Returns in Hrest as (s & _ & Hrest).
    apply bind_Returns in Hrest as (sel & Hsel & Hrest).
    apply bind_Returns in Hrest as (pts & _ & [= <-]). simpl.
    assert (PERMS_J = []) as ->.
    { unfold PERMS_J_stage in HP.
      apply bind_Returns in HP as (rows & Hrows & HP).
      apply bind_Returns in HP as (ks & _ & [= <-]).
      apply take_rows_Returns in Hrows. by injection Hrows as <-. }
    by apply take_indices_nil_inv in Hsel as [-> ->].
  - intros st jj Hempty Hint. unfold stage_next, getitem.
    destruct (k_length !! jj) as [k|]; [|done].
    cbn [mbind outcome_bind].
    destruct (Hint k eq_refl) as (z & ->). cbn [mbind outcome_bind].
    by rewrite Hempty.
Qed.

(** X24.  With fewer than three baselines the search does not start: if
    [k_length] has fewer than three entries, each convertible by [int],
    the enumeration of the first Candidates raises [IndexError] (from
    [k_length[i]], line 74), and so does the search. *)
Theorem search_needs_three_baselines (Sn : Z) :
  (length k_length < 3)%nat →
  (∀ k, k ∈ k_length → ∃ z, to_int k = Returns z) →
  PERMS_J3 k_length = Raises IndexError ∧
  search pinv R n0 K k_length Sn = Raises IndexError.
Proof.
  intros Hlen Hint.
  assert (PERMS_J3 k_length = Raises IndexError) as HP.
  { unfold PERMS_J3, offsets, getitem.
    destruct k_length as [|x0 [|x1 [|x2 l]]]; simpl in Hlen; try lia; simpl.
    - done.
    - destruct (Hint x0) as (z0 & ->); [by left|]. done.
    - destruct (Hint x0) as (z0 & ->); [by left|].
      destruct (Hint x1) as (z1 & ->); [right; by left|]. done. }
  split; [done|]. unfold search, stage3. by rewrite HP.
Qed.

Lemma np_where_from_length (i : nat) (m : list bool) :
  (length (np_where_from i m) ≤ length m)%nat.
Proof.
  revert i. induction m as [|b m IH]; intros i; simpl; [done|].
  specialize (IH (S i)). destruct b; simpl; lia.
Qed.

Lemma explicit_total `{!Trig F} (line : list (vec3 F)) (ind cap : list nat)
    (xy : list (F * F)) (k0 : vec3 F) :
  Forall (λ c, (c < length ind)%nat) cap →
  Forall (λ i, (i < length line)%nat) ind →
  ∃ dist normal ks,
    explicit line ind cap xy k0 = Returns (dist, normal, ks) ∧
    length dist = length cap ∧ length normal = length cap ∧
    length ks = length cap.
Proof.
  intros Hcap Hind.
  destruct (take_indices_total ind cap Hcap) as (js & Hjs).
  destruct (take_indices_total line js) as (sel & Hsel).
  { apply Forall_forall. intros i Hi. rewrite Forall_forall in Hind.
    apply Hind. by eapply take_indices_elem. }
  pose proof (explicit_entries line ind cap xy k0) as Hentries.
  assert (s_sel line ind cap = Returns sel) as Hs_sel
    by (unfold s_sel; by rewrite Hjs).
  unfold explicit, k_finds in Hentries |- *. rewrite Hs_sel in Hentries |- *.
  simpl in Hentries |- *. destruct Hentries as (_ & Hd & Hn & Hk & _).
  by eexists _, _, _.
Qed.

(** X25.  The search, the cap filter and [explicit] fit together:
    whenever the search returns, [slines_intersections] called as the
    script calls it (lines 203-204), on the survivor indices and the
    Solution points of the last stage, returns, for any wave vector and
    cut-off angle; and [explicit] of [functions.py], called on what the cap
    filter returns, returns too, with one distance, one normalised
    difference and one direction for each of the positions kept, which are
    at most as many as the survivors: no index of the chain is out of
    range. *)
Theorem search_then_cap_then_explicit `{!Trig F} (Sn : Z) (st : stage F)
    (SURVIVORS : list F) (k0 : vec3 F) (cutoff_ph_ang : F) (xy : list (F * F)) :
  search pinv R n0 K k_length Sn = Returns (st, SURVIVORS) →
  ∃ cap dist normal ks,
    slines_intersections k0 (stage_intersections_ind st)
      (stage_intersection_line st) cutoff_ph_ang = Returns cap ∧
    explicit (stage_intersection_line st) (stage_intersections_ind st) cap xy k0
    = Returns (dist, normal, ks) ∧
    (length cap ≤ length (stage_intersections st))%nat ∧
    length dist = length cap ∧ length normal = length cap ∧
    length ks = length cap.
Proof.
  intros Hsearch.
  destruct (search_invariant _ _ _ Hsearch)
    as (_ & (_ & Hcands & Hshape & Hidx) & _).
  rewrite <- Hshape in Hidx.
  destruct (take_indices_total _ _ Hidx) as (sel & Hsel).
  unfold slines_intersections. rewrite Hsel. cbn [mbind outcome_bind].
  set (mask := (λ s, fleb (planar_distance k0 s) (fsin cutoff_ph_ang)) <$> sel).
  assert (length mask = length (stage_intersections_ind st)) as Hmask
    by (unfold mask; by rewrite length_fmap, (take_indices_length _ _ _ Hsel)).
  destruct (explicit_total (stage_intersection_line st)
              (stage_intersections_ind st) (np_where mask) xy k0)
    as (dist & normal & ks & Hex & Hd & Hn & Hk).
  { apply Forall_forall. intros c Hc. apply np_where_lt in Hc. lia. }
  { done. }
  exists (np_where mask), dist, normal, ks. split_and!; try done.
  rewrite (take_indices_length _ _ _ Hcands), <- Hmask.
  apply np_where_from_length.
Qed.
End SearchFacts.

Section SearchExamples.
Import PrimFloat.

Lemma search_survivors_witness :
  ∃ st SURVIVORS,
    search pinv_planar [Vec3 1 0 0; Vec3 0 1 0; Vec3 1 1 0; Vec3 2 1 0]%float
      (n0_cal (linCoeff_cal [Vec3 1 0 0; Vec3 0 1 0; Vec3 1 1 0; Vec3 2 1 0]%float))
      (linCoeff_cal [Vec3 1 0 0; Vec3 0 1 0; Vec3 1 1 0; Vec3 2 1 0]%float)
      (k_length_cal
         (n0_cal (linCoeff_cal [Vec3 1 0 0; Vec3 0 1 0; Vec3 1 1 0; Vec3 2 1 0]%float)))
      4 = Returns (st, SURVIVORS) ∧
    length SURVIVORS = 2%nat ∧
    (0 < length (stage_intersections st))%nat ∧
    Forall (λ c, length c = 4%nat) (stage_intersections st).
Proof.
  eexists _, _.
  match goal with
  | |- ?H ∧ _ => assert H as Hsearch by (vm_compute; reflexivity)
  end.
  split; [exact Hsearch|].
  destruct (search_survivors _ _ _ _ _ _ _ _ Hsearch)
    as (_ & Hcands & _ & _ & Hlen & _).
  split; [exact Hlen|]. split; [vm_compute; lia|].
  eapply Forall_impl; [exact Hcands|]. by intros c [Hc _].
Defined.

Lemma no_survivors_dead_end_witness :
  stage_next pinv_planar [Vec3 1 0 0; Vec3 0 1 0; Vec3 1 1 0; Vec3 2 1 0]%float
    [2; 2; 2; 4]%float [1; 1; 1; 2]%float [5; 5; 5; 9]%float 3
    (Stage [] [] [] [] [] []) = Raises IndexError.
Proof.
  apply (proj2 (no_survivors_dead_end pinv_planar
                  [Vec3 1 0 0; Vec3 0 1 0; Vec3 1 1 0; Vec3 2 1 0]%float
                  [2; 2; 2; 4]%float [1; 1; 1; 2]%float [5; 5; 5; 9]%float
                  (Stage [[1; 1; 1]] [] [] [] [] []) 3 eq_refl)); [done|].
  intros k [= <-]. eexists. vm_compute. reflexivity.
Defined.

Lemma search_needs_three_baselines_witness :
  PERMS_J3 [5; 5]%float = Raises IndexError ∧
  search pinv_planar [Vec3 1 0 0; Vec3 0 1 0]%float [2; 2]%float [1; 1]%float
    [5; 5]%float 2 = Raises IndexError.
Proof.
  apply (search_needs_three_baselines pinv_planar); [simpl; lia|].
  intros k Hk. assert (k = 5%float) as ->.
  { rewrite !elem_of_cons, elem_of_nil in Hk. by destruct Hk as [->|[->|[]]]. }
  eexists. vm_compute. reflexivity.
Defined.
End SearchExamples.

(** ** The stages return *)

Section StageTotal.
Context {F : Type} `{!Arith F}.
Variable pinv : list (vec3 F) → outcome (list (vec3 F)).
Variables (R : list (vec3 F)) (n0 K : list F).
Hypothesis pinv_shape :
  ∀ W, ∃ Wpinv, pinv W = Returns Wpinv ∧ length Wpinv = length W.

(** On a right-hand side of one entry per row the solver returns. *)
Lemma solver_total (W : list (vec3 F)) (b : list F) :
  length b = length W → ∃ x r, mooore_penrose_solution pinv W b = Returns (x, r).
Proof.
  intros Hb. destruct (pinv_shape W) as (Wpinv & HW & Hshape).
  unfold mooore_penrose_solution. rewrite HW. cbn [mbind outcome_bind].
  assert (∃ check, solution_check W Wpinv b = Returns check) as (check & ->).
  { unfold solution_check, multi_dot. destruct (decide _) as [_|_].
    - unfold mat_vec. rewrite decide_True by congruence. cbn [mbind outcome_bind].
      rewrite broadcast2_same; [by eexists|].
      unfold mat_mat. rewrite !length_fmap. congruence.
    - unfold pinv_dot. rewrite decide_True by congruence. cbn [mbind outcome_bind].
      rewrite broadcast2_same; [by eexists|].
      unfold mat_vec3. rewrite length_fmap. congruence. }
  cbn [mbind outcome_bind]. unfold pinv_dot.
  rewrite decide_True by congruence. cbn [mbind outcome_bind]. by eexists _, _.
Qed.

(** The loop over the Candidates returns when each Candidate covers the
    baselines of the system and has a slot in the buffers. *)
Lemma evaluate_total (m : nat) (PERMS_J : list (list Z)) :
  (m ≤ length R)%nat → (m ≤ length n0)%nat → (m ≤ length K)%nat →
  Forall (λ j, (m ≤ length j)%nat) PERMS_J →
  ∀ (aux : nat) (s : buffers F),
    (aux + length PERMS_J ≤ length (intersection_line_set s))%nat →
    (aux + length PERMS_J ≤ length (pinv_norm_set s))%nat →
    ∃ s', evaluate pinv R n0 K (W_matrix R m) (seq 0 m) aux PERMS_J s = Returns s'.
Proof.
  intros HR Hn0 HK. induction 1 as [|j rest Hj _ IH]; intros aux s Hl Hn.
  - by eexists.
  - cbn [evaluate]. simpl in Hl, Hn.
    destruct (b_vector_total m j R n0 K Hj HR Hn0 HK) as (b & -> & Hb).
    cbn [mbind outcome_bind].
    destruct (solver_total (W_matrix R m) b) as (x & r & ->).
    { unfold W_matrix. rewrite length_fmap, length_take. lia. }
    cbn [mbind outcome_bind fst snd].
    rewrite (proj2 (setitemZ_nat (intersection_line_set s) _ aux x))
      by (split; [lia|done]).
    cbn [mbind outcome_bind].
    rewrite (proj2 (setitemZ_nat (pinv_norm_set s) _ aux r))
      by (split; [lia|done]).
    cbn [mbind outcome_bind].
    apply IH; simpl; rewrite length_insert; lia.
Qed.
End StageTotal.

Section StageTotalReal.
Import Real.
Local Open Scope R_scope.
Variable pinv : list (vec3 R) → outcome (list (vec3 R)).
Variables (R0 : list (vec3 R)) (n0 K k_length : list R).
Hypothesis pinv_shape :
  ∀ W, ∃ Wpinv, pinv W = Returns Wpinv ∧ length Wpinv = length W.
Hypothesis k_length_integer :
  Forall (λ k, ∃ z : Z, (0 ≤ z)%Z ∧ k = IZR z) k_length.

Lemma offsets_integer (i : nat) (z : Z) :
  k_length !! i = Some (IZR z) → offsets k_length i = Returns (seqZ 1 z).
Proof.
  intros Hk. apply offsets_Returns. exists (IZR z), z.
  split; [done|]. split; [|done].
  change (Returns (trunc (IZR z)) = Returns z). by rewrite trunc_IZR.
Qed.

Lemma k_length_lookup (i : nat) :
  (i < length k_length)%nat →
  ∃ z : Z, (0 ≤ z)%Z ∧ k_length !! i = Some (IZR z).
Proof.
  intros Hi. destruct (lookup_lt_is_Some_2 k_length i Hi) as (k & Hk).
  rewrite Forall_forall in k_length_integer.
  destruct (k_length_integer k) as (z & Hz & ->); [by eapply list_elem_of_lookup_2|].
  eauto.
Qed.

(** The first stage returns, whether a Candidate survives or not. *)
Lemma stage3_total :
  (3 ≤ length k_length)%nat → (3 ≤ length R0)%nat →
  (3 ≤ length n0)%nat → (3 ≤ length K)%nat →
  ∃ st, stage3 pinv R0 n0 K k_length = Returns st.
Proof.
  intros Hk HR Hn0 HK.
  destruct (k_length_lookup 0) as (z0 & Hz0 & Hk0); [lia|].
  destruct (k_length_lookup 1) as (z1 & Hz1 & Hk1); [lia|].
  destruct (k_length_lookup 2) as (z2 & Hz2 & Hk2); [lia|].
  assert (PERMS_J3 k_length
          = Returns (a ← seqZ 1 z0; b ← seqZ 1 z1; c ← seqZ 1 z2; [[a; b; c]]))
    as HP.
  { unfold PERMS_J3.
    by rewrite (offsets_integer _ _ Hk0), (offsets_integer _ _ Hk1),
      (offsets_integer _ _ Hk2). }
  set (P := a ← seqZ 1 z0; b ← seqZ 1 z1; c ← seqZ 1 z2; [[a; b; c]]) in *.
  assert (length P = Z.to_nat (z0 * z1 * z2)) as HlenP.
  { destruct (triples_spec (seqZ 1 z0) (seqZ 1 z1) (seqZ 1 z2))
      as (_ & Hlen & _); [apply NoDup_seqZ..|].
    unfold P. rewrite Hlen, !length_seqZ, !Z2Nat.inj_mul by lia. done. }
  assert (to_int (np_prod (take 3 k_length)) = Returns (z0 * z1 * z2)%Z) as Hnum.
  { destruct k_length as [|x0 [|x1 [|x2 l]]]; simpl in Hk; try lia.
    injection Hk0 as ->. injection Hk1 as ->. injection Hk2 as ->.
    change (Returns (trunc (IZR z0 * IZR z1 * IZR z2)) = Returns (z0 * z1 * z2)%Z).
    by rewrite <- !mult_IZR, trunc_IZR. }
  unfold stage3. rewrite HP. cbn [mbind outcome_bind]. rewrite Hnum.
  cbn [mbind outcome_bind]. unfold zero_buffers.
  destruct (Z.ltb_spec (z0 * z1 * z2) 0) as [|_]; [nia|].
  cbn [mbind outcome_bind].
  destruct (evaluate_total pinv R0 n0 K pinv_shape 3 P HR Hn0 HK) with
    (aux := 0%nat)
    (s := Buffers (replicate (Z.to_nat (z0 * z1 * z2)) (Vec3 (of_int 0) (of_int 0) (of_int 0)))
                  (replicate (Z.to_nat (z0 * z1 * z2)) (of_int 0)))
    as (s & Hs).
  { eapply Forall_impl; [apply (PERMS_J3_bounds k_length P HP)|].
    intros c [Hc _]. simpl. lia. }
  { simpl. rewrite length_replicate. lia. }
  { simpl. rewrite length_replicate. lia. }
  change (seq 0 3) with [0; 1; 2]%nat in Hs. rewrite Hs. cbn [mbind outcome_bind].
  destruct (evaluate_Returns _ _ _ _ _ _ _ _ _ _ Hs) as (Hl & Hn & _).
  simpl in Hl, Hn. rewrite length_replicate in Hl. rewrite length_replicate in Hn.
  unfold intersections3_ind.
  rewrite seed_mask_same
    by (unfold intersection_line_norm; rewrite length_fmap; congruence).
  cbn [fmap outcome_fmap mbind outcome_bind].
  match goal with
  | |- context [np_where ?m] => set (mask := m)
  end.
  assert (Forall (λ i, (i < Z.to_nat (z0 * z1 * z2))%nat) (np_where mask)) as Hidx.
  { apply np_where_buffers. unfold mask. rewrite length_zip_with.
    unfold intersection_line_norm. rewrite length_fmap. lia. }
  destruct (take_indices_total P (np_where mask)) as (sel & ->);
    [by rewrite HlenP|].
  cbn [mbind outcome_bind].
  destruct (take_indices_total (intersection_line_set s) (np_where mask))
    as (pts & ->); [by rewrite Hl|].
  by eexists.
Qed.

(** X26.  In exact arithmetic, for a pseudo-inverse of the transposed
    shape and whole, non-negative numbers of planes [k_length], the stages
    return as long as there is a Candidate to extend: the first stage
    always, on the geometry of three baselines or more; and the stage of
    baseline [ii] after any stage that lists at least one Candidate, then
    with [intersections_n * int(k_length[ii])] Candidates of its own, one
    slot of the buffers each. *)
Theorem stages_return :
  ((3 ≤ length k_length)%nat → (3 ≤ length R0)%nat →
   (3 ≤ length n0)%nat → (3 ≤ length K)%nat →
   ∃ st, stage3 pinv R0 n0 K k_length = Returns st ∧
         stage_invariant k_length 3 st) ∧
  (∀ ii prev,
     stage_invariant k_length ii prev → stage_PERMS_J prev ≠ [] →
     (ii < length k_length)%nat → (ii < length R0)%nat →
     (ii < length n0)%nat → (ii < length K)%nat →
     ∃ st z, stage_next pinv R0 n0 K k_length ii prev = Returns st ∧
             stage_invariant k_length (S ii) st ∧
             k_length !! ii = Some (IZR z) ∧
             length (stage_PERMS_J st)
             = (length (stage_intersections prev) * Z.to_nat z)%nat ∧
             length (stage_pinv_norm st) = length (stage_PERMS_J st)).
Proof.
  split.
  { intros Hk HR Hn0 HK. destruct (stage3_total Hk HR Hn0 HK) as (st & Hst).
    exists st. split; [done|]. by eapply stage3_invariant. }
  intros ii prev Hinv Hne Hk HR Hn0 HK.
  destruct Hinv as (Hcands & Hsel & Hshape & Hidx).
  destruct (k_length_lookup ii Hk) as (z & Hz & Hkii).
  pose proof (take_indices_length _ _ _ Hsel) as Hcount.
  set (n := length (stage_intersections_ind prev)) in *.
  assert (PERMS_J_stage (stage_PERMS_J prev) (stage_intersections_ind prev)
            k_length ii
          = Returns (PERMS_J_prime (cprod (stage_intersections prev) (seqZ 1 z))))
    as HP.
  { unfold PERMS_J_stage, take_rows.
    destruct (stage_PERMS_J prev) as [|c0 base] eqn:Hbase; [done|].
    rewrite Hsel. cbn [mbind outcome_bind].
    by rewrite (offsets_integer _ _ Hkii). }
  set (P := PERMS_J_prime (cprod (stage_intersections prev) (seqZ 1 z))) in *.
  assert (length P = Z.to_nat (Z.of_nat n * z)) as HlenP.
  { unfold P, PERMS_J_prime.
    rewrite length_fmap, length_cprod, length_seqZ, Hcount.
    rewrite Z2Nat.inj_mul, Nat2Z.id by lia. done. }
  assert (stage_next pinv R0 n0 K k_length ii prev
          = (bufs ← zero_buffers (Z.of_nat n * z)%Z;
             s ← evaluate pinv R0 n0 K (W_matrix R0 (S ii)) (seq 0 (S ii)) 0 P bufs;
             sel ← take_indices P (intersections_ind (pinv_norm_set s));
             pts ← take_indices (intersection_line_set s)
                     (intersections_ind (pinv_norm_set s));
             Returns (Stage P (intersection_line_set s) (pinv_norm_set s)
                        (intersections_ind (pinv_norm_set s)) sel
                        (projections R0 pts)))) as Hnext.
  { unfold stage_next. rewrite (getitem_Some _ _ _ Hkii).
    cbn [mbind outcome_bind]. fold n.
    assert (to_int (fmul (of_int (Z.of_nat n)) (IZR z))
            = Returns (Z.of_nat n * z)%Z) as ->.
    { change (Returns (trunc (IZR (Z.of_nat n) * IZR z))
              = Returns (Z.of_nat n * z)%Z).
      by rewrite <- mult_IZR, trunc_IZR. }
    cbn [mbind outcome_bind]. by rewrite HP. }
  pose proof (PERMS_J_stage_bounds k_length _ _ _ _ Hcands HP) as HboundsP.
  unfold zero_buffers in Hnext.
  destruct (Z.ltb_spec (Z.of_nat n * z) 0) as [|_]; [nia|].
  cbn [mbind outcome_bind] in Hnext.
  destruct (evaluate_total pinv R0 n0 K pinv_shape (S ii) P) with
    (aux := 0%nat)
    (s := Buffers (replicate (Z.to_nat (Z.of_nat n * z)) (Vec3 (of_int 0) (of_int 0) (of_int 0)))
                  (replicate (Z.to_nat (Z.of_nat n * z)) (of_int 0)))
    as (s & Hs); [lia|lia|lia| | | |].
  { eapply Forall_impl; [exact HboundsP|]. intros c [Hc _]. simpl. lia. }
  { simpl. rewrite length_replicate. lia. }
  { simpl. rewrite length_replicate. lia. }
  rewrite Hs in Hnext. cbn [mbind outcome_bind] in Hnext.
  destruct (evaluate_Returns _ _ _ _ _ _ _ _ _ _ Hs) as (Hl & Hn & _).
  simpl in Hl, Hn. rewrite length_replicate in Hl. rewrite length_replicate in Hn.
  assert (Forall (λ i, (i < Z.to_nat (Z.of_nat n * z))%nat)
            (intersections_ind (pinv_norm_set s))) as Hind.
  { apply np_where_buffers. unfold residual_mask. by rewrite length_fmap. }
  destruct (take_indices_total P (intersections_ind (pinv_norm_set s)))
    as (sel & Hsel'); [by rewrite HlenP|].
  destruct (take_indices_total (intersection_line_set s)
              (intersections_ind (pinv_norm_set s))) as (pts & Hpts);
    [by rewrite Hl|].
  rewrite Hsel' in Hnext. cbn [mbind outcome_bind] in Hnext.
  rewrite Hpts in Hnext. cbn [mbind outcome_bind] in Hnext.
  eexists _, z. split; [exact Hnext|]. split; [by eapply stage_next_invariant|].
  simpl. split; [done|]. split.
  - rewrite HlenP, <- Hcount. rewrite Z2Nat.inj_mul, Nat2Z.id by lia. done.
  - by rewrite Hn, HlenP.
Qed.
End StageTotalReal.

Section StageTotalExample.
Import Real.
Local Open Scope R_scope.

Lemma pinv_planar_shape (W : list (vec3 R)) :
  ∃ Wpinv, pinv_planar W = Returns Wpinv ∧ length Wpinv = length W.
Proof. eexists. split; [reflexivity|]. by rewrite length_fmap. Qed.

Lemma stages_return_witness :
  ∃ st, stage3 pinv_planar [Vec3 1 0 0; Vec3 0 1 0; Vec3 1 1 0] [2; 2; 2]
          [1; 1; sqrt 2] [5; 5; 5] = Returns st ∧
        stage_invariant [5; 5; 5] 3 st.
Proof.
  apply (stages_return pinv_planar [Vec3 1 0 0; Vec3 0 1 0; Vec3 1 1 0]
           [2; 2; 2] [1; 1; sqrt 2] [5; 5; 5] pinv_planar_shape);
    [|simpl; lia..].
  repeat (apply Forall_cons_2; [exists 5%Z; split; [lia|done]|]).
  apply Forall_nil_2.
Defined.
End StageTotalExample.

(** ** Errors of the solver and of the enumeration *)

Section SolverErrors.
Context {F : Type} `{!Arith F}.
Variable pinv : list (vec3 F) → outcome (list (vec3 F)).

Lemma broadcast2_Raises {A B C} (f : A → B → C) (l : list A) (k : list B) e :
  broadcast2 f l k = Raises e → e = ValueError.
Proof.
  unfold broadcast2. destruct (decide _); [done|].
  destruct l as [|a [|a' l]], k as [|b [|b' k]]; try done; by intros [= <-].
Qed.

Lemma solution_check_Raises (W Wpinv : list (vec3 F)) (b : list F) e :
  solution_check W Wpinv b = Raises e → e = ValueError.
Proof.
  unfold solution_check, multi_dot, mat_vec, pinv_dot.
  destruct (decide _) as [_|_].
  - destruct (decide (length Wpinv = length b)); simpl.
    + apply broadcast2_Raises.
    + by intros [= <-].
  - destruct (decide (length Wpinv = length b)); simpl.
    + apply broadcast2_Raises.
    + by intros [= <-].
Qed.

Lemma solution_check_total (W Wpinv : list (vec3 F)) (b : list F) :
  length Wpinv = length b → length W = length b →
  ∃ check, solution_check W Wpinv b = Returns check.
Proof.
  intros HP HW. unfold solution_check, multi_dot. destruct (decide _) as [_|_].
  - unfold mat_vec. rewrite decide_True by done. cbn [mbind outcome_bind].
    rewrite broadcast2_same; [by eexists|].
    unfold mat_mat. by rewrite !length_fmap.
  - unfold pinv_dot. rewrite decide_True by done. cbn [mbind outcome_bind].
    rewrite broadcast2_same; [by eexists|].
    unfold mat_vec3. by rewrite length_fmap.
Qed.

(** X27.  The errors of [mooore_penrose_solution], for [b] a column of
    shape [(n, 1)] or a one-dimensional array: an exception of
    [np.linalg.pinv] (its [LinAlgError]) passes through unchanged; besides
    it nothing is raised but numpy's [ValueError], raised whenever [b] has
    not one entry per column of the pseudo-inverse, and, on a
    one-dimensional [b] only, [IndexError] (from [[:, 0]], line 156).  On a
    one-dimensional [b] the function never returns; with shapes that fit
    it raises [IndexError] there, and returns on the column of the same
    entries. *)
Theorem solver_errors (W : list (vec3 F)) (b : b_array F) :
  (∀ e, pinv W = Raises e → mooore_penrose_solution_nd pinv W b = Raises e) ∧
  (∀ e, mooore_penrose_solution_nd pinv W b = Raises e →
        pinv W = Raises e ∨ e = ValueError ∨
        (e = IndexError ∧ ∃ l, b = b_flat l)) ∧
  (∀ Wpinv, pinv W = Returns Wpinv → length Wpinv ≠ length (b_entries b) →
            mooore_penrose_solution_nd pinv W b = Raises ValueError) ∧
  (∀ l res, b = b_flat l → mooore_penrose_solution_nd pinv W b ≠ Returns res) ∧
  (∀ Wpinv, pinv W = Returns Wpinv →
     length Wpinv = length (b_entries b) → length W = length (b_entries b) →
     mooore_penrose_solution_nd pinv W (b_flat (b_entries b))
     = Raises IndexError ∧
     ∃ x r, mooore_penrose_solution_nd pinv W (b_column (b_entries b))
            = Returns (x, r)).
Proof.
  split_and!.
  - intros e He. destruct b as [l|l]; simpl; unfold mooore_penrose_solution;
      by rewrite He.
  - intros e.
    destruct b as [l|l]; simpl; unfold mooore_penrose_solution;
      (destruct (pinv W) as [Wpinv|e'] eqn:HW; [|intros [= <-]; by left]);
      cbn [mbind outcome_bind]; intros He; right;
      (destruct (solution_check W Wpinv l) as [check|e'] eqn:Hcheck;
       [|cbn [mbind outcome_bind] in He; injection He as <-;
         left; by apply solution_check_Raises in Hcheck]);
      cbn [mbind outcome_bind] in He; unfold pinv_dot in He;
      (destruct (decide (length Wpinv = length l));
       [|left; by injection He as <-]).
    + done.
    + cbn [mbind outcome_bind] in He. injection He as <-. right. eauto.
  - intros Wpinv HW Hlen.
    destruct b as [l|l]; simpl in *; unfold mooore_penrose_solution;
      rewrite HW; cbn [mbind outcome_bind];
      unfold solution_check, multi_dot, mat_vec, pinv_dot;
      (destruct (decide (_ < _)%nat) as [_|_];
       rewrite !(decide_False (P := length Wpinv = length l)) by done;
       reflexivity).
  - intros l res ->. simpl.
    destruct (pinv W) as [Wpinv|e]; [|done]. cbn [mbind outcome_bind].
    destruct (solution_check W Wpinv l) as [check|e]; [|done].
    cbn [mbind outcome_bind].
    by destruct (pinv_dot Wpinv l) as [x|e].
  - intros Wpinv HW HP Hlen.
    destruct (solution_check_total W Wpinv (b_entries b) HP Hlen)
      as (check & Hcheck).
    simpl. unfold mooore_penrose_solution.
    rewrite HW. cbn [mbind outcome_bind]. rewrite Hcheck.
    cbn [mbind outcome_bind]. unfold pinv_dot. rewrite decide_True by done.
    cbn [mbind outcome_bind]. split; [done|]. by eexists _, _.
Qed.

(** X28.  The edges of [permutations_create]: on an empty
    [permutations_base] it raises [IndexError], even with no index
    selected; all it ever raises is [IndexError] or what [int] raises on
    [k_length[permutation_index]]; and on a base that has the rows selected
    it returns [len(ind) * n] pairs for [n = int(k_length[...])], none when
    [n <= 0]. *)
Theorem permutations_create_edges (permutations_base : list (list Z))
    (intersections_ind : list nat) (k_length : list F) (permutation_index : nat) :
  (permutations_base = [] →
   permutations_create permutations_base intersections_ind k_length
     permutation_index = Raises IndexError) ∧
  (∀ e, permutations_create permutations_base intersections_ind k_length
          permutation_index = Raises e →
        e = IndexError ∨
        ∃ k, k_length !! permutation_index = Some k ∧ to_int k = Raises e) ∧
  (∀ k n, permutations_base ≠ [] →
     Forall (λ i, (i < length permutations_base)%nat) intersections_ind →
     k_length !! permutation_index = Some k → to_int k = Returns n →
     ∃ pairs,
       permutations_create permutations_base intersections_ind k_length
         permutation_index = Returns pairs ∧
       length pairs = (length intersections_ind * Z.to_nat n)%nat ∧
       (n ≤ 0 → pairs = [])).
Proof.
  unfold permutations_create, take_rows, offsets. split_and!.
  - by intros ->.
  - intros e He. destruct permutations_base as [|c base]; [left; by injection He as <-|].
    destruct (take_indices (c :: base) intersections_ind) as [rows|e'] eqn:Hrows.
    + cbn [mbind outcome_bind] in He. unfold getitem in He.
      destruct (k_length !! permutation_index) as [k|];
        [|left; by injection He as <-].
      cbn [mbind outcome_bind] in He.
      destruct (to_int k) as [n|e'] eqn:Hk; [done|].
      right. exists k. by injection He as <-.
    + left. cbn [mbind outcome_bind] in He. injection He as <-.
      by apply take_indices_Raises in Hrows.
  - intros k n Hne Hidx Hk Hn.
    destruct permutations_base as [|c base]; [done|].
    destruct (take_indices_total _ _ Hidx) as (rows & Hrows). rewrite Hrows.
    cbn [mbind outcome_bind]. rewrite (getitem_Some _ _ _ Hk).
    cbn [mbind outcome_bind]. rewrite Hn. cbn [mbind outcome_bind].
    eexists. split; [done|]. rewrite py_range_1. split.
    + by rewrite length_cprod, length_seqZ, (take_indices_length _ _ _ Hrows).
    + intros Hle. rewrite seqZ_nil by lia. clear.
      induction rows as [|r rows IH]; [done|]. exact IH.
Qed.
End SolverErrors.

Section SolverErrorsExample.
Import PrimFloat.

Lemma solver_errors_witness :
  mooore_penrose_solution_nd pinv_planar
    [Vec3 1 0 0; Vec3 0 1 0; Vec3 1 1 0]%float (b_flat [1; 2; 3]%float)
  = Raises IndexError ∧
  (∃ x r, mooore_penrose_solution_nd pinv_planar
            [Vec3 1 0 0; Vec3 0 1 0; Vec3 1 1 0]%float (b_column [1; 2; 3]%float)
          = Returns (x, r)) ∧
  mooore_penrose_solution_nd pinv_planar
    [Vec3 1 0 0; Vec3 0 1 0; Vec3 1 1 0]%float (b_flat [1; 2]%float)
  = Raises ValueError.
Proof.
  destruct (solver_errors pinv_planar
              [Vec3 1 0 0; Vec3 0 1 0; Vec3 1 1 0]%float (b_flat [1; 2; 3]%float))
    as (_ & _ & _ & _ & Hfit).
  destruct (Hfit _ eq_refl eq_refl eq_refl) as [Hflat Hcolumn].
  split; [exact Hflat|]. split; [exact Hcolumn|].
  destruct (solver_errors pinv_planar
              [Vec3 1 0 0; Vec3 0 1 0; Vec3 1 1 0]%float (b_flat [1; 2]%float))
    as (_ & _ & Hshape & _).
  apply (Hshape _ eq_refl). simpl. lia.
Defined.
End SolverErrorsExample.

Section WaveVector.
Import Real.
Local Open Scope R_scope.

(** X29.  The angles of [k0_cal], in exact arithmetic: the azimuth is
    counted from the y axis toward the x axis (azimuth 0 gives
    [(0, cos el, sin el)] and azimuth 90 gives [(cos el, 0, sin el)]), the
    wave vector is the same for angles that differ by 360 degrees, and its
    part in the plane of the array has length [|cos el|]. *)
Theorem k0_cal_angles (el0 az0 : R) :
  k0_cal el0 0 = Vec3 0 (cos (radians el0)) (sin (radians el0)) ∧
  k0_cal el0 90 = Vec3 (cos (radians el0)) 0 (sin (radians el0)) ∧
  k0_cal el0 (az0 + 360) = k0_cal el0 az0 ∧
  k0_cal (el0 + 360) az0 = k0_cal el0 az0 ∧
  sqrt ((vx (k0_cal el0 az0))² + (vy (k0_cal el0 az0))²) = Rabs (cos (radians el0)).
Proof.
  assert (∀ x, radians (x + 360) = radians x + 2 * PI) as Hturn.
  { intros x. unfold radians. cbn [fmul fdiv fpi of_int arith trig]. field. }
  assert (radians 0 = 0) as H0
    by (unfold radians; cbn [fmul fdiv fpi of_int arith trig]; field).
  assert (radians 90 = PI / 2) as H90
    by (unfold radians; cbn [fmul fdiv fpi of_int arith trig]; field).
  unfold k0_cal. cbn [fsin fcos trig fmul arith].
  rewrite !Hturn, H0, H90, !sin_plus, !cos_plus, sin_2PI, cos_2PI.
  rewrite sin_0, cos_0, sin_PI2, cos_PI2.
  split_and!; try (f_equal; ring).
  cbn [vx vy].
  replace ((sin (radians az0) * cos (radians el0))²
           + (cos (radians az0) * cos (radians el0))²)
    with ((cos (radians el0))²).
  - apply sqrt_Rsqr_abs.
  - pose proof (sin2_cos2 (radians az0)) as H1. unfold Rsqr in *. nra.
Qed.
End WaveVector.

Section EdgeExamples.
Import PrimFloat.

Lemma permutations_create_edges_witness :
  permutations_create [] [] [3]%float 0 = Raises IndexError ∧
  ∃ pairs, permutations_create [[1; 1; 1]; [1; 2; 1]] [1%nat] [3]%float 0
           = Returns pairs ∧ length pairs = 3%nat.
Proof.
  split.
  - exact (proj1 (permutations_create_edges [] [] [3]%float 0) eq_refl).
  - destruct (proj2 (proj2 (permutations_create_edges [[1; 1; 1]; [1; 2; 1]]
                              [1%nat] [3]%float 0)) 3%float 3)
      as (pairs & Hpairs & Hlen & _); [done| |done|vm_compute; reflexivity|].
    + apply Forall_cons_2; [simpl; lia|apply Forall_nil_2].
    + by exists pairs.
Defined.

(** [floor64] on some values, the negative and the fractional among them. *)
Example floor64_values :
  floor64 <$> [0x1.4p+1; -0x1p-1; -0x1.8p+1; 0x1p-2; 0; infinity]%float
  = [2; -1; -3; 0; 0; infinity]%float.
Proof. vm_compute. reflexivity. Qed.
End EdgeExamples.

Section PipelineExample.
Import Real.
Local Open Scope R_scope.


(** Three baselines of lengths 1/4, 1/4 and 1/2, the first two along the
    same axis: [n0 = floor(2 K)] is 0, 0, 1 and [k_length = 2 n0 + 1] is
    1, 1, 3. *)
Lemma example_lattice :
  linCoeff_cal [Vec3 (1 / 4) 0 0; Vec3 (1 / 4) 0 0; Vec3 0 (1 / 2) 0] = [1 / 4; 1 / 4; 1 / 2] ∧ n0_cal [1 / 4; 1 / 4; 1 / 2] = [0; 0; 1] ∧
  k_length_cal [0; 0; 1] = [1; 1; 3].
Proof.
  assert (sqrt (1 / 4 * (1 / 4) + 0 * 0 + 0 * 0) = 1 / 4) as H4.
  { replace (1 / 4 * (1 / 4) + 0 * 0 + 0 * 0) with ((1 / 4)²)
      by (unfold Rsqr; lra).
    apply sqrt_Rsqr. lra. }
  assert (sqrt (0 * 0 + 1 / 2 * (1 / 2) + 0 * 0) = 1 / 2) as H2.
  { replace (0 * 0 + 1 / 2 * (1 / 2) + 0 * 0) with ((1 / 2)²)
      by (unfold Rsqr; lra).
    apply sqrt_Rsqr. lra. }
  split_and!.
  - unfold linCoeff_cal, norm3, sumsq3, sq.
    cbn [fmap list_fmap vx vy vz fadd fmul fdiv fsqrt arith of_int].
    rewrite H4, H2. repeat (apply (f_equal2 cons); [lra|]). reflexivity.
  - unfold n0_cal. cbn [fmap list_fmap fmul arith of_int].
    unfold ffloor, floor_R.
    replace (2 * (1 / 4)) with (IZR 0 + 1 / 2) by lra.
    replace (2 * (1 / 2)) with (IZR 1) by lra.
    rewrite Int_part_IZR.
    assert (Int_part (IZR 0 + 1 / 2) = 0%Z) as ->; [|done].
    symmetry. apply Int_part_spec. simpl. lra.
  - unfold k_length_cal. cbn [fmap list_fmap fadd fmul arith of_int].
    repeat (apply (f_equal2 cons); [lra|]). reflexivity.
Qed.

Lemma example_W_matrix :
  W_matrix [Vec3 (1 / 4) 0 0; Vec3 (1 / 4) 0 0; Vec3 0 (1 / 2) 0] 3
  = [Vec3 1 0 0; Vec3 1 0 0; Vec3 0 1 0].
Proof.
  assert (sqrt (1 / 4 * (1 / 4) + 0 * 0 + 0 * 0) = 1 / 4) as H4.
  { replace (1 / 4 * (1 / 4) + 0 * 0 + 0 * 0) with ((1 / 4)²)
      by (unfold Rsqr; lra).
    apply sqrt_Rsqr. lra. }
  assert (sqrt (0 * 0 + 1 / 2 * (1 / 2) + 0 * 0) = 1 / 2) as H2.
  { replace (0 * 0 + 1 / 2 * (1 / 2) + 0 * 0) with ((1 / 2)²)
      by (unfold Rsqr; lra).
    apply sqrt_Rsqr. lra. }
  unfold W_matrix, norm3, sumsq3, sq.
  cbn [take fmap list_fmap vx vy vz fadd fmul fdiv fsqrt arith of_int].
  rewrite H4, H2.
  repeat (apply (f_equal2 cons); [f_equal; lra|]). reflexivity.
Qed.

(** The Candidate [[1; 1; 3]]: its planes are the ones through the origin
    for the first two baselines and the plane at distance 2 for the
    third. *)
Lemma example_b_vector :
  b_vector [0; 1; 2]%nat [1; 1; 3]%Z
    [Vec3 (1 / 4) 0 0; Vec3 (1 / 4) 0 0; Vec3 0 (1 / 2) 0] [0; 0; 1]
    [1 / 4; 1 / 4; 1 / 2] = Returns [0; 0; 2].
Proof.
  assert (norm3 (Vec3 (1 / 4) 0 0) ≠ 0) as Hn4.
  { intros H0. apply sqrt_eq_0 in H0; [|apply sumsq3_nonneg].
    unfold sumsq3, sq in H0. simpl in H0. lra. }
  assert (norm3 (Vec3 0 (1 / 2) 0) ≠ 0) as Hn2.
  { intros H0. apply sqrt_eq_0 in H0; [|apply sumsq3_nonneg].
    unfold sumsq3, sq in H0. simpl in H0. lra. }
  destruct (b_vector_total 3 [1; 1; 3]%Z
              [Vec3 (1 / 4) 0 0; Vec3 (1 / 4) 0 0; Vec3 0 (1 / 2) 0] [0; 0; 1]
              [1 / 4; 1 / 4; 1 / 2]) as (b & Hb & Hlen); [simpl; lia..|].
  change (seq 0 3) with [0; 1; 2]%nat in Hb. rewrite Hb. f_equal.
  pose proof (b_vector_lookup 3 _ _ _ _ _ 0%nat _ _ _ _ Hb ltac:(lia)
                eq_refl eq_refl eq_refl eq_refl Hn4) as H0.
  pose proof (b_vector_lookup 3 _ _ _ _ _ 1%nat _ _ _ _ Hb ltac:(lia)
                eq_refl eq_refl eq_refl eq_refl Hn4) as H1.
  pose proof (b_vector_lookup 3 _ _ _ _ _ 2%nat _ _ _ _ Hb ltac:(lia)
                eq_refl eq_refl eq_refl eq_refl Hn2) as H2.
  destruct b as [|b0 [|b1 [|b2 [|b3 b]]]]; try done.
  injection H0 as ->. injection H1 as ->. injection H2 as ->.
  repeat (apply (f_equal2 cons); [lra|]). reflexivity.
Qed.

(** Its system is solved exactly, by the point (0, 2, 0). *)
Lemma example_solution :
  mooore_penrose_solution pinv_planar [Vec3 1 0 0; Vec3 1 0 0; Vec3 0 1 0]
    [0; 0; 2] = Returns (Vec3 0 2 0, 0).
Proof.
  eapply solver_Returns_exact.
  - reflexivity.
  - unfold pinv_dot. rewrite decide_True by (by rewrite length_fmap).
    f_equal. unfold np_sum.
    cbn [fmap list_fmap zip_with foldl vx vy vz fadd fsub fmul fdiv arith of_int].
    f_equal; lra.
  - unfold mat_vec3, dot3.
    cbn [fmap list_fmap vx vy vz fadd fmul arith].
    repeat (apply (f_equal2 cons); [lra|]). reflexivity.
Qed.

(** The search over the three baselines keeps the Candidate [[1; 1; 3]],
    whose Solution (0, 2, 0) lies at planar distance 1 of the wave vector
    (0, 1, 0): the cap filter keeps a position, and [explicit] returns a
    distance for it. *)
Lemma search_then_cap_then_explicit_witness :
  ∃ st SURVIVORS cap dist normal ks,
    search pinv_planar [Vec3 (1 / 4) 0 0; Vec3 (1 / 4) 0 0; Vec3 0 (1 / 2) 0]
      (n0_cal (linCoeff_cal [Vec3 (1 / 4) 0 0; Vec3 (1 / 4) 0 0; Vec3 0 (1 / 2) 0]))
      (linCoeff_cal [Vec3 (1 / 4) 0 0; Vec3 (1 / 4) 0 0; Vec3 0 (1 / 2) 0])
      (k_length_cal
         (n0_cal (linCoeff_cal [Vec3 (1 / 4) 0 0; Vec3 (1 / 4) 0 0; Vec3 0 (1 / 2) 0])))
      3 = Returns (st, SURVIVORS) ∧
    slines_intersections (Vec3 0 1 0) (stage_intersections_ind st)
      (stage_intersection_line st) (PI / 2) = Returns cap ∧
    explicit (stage_intersection_line st) (stage_intersections_ind st) cap
      [(1, 0)] (Vec3 0 1 0) = Returns (dist, normal, ks) ∧
    [1; 1; 3]%Z ∈ stage_intersections st ∧
    (0 < length cap)%nat ∧ length dist = length cap.
Proof.
  destruct example_lattice as (-> & -> & ->).
  assert (Forall (λ k : R, ∃ z : Z, (0 ≤ z)%Z ∧ k = IZR z) [1; 1; 3]) as Hwhole.
  { apply Forall_cons_2; [exists 1%Z; split; [lia|reflexivity]|].
    apply Forall_cons_2; [exists 1%Z; split; [lia|reflexivity]|].
    apply Forall_cons_2; [exists 3%Z; split; [lia|reflexivity]|].
    apply Forall_nil_2. }
  destruct (stage3_total pinv_planar
              [Vec3 (1 / 4) 0 0; Vec3 (1 / 4) 0 0; Vec3 0 (1 / 2) 0]
              [0; 0; 1] [1 / 4; 1 / 4; 1 / 2] [1; 1; 3] pinv_planar_shape Hwhole
              ltac:(simpl; lia) ltac:(simpl; lia) ltac:(simpl; lia)
              ltac:(simpl; lia))
    as (st & Hst).
  assert (search pinv_planar
            [Vec3 (1 / 4) 0 0; Vec3 (1 / 4) 0 0; Vec3 0 (1 / 2) 0]
            [0; 0; 1] [1 / 4; 1 / 4; 1 / 2] [1; 1; 3] 3
          = Returns (st, [IZR (Z.of_nat (length (stage_intersections_ind st)))]))
    as Hsearch.
  { unfold search. rewrite Hst. reflexivity. }
  destruct (search_then_cap_then_explicit pinv_planar _ _ _ _ _ _ _
              (Vec3 0 1 0) (PI / 2) [(1, 0)] Hsearch)
    as (cap & dist & normal & ks & Hcap & Hex & _ & Hd & _).
  destruct (stage3_Returns _ _ _ _ _ _ Hst)
    as (bufs & s & HP & Hlen & Heval & Hline & Hnorm & Hind & Hsel).
  assert (stage_PERMS_J st = [[1; 1; 1]; [1; 1; 2]; [1; 1; 3]]%Z) as HJ.
  { unfold PERMS_J3 in HP.
    rewrite (offsets_integer [1; 1; 3] 0 1 eq_refl) in HP.
    rewrite (offsets_integer [1; 1; 3] 1 1 eq_refl) in HP.
    rewrite (offsets_integer [1; 1; 3] 2 3 eq_refl) in HP.
    by injection HP as <-. }
  rewrite example_W_matrix in Heval.
  assert (stage_PERMS_J st !! 2%nat = Some [1; 1; 3]%Z) as Hj
    by (by rewrite HJ).
  destruct (evaluated_selection _ _ _ _ _ _ _ _ _ 2%nat _ Hlen Heval Hj)
    as (b & x & r & Hb & Hsol & Hx & _ & Hseed & _).
  rewrite example_b_vector in Hb. injection Hb as <-.
  rewrite example_solution in Hsol. injection Hsol as <- <-.
  assert (2%nat ∈ stage_intersections_ind st) as Hkept.
  { apply (Hseed _ Hind). apply seed_predicate_R. simpl.
    assert (sqrt (0² + 2² + 0²) = 2) as ->.
    { replace (0² + 2² + 0²) with (2²) by (unfold Rsqr; lra).
      apply sqrt_Rsqr. lra. }
    lra. }
  assert ([1; 1; 3]%Z ∈ stage_intersections st) as Hsurvives.
  { apply (take_indices_elem_of _ _ _ _ Hsel). by exists 2%nat. }
  assert (0 < length cap)%nat as Hcap_pos.
  { destruct (slines_intersections_elem _ _ _ _ _ Hcap) as [_ Hcap_elem].
    apply list_elem_of_lookup in Hkept as [p Hp].
    assert (p ∈ cap) as Hpcap.
    { apply Hcap_elem. exists 2%nat, (Vec3 0 2 0).
      split; [done|]. split; [by rewrite Hline|]. simpl.
      rewrite sin_PI2.
      replace ((0 - 0)² + (1 - 2)²) with 1 by (unfold Rsqr; lra).
      rewrite sqrt_1. lra. }
    destruct cap; [by apply elem_of_nil in Hpcap|simpl; lia]. }
  by eexists st, _, cap, dist, normal, ks.
Defined.
End PipelineExample.
